(** * covid: the aggregation core of the COVID-19 command line reporter

    A shallow embedding of [getRemote], [decode], [data.filter],
    [data.reduce], [data.sum], [data.printCases], [data.sort],
    [data.sortCountry], [record.printCases], [record.printGraph] and of
    the report of [main], with [filter] and the top-10 blocks of the
    earlier [covid.go], followed by the properties of the specification
    that concern them and by further properties of the code: the
    decoder, [filter], [sum] and [printCases], the two versions of the
    country report, the top-N blocks, repeated [reduce], and the report
    from the Globe block to the top-10 lists.

    Go slices are references.  A [record] is copied by value, but its
    [cases] field keeps pointing to the same backing array, and a method
    with a value receiver [d data] still shares [d.records] with its
    caller.  The embedding therefore keeps the case arrays in a store
    ([heap]) and lets every method that permutes [d.records] in place
    return the new contents of that slice. *)

From Stdlib Require Import ZArith String Ascii Lia.
From stdpp Require Import base option list sorting strings.

Local Open Scope string_scope.
Local Open Scope list_scope.
Local Open Scope Z_scope.

(** ** Go's [int] (64 bits, two's complement, silent wrap-around) *)

Definition int_min : Z := - 2 ^ 63.
Definition int_max : Z := 2 ^ 63 - 1.

Definition is_int (z : Z) : Prop := int_min ≤ z ≤ int_max.

Definition wrap (z : Z) : Z := (z + 2 ^ 63) mod 2 ^ 64 - 2 ^ 63.

Definition addw (a b : Z) : Z := wrap (a + b).
Definition subw (a b : Z) : Z := wrap (a - b).

(** ** Data model *)

(** A [float32] is kept as its IEEE-754 bit pattern; no arithmetic is ever
    done on latitudes and longitudes. *)
Definition float32 : Type := Z.

Abbreviation loc := nat (only parsing).

(** A slice of [int]: [nil], or a reference to a backing array.  The
    program never re-slices, so two slices are the same array or disjoint
    ones and the length of a slice is the length of its array. *)
Inductive slice : Type :=
  | Nil
  | Arr (l : loc).

Record record : Type := {
  province : string;
  country : string;
  lat : float32;
  long : float32;
  cases : slice
}.

Record data : Type := {
  header : list string;
  records : list record
}.

(** The store of backing arrays of the [cases] slices. *)
Abbreviation heap := (list (list Z)) (only parsing).

(** [record{}] *)
Definition zero_record : record :=
  {| province := ""; country := ""; lat := 0; long := 0; cases := Nil |}.

#[global] Instance slice_eq_dec : EqDecision slice.
Proof. solve_decision. Defined.

(** ** Reading and writing through slices; [None] is a run-time panic *)

Definition load (h : heap) (s : slice) : option (list Z) :=
  match s with
  | Nil => Some []
  | Arr l => h !! l
  end.

(** [v[i]] for a Go [int] index. *)
Definition index {A : Type} (v : list A) (i : Z) : option A :=
  if (i <? 0)%Z then None else v !! Z.to_nat i.

Definition read (h : heap) (s : slice) (i : Z) : option Z :=
  v ← load h s; index v i.

Definition write (h : heap) (s : slice) (i : Z) (x : Z) : option heap :=
  match s with
  | Nil => None
  | Arr l =>
      v ← h !! l;
      if decide (0 ≤ i < Z.of_nat (length v))%Z
      then Some (<[l := <[Z.to_nat i := x]> v]> h)
      else None
  end.

(** [r.cases[k]] where the read is known not to panic. *)
Definition day_of (h : heap) (k : Z) (r : record) : Z :=
  default 0%Z (read h (cases r) k).

(** [r.cases[len(r.cases)-1]] *)
Definition latest (h : heap) (r : record) : option Z :=
  v ← load h (cases r); index v (Z.of_nat (length v) - 1).

(** A loop body that can panic, run over a list from left to right. *)
Fixpoint foldlM {A B : Type} (f : B → A → option B) (b : B) (l : list A)
  : option B :=
  match l with
  | [] => Some b
  | a :: l' => b' ← f b a; foldlM f b' l'
  end.

(** ** The library function [sort.Slice]

    [sort.Slice(x, less)] permutes [x] in place.  Its algorithm is not part
    of this repository and it is not stable; what the code may rely on is
    the documented contract, stated by [SliceSortOk] below.  [less] is given
    on the elements: both callers compare fields of [x[i]] and [x[j]]. *)
Class SliceSort : Type :=
  sort_Slice : ∀ A : Type, (A → A → bool) → list A → list A.
Arguments sort_Slice {_ _} _ _.

(** The requirements of [sort.Interface] on [less]. *)
Record strict_weak {A : Type} (less : A → A → bool) : Prop := {
  less_irrefl : ∀ a, less a a = false;
  less_trans : ∀ a b c, less a b = true → less b c = true → less a c = true;
  less_incomp : ∀ a b c, less a b = false → less b c = false → less a c = false
}.

(** No element is out of order with respect to an earlier one. *)
Definition sorted_by {A : Type} (less : A → A → bool) : list A → Prop :=
  StronglySorted (λ a b, less b a = false).

Class SliceSortOk (srt : SliceSort) : Prop := {
  sort_Slice_perm : ∀ (A : Type) (less : A → A → bool) (l : list A),
    sort_Slice less l ≡ₚ l;
  sort_Slice_sorted : ∀ (A : Type) (less : A → A → bool) (l : list A),
    strict_weak less → sorted_by less (sort_Slice less l)
}.

(** One implementation of the contract, used to run the model: insertion
    sort, which leaves elements that compare equal in their order.
    [sort.Slice] need not, but the insertion sort that it runs on short
    slices does. *)
Fixpoint insert_by {A : Type} (less : A → A → bool) (x : A) (l : list A)
  : list A :=
  match l with
  | [] => [x]
  | y :: l' => if less y x then y :: insert_by less x l' else x :: l
  end.

Definition insertion_sort : SliceSort :=
  λ A less l, foldr (insert_by less) [] l.

(** ** The library function [strings.EqualFold] *)
Class Folding : Type :=
  EqualFold : string → string → bool.

(** Equality under ASCII case folding: an implementation used to run the
    model ([strings.EqualFold] also folds the other Unicode letters). *)
Definition lower (a : ascii) : ascii :=
  let n := nat_of_ascii a in
  if ((65 <=? n) && (n <=? 90))%nat then ascii_of_nat (n + 32) else a.

Fixpoint ascii_fold (s t : string) : bool :=
  match s, t with
  | EmptyString, EmptyString => true
  | String a s', String b t' => Ascii.eqb (lower a) (lower b) && ascii_fold s' t'
  | _, _ => false
  end.

Definition ascii_folding : Folding := ascii_fold.

(** ** The methods of [data] *)

Module Data.
Section methods.
Context {srt : SliceSort} {fld : Folding}.

(** [func (d data) sortCountry()]: the new contents of [d.records]. *)
Definition sortCountry (d : data) : list record :=
  sort_Slice (λ a b, String.ltb (country a) (country b)) (records d).

(** The inner loop of [reduce], [n] iterations starting at [j]:
    [rs[l].cases[j] += d.records[i].cases[j]]. *)
Fixpoint add_cases (h : heap) (rs : list record) (l : Z) (src : slice)
    (j n : nat) : option heap :=
  match n with
  | O => Some h
  | S n' =>
      dst ← index rs l;
      x ← read h src (Z.of_nat j);
      y ← read h (cases dst) (Z.of_nat j);
      h' ← write h (cases dst) (Z.of_nat j) (addw y x);
      add_cases h' rs l src (S j) n'
  end.

(** One iteration of the outer loop of [reduce] on [d.records[i] = r];
    the loop state is [rs], [c] and the store. *)
Definition reduce_step (st : list record * string * heap) (r : record)
  : option (list record * string * heap) :=
  let '(rs, c, h) := st in
  if decide (country r ≠ c) then Some (rs ++ [r], country r, h)
  else
    v ← load h (cases r);
    h' ← add_cases h rs (Z.of_nat (length rs) - 1) (cases r) 0 (length v);
    Some (rs, c, h').

(** [func (d data) reduce() data].  The result is
    [(d.records after the call, returned data, store after the call)]. *)
Definition reduce (d : data) (h : heap)
  : option (list record * data * heap) :=
  let recs := sortCountry d in
  '(rs, _, h') ← foldlM reduce_step ([], "", h) recs;
  Some (recs, {| header := header d; records := rs |}, h').

(** [func (d data) filter(c string) (record, bool)].  The result of
    [d.reduce()] is dropped; the search runs over [d.records] as
    [reduce] left it. *)
Definition filter (d : data) (h : heap) (c : string)
  : option (list record * (record * bool) * heap) :=
  '(recs, _, h') ← reduce d h;
  Some (recs,
        match find (λ r, EqualFold (country r) c) recs with
        | Some r => (r, true)
        | None => (zero_record, false)
        end,
        h').

(** [func (d data) sum(c int) int] *)
Definition sum (d : data) (h : heap) (c : Z) : option Z :=
  c' ← (if (c <? 0)%Z
        then r0 ← records d !! 0%nat;
             v0 ← load h (cases r0);
             Some (Z.of_nat (length v0) + c)%Z
        else Some c);
  foldlM (λ s r, x ← read h (cases r) c'; Some (addw s x)) 0%Z (records d).

(** [func (d data) printCases(...)]: the two numbers written, the total
    of the latest day and the day-over-day change ("New"). *)
Definition printCases (d : data) (h : heap) : option (Z * Z) :=
  s ← sum d h (-1);
  s2 ← sum d h (-2);
  Some (s, subw s s2).

(** The comparison of [sort],
    [d.records[i].cases[k] > d.records[j].cases[k]]; [sort] below has
    checked that both reads are in range. *)
Definition more_cases (h : heap) (k : Z) (a b : record) : bool :=
  (day_of h k b <? day_of h k a)%Z.

(** [func (d data) sort()]: the new contents of [d.records].

    [less] reads [len(d.records[0].cases)] at every call, while the slice
    is being permuted.  When all case sequences have one length, as the
    data model requires, the column [k] is a constant and a panic in
    [less] is a panic of the sort, since every record of a slice of two
    or more is compared at least once.  The model follows Go exactly
    there; on other data Go's behaviour depends on the pairs that
    [sort.Slice] happens to compare. *)
Definition sort (d : data) (h : heap) : option (list record) :=
  match records d with
  | [] | [_] => Some (records d)
  | r0 :: _ =>
      v0 ← load h (cases r0);
      let k := (Z.of_nat (length v0) - 1)%Z in
      _ ← mapM (λ r, read h (cases r) k) (records d);
      Some (sort_Slice (more_cases h k) (records d))
  end.
End methods.
End Data.

(** [func (r record) printCases(...)] *)
Module Record.
Definition printCases (r : record) (h : heap) : option (Z * Z) :=
  v ← load h (cases r);
  s ← index v (Z.of_nat (length v) - 1);
  s2 ← index v (Z.of_nat (length v) - 2);
  Some (s, subw s s2).
End Record.

(** ** The top-10 blocks of [main]

    [rconf := conf.reduce(); rconf.sort(); for i := 0; i < 10; i++ { ... }]
    with the loop bound as a parameter.  The result is the list of rows
    written: rank, [rconf.records[i].country] and
    [rconf.records[i].cases[len(rconf.records[i].cases)-1]]. *)
Section top.
Context {srt : SliceSort}.

Definition top_row (recs : list record) (h : heap) (i : nat)
  : option (nat * string * Z) :=
  r ← recs !! i;
  x ← latest h r;
  Some (S i, country r, x).

Definition top_rows (n : nat) (recs : list record) (h : heap)
  : option (list (nat * string * Z)) :=
  mapM (top_row recs h) (seq 0 n).

Definition topN (n : nat) (d : data) (h : heap)
  : option (list (nat * string * Z)) :=
  '(_, r, h') ← Data.reduce d h;
  recs ← Data.sort r h';
  top_rows n recs h'.

Definition top10 : data → heap → option (list (nat * string * Z)) :=
  topN 10.
End top.

(** ** The earlier version, [covid.go]

    [sum], [printCases], [sort] and [atof] are the functions above and
    [convertAndSave] is [decode]; [filter] and the top-10 blocks of
    [main] differ. *)
Module Legacy.
Section methods.
Context {srt : SliceSort} {fld : Folding}.

(** [func (d data) filter(country string) (data, bool)] *)
Definition filter (d : data) (c : string) : data * bool :=
  let rs := List.filter (λ r, EqualFold (country r) c) (records d) in
  ({| header := header d; records := rs |}, (0 <? length rs)%nat).

(** The top-10 blocks of [main],
    [conf.sort(); for i := 0; i < 10; i++ { ... conf.records[i].country }],
    with the loop bound as a parameter: the rank and the country of
    every line written. *)
Definition top_row (recs : list record) (i : nat) : option (nat * string) :=
  r ← recs !! i; Some (S i, country r).

Definition topN (n : nat) (d : data) (h : heap)
  : option (list (nat * string)) :=
  recs ← Data.sort d h; mapM (top_row recs) (seq 0 n).
End methods.
End Legacy.

(** ** The decoder *)

(** [decode] can end the process with [os.Exit(1)] after a message, or
    panic on an index out of range. *)
Inductive outcome (A : Type) : Type :=
  | Done (a : A)
  | Fatal (msg : string)
  | Panicked.
Arguments Done {_} _.
Arguments Fatal {_} _.
Arguments Panicked {_}.

#[global] Instance outcome_ret : MRet outcome := λ A, Done.
#[global] Instance outcome_bind : MBind outcome := λ A B f m,
  match m with
  | Done a => f a
  | Fatal msg => Fatal msg
  | Panicked => Panicked
  end.
#[global] Instance outcome_fmap : FMap outcome := λ A B f m,
  match m with
  | Done a => Done (f a)
  | Fatal msg => Fatal msg
  | Panicked => Panicked
  end.

Definition or_panic {A : Type} (o : option A) : outcome A :=
  match o with
  | Some a => Done a
  | None => Panicked
  end.

Definition or_exit {A : Type} (msg : string) (o : option A) : outcome A :=
  match o with
  | Some a => Done a
  | None => Fatal msg
  end.

(** [strconv.Atoi]: an optional sign, then one or more decimal digits, and
    a value that fits an [int]. *)
Definition digit (a : ascii) : option Z :=
  let n := nat_of_ascii a in
  if ((48 <=? n) && (n <=? 57))%nat then Some (Z.of_nat (n - 48)) else None.

Fixpoint digits (s : string) (acc : Z) : option Z :=
  match s with
  | EmptyString => Some acc
  | String a s' => d ← digit a; digits s' (10 * acc + d)
  end.

Definition Atoi (s : string) : option Z :=
  match s with
  | EmptyString => None
  | String a s' =>
      let '(neg, ds) :=
        if Ascii.eqb a "-" then (true, s')
        else if Ascii.eqb a "+" then (false, s')
        else (false, s) in
      match ds with
      | EmptyString => None
      | _ =>
          n ← digits ds 0;
          let v := if neg : bool then (- n)%Z else n in
          if decide (int_min ≤ v ≤ int_max)%Z then Some v else None
      end
  end.

(** What [decode] gets from outside the repository: the base64 decoder, the
    file system, the CSV reader and the float parser.  [None] is a non-nil
    [err]. *)
Class Platform : Type := {
  files : Type;
  DecodeString : string → option string;
  Create : string → files → option files;
  WriteString : string → string → files → option files;
  ReadAll : string → option (list (list string));
  ParseFloat32 : string → option float32
}.

(** [encoding/csv] with the default [FieldsPerRecord = 0]: every record has
    the number of fields of the first one, or [ReadAll] fails. *)
Class CsvOk (P : Platform) : Prop :=
  ReadAll_fields : ∀ content rr row,
    ReadAll content = Some rr → row ∈ rr → length row = length (hd [] rr).

Section decoder.
Context {P : Platform}.

(** [func atof(s string) float32] *)
Definition atof (s : string) : outcome float32 :=
  or_exit "Cannot convert number" (ParseFloat32 s).

(** The inner loop of [decode] on the row [rr[i]]:
    [for j := 4; j < len(rr[0]); j++ { ... cases = append(cases, n) }],
    [n] iterations starting at [j]. *)
Fixpoint decode_cases (row : list string) (j n : nat) (acc : list Z)
  : outcome (list Z) :=
  match n with
  | O => Done acc
  | S n' =>
      f ← or_panic (row !! j);
      x ← or_exit "Cannot convert number" (Atoi f);
      decode_cases row (S j) n' (acc ++ [x])
  end.

(** A slice built by [append] from [nil]: still [nil] when nothing was
    appended, else an array of its own. *)
Definition new_slice (v : list Z) (h : heap) : slice * heap :=
  match v with
  | [] => (Nil, h)
  | _ => (Arr (length h), h ++ [v])
  end.

(** One iteration of the outer loop of [decode], on the row [rr[i]];
    [n0] is [len(rr[0])]. *)
Definition decode_row (n0 : nat) (st : list record * heap)
    (row : list string) : outcome (list record * heap) :=
  let '(recs, h) := st in
  v ← decode_cases row 4 (n0 - 4) [];
  p ← or_panic (row !! 0%nat);
  c ← or_panic (row !! 1%nat);
  f2 ← or_panic (row !! 2%nat);
  la ← atof f2;
  f3 ← or_panic (row !! 3%nat);
  lo ← atof f3;
  let '(s, h') := new_slice v h in
  Done (recs ++ [{| province := p; country := c; lat := la; long := lo;
                    cases := s |}], h').

Fixpoint decode_rows (n0 : nat) (st : list record * heap)
    (rows : list (list string)) : outcome (list record * heap) :=
  match rows with
  | [] => Done st
  | row :: rows' => st' ← decode_row n0 st row; decode_rows n0 st' rows'
  end.

(** [func decode(path, ci, co, wg, save)]: [rd] is the content received
    on [ci], the result is what is sent on [co], with the store and the
    file system after the call. *)
Definition decode (path : string) (rd : string) (save : bool)
    (fs : files) (h : heap) : outcome (data * heap * files) :=
  content ← or_exit "Cannot decode data" (DecodeString rd);
  fs' ← (if save
         then f ← or_exit "Cannot create file" (Create path fs);
              or_exit "Cannot write to file" (WriteString path content f)
         else Done fs);
  rr ← or_exit "Cannot read csv data" (ReadAll content);
  '(recs, h') ← decode_rows (length (hd [] rr)) ([], h) (tail rr);
  hdr ← or_panic (rr !! 0%nat);
  Done ({| header := hdr; records := recs |}, h', fs').

(** [func convertAndSave(path, ci, co, wg)] of the earlier [covid.go]: the
    same statements, with the package variable [argSave] for [save]. *)
Definition convertAndSave (argSave : bool) (path : string) (rd : string)
    (fs : files) (h : heap) : outcome (data * heap * files) :=
  decode path rd argSave fs h.
End decoder.

(** A platform used to run the model: the transport encoding is the
    identity, files are a list of (path, content), CSV is split at line
    feeds and commas without quoting, and every coordinate parses to 0. *)
Fixpoint split_on (sep : ascii) (s : string) : list string :=
  match s with
  | EmptyString => [EmptyString]
  | String a s' =>
      if Ascii.eqb a sep then EmptyString :: split_on sep s'
      else match split_on sep s' with
           | [] => [String a EmptyString]
           | f :: fs => String a f :: fs
           end
  end.

Definition plain_ReadAll (content : string) : option (list (list string)) :=
  let rr := split_on "," <$> split_on "010" content in
  if forallb (λ row, Nat.eqb (length row) (length (hd [] rr))) rr
  then Some rr else None.

Definition plain_platform : Platform := {|
  files := list (string * string);
  DecodeString := Some;
  Create := λ path fs, Some fs;
  WriteString := λ path content fs, Some ((path, content) :: fs);
  ReadAll := plain_ReadAll;
  ParseFloat32 := λ _, Some 0%Z
|}.

(** ** The fetcher

    Instants and [time.Duration]s are in nanoseconds. *)
Definition Second : Z := 1000000000.

(** [const remoteServerTimeout = 10 * time.Second] *)
Definition remoteServerTimeout : Z := 10 * Second.

(** A [context.Context] as [getRemote] sees it: its deadline, if it has
    one, and whether it has been cancelled. *)
Record context : Type := {
  deadline : option Z;
  canceled : bool
}.

(** [context.Background()] *)
Definition Background : context := {| deadline := None; canceled := false |}.

(** [context.WithTimeout(parent, d)] called at the instant [now]: the
    deadline is [now + d], or the parent's if that is earlier. *)
Definition WithTimeout (parent : context) (now d : Z) : context :=
  {| deadline := Some (match deadline parent with
                       | Some t => Z.min t (now + d)
                       | None => now + d
                       end);
     canceled := canceled parent |}.

(** Whether [<-ctx.Done()] is ready at the instant [t], and [ctx.Err()]
    when it is. *)
Definition ctx_Done (ctx : context) (t : Z) : bool :=
  canceled ctx || match deadline ctx with
                  | Some d => d <=? t
                  | None => false
                  end.

Definition ctx_Err (ctx : context) : string :=
  if canceled ctx then "context canceled" else "context deadline exceeded".

(** An [error] as [getRemote] looks at it: whether it is a
    [*github.RateLimitError], and its text. *)
Record error : Type := {
  is_RateLimitError : bool;
  message : string
}.

Inductive reply : Type :=
  | Content (c : string)
  | Failed (err : error).

(** [cl.Repositories.GetContents(ctx, owner, repo, path, nil)] issued at
    an instant, with the transport behind it: what the call returns, and
    the instant at which the transport would respond to the request if
    nothing stopped it. *)
Class Client : Type := {
  GetContents : context → Z → string → string → string → reply;
  responds : Z → string → Z
}.

(** A request under a context ([net/http], and [go-github] on top of it):
    when the deadline of the context passes before the transport
    responds, the request is abandoned and the call returns the error of
    the context, which is no rate-limit error. *)
Class ClientOk (C : Client) : Prop :=
  GetContents_deadline : ∀ ctx t owner repo path d,
    canceled ctx = false → deadline ctx = Some d → d < responds t path →
    GetContents ctx t owner repo path
    = Failed {| is_RateLimitError := false; message := ctx_Err ctx |}.

(** A request that [getRemote] has issued. *)
Record request : Type := {
  req_ctx : context;
  req_at : Z;
  req_path : string
}.

(** [fmt.Sprintf("csse_covid_19_data/csse_covid_19_time_series/%s", path)] *)
Definition series_path (path : string) : string :=
  "csse_covid_19_data/csse_covid_19_time_series/" ++ path.

(** [func getRemote(ctx, path, ch)], entered at the instant [t0] and
    reaching its [select] at [t1]: what is sent on [ch], or the message of
    the exit with status 1, and the requests issued. *)
Definition getRemote {C : Client} (ctx : context) (path : string)
    (t0 t1 : Z) : outcome string * list request :=
  let ctx := WithTimeout ctx t0 remoteServerTimeout in
  if ctx_Done ctx t1
  then (Fatal ("Cannot get data: " ++ ctx_Err ctx), [])
  else
    (match GetContents ctx t1 "CSSEGISandData" "COVID-19" (series_path path)
     with
     | Failed err =>
         if is_RateLimitError err
         then Fatal ("hit rate limit: " ++ message err)
         else Fatal ("cannot get data: " ++ message err)
     | Content c => Done c
     end,
     [{| req_ctx := ctx; req_at := t1; req_path := series_path path |}]).

(** A client used to run the model: the transport takes eleven seconds. *)
Definition slow_client : Client := {|
  GetContents := λ ctx t owner repo path,
    match deadline ctx with
    | Some d =>
        if (d <? t + 11 * Second) || canceled ctx
        then Failed {| is_RateLimitError := false; message := ctx_Err ctx |}
        else Content "Q291bnRyeQ=="
    | None => Content "Q291bnRyeQ=="
    end;
  responds := λ t path, t + 11 * Second
|}.

(** ** Notions used to state the properties *)

(** [r.cases] as a value, in the store [h]. *)
Definition cases_of (h : heap) (r : record) : list Z :=
  default [] (load h (cases r)).

(** The backing arrays of the [cases] of a slice of records. *)
Definition arr_loc (r : record) : option loc :=
  match cases r with
  | Arr l => Some l
  | Nil => None
  end.

Definition locs (recs : list record) : list loc := omap arr_loc recs.

(** In the store [h], [r.cases] has [L] entries, all of them Go [int]s. *)
Definition has_cases (h : heap) (L : nat) (r : record) : Prop :=
  match load h (cases r) with
  | Some v => length v = L ∧ Forall is_int v
  | None => False
  end.

(** The records of a dataset as [decode] builds them: case sequences of one
    length [L], each in a backing array of its own. *)
Definition wf (h : heap) (L : nat) (recs : list record) : Prop :=
  Forall (has_cases h L) recs ∧ NoDup (locs recs).

#[global] Instance is_int_dec z : Decision (is_int z).
Proof. unfold is_int. apply _. Defined.

#[global] Instance has_cases_dec h L r : Decision (has_cases h L r).
Proof. unfold has_cases. destruct (load h (cases r)); apply _. Defined.

#[global] Instance wf_dec h L recs : Decision (wf h L recs).
Proof. unfold wf. apply _. Defined.

(** The records of one country. *)
Definition group (c : string) (recs : list record) : list record :=
  base.filter (λ r, country r = c) recs.

(** The element-wise sum of sequences of length [L], over the integers. *)
Definition vsum (L : nat) (vs : list (list Z)) : list Z :=
  foldr (zip_with Z.add) (replicate L 0%Z) vs.

(** The sum that [reduce] leaves for the country [c]: the element-wise sum
    of the case sequences of the records of [c], in Go's arithmetic. *)
Definition country_total (h : heap) (L : nat) (c : string)
    (recs : list record) : list Z :=
  wrap <$> vsum L (cases_of h <$> group c recs).

(** What the outer loop of [reduce] does to [rs] and [c], which does not
    depend on the store. *)
Definition heads_step (st : list record * string) (r : record)
  : list record * string :=
  if decide (country r ≠ st.2) then (st.1 ++ [r], country r) else st.

Definition heads (recs : list record) : list record * string :=
  foldl heads_step ([], "") recs.

(** The comparison of [sortCountry]. *)
Definition country_less (a b : record) : bool :=
  String.ltb (country a) (country b).

(** Strictly increasing country names. *)
Definition increasing : list record → Prop :=
  StronglySorted (λ a b, country_less a b = true).

(** What holds of [heads P] when [P] is sorted by country. *)
Record heads_inv (P rs : list record) (c : string) : Prop := {
  hi_last : c = default "" (country <$> last P);
  hi_last_rs : default "" (country <$> last rs) = c;
  hi_max : ∀ y, y ∈ P → String.ltb c (country y) = false;
  hi_incr : increasing rs;
  hi_named : Forall (λ r, country r ≠ "") rs;
  hi_sub : rs `sublist_of` P;
  hi_cover : ∀ x, x ∈ P → country x ≠ "" → ∃ y, y ∈ rs ∧ country y = country x;
  hi_first : ∀ r, r ∈ rs →
    ∃ P1 P2, P = P1 ++ r :: P2 ∧ ∀ x, x ∈ P1 → country x ≠ country r
}.

(** The state of the loop after the records [P], from the store [h0]. *)
Record loop_inv (h0 : heap) (L : nat) (P : list record) (h : heap) : Prop := {
  li_run : foldlM Data.reduce_step ([], "", h0) P
           = Some ((heads P).1, (heads P).2, h);
  li_length : length h = length h0;
  li_total : ∀ r, r ∈ (heads P).1 →
    load h (cases r) = Some (country_total h0 L (country r) P);
  li_frame : ∀ s, s ∉ cases <$> (heads P).1 → load h s = load h0 s
}.

(** The loop of [sum] from the running total [s0], for the resolved
    index [k]. *)
Definition sum_loop (h : heap) (k : Z) (s0 : Z) (recs : list record)
  : option Z :=
  foldlM (λ s r, x ← read h (cases r) k; Some (addw s x)) s0 recs.

(** The entries of day [k] of the records of a slice. *)
Definition column (h : heap) (k : Z) (recs : list record) : list Z :=
  day_of h k <$> recs.

(** The case sequences of the records have one length [L]. *)
Definition equal_length (h : heap) (L : nat) (recs : list record) : Prop :=
  Forall (λ r, length <$> load h (cases r) = Some L) recs.

(** [a.cases[-1] >= b.cases[-1]] for every adjacent pair [(a, b)]. *)
Definition descending (h : heap) (recs : list record) : Prop :=
  ∀ i a b, recs !! i = Some a → recs !! S i = Some b →
    ∃ x y, latest h a = Some x ∧ latest h b = Some y ∧ (y ≤ x)%Z.

(** The record that [decode] appends for the row [row] of a table whose
    first row has [n0] fields, and the counts [v] that it converts. *)
Definition row_record {P : Platform} (n0 : nat) (row : list string)
    (r : record) (v : list Z) : Prop :=
  row !! 0%nat = Some (province r) ∧ row !! 1%nat = Some (country r) ∧
  row !! 2%nat ≫= ParseFloat32 = Some (lat r) ∧
  row !! 3%nat ≫= ParseFloat32 = Some (long r) ∧
  mapM Atoi (take (n0 - 4) (drop 4 row)) = Some v.

(** The sum of a list of integers. *)
Definition zsum (l : list Z) : Z := foldr Z.add 0%Z l.

(** ** Sample data

    The scenario of the specification: two regions of "Country A" with
    cases 1,2,3 and 4,5,6 and one region of "Country B" with 0,0,1, here
    with Country B first; and a table with a row that has no country
    name. *)
Definition region (p c : string) (l : loc) : record :=
  {| province := p; country := c; lat := 0; long := 0; cases := Arr l |}.

Definition sample_header : list string :=
  ["Province/State"; "Country/Region"; "Lat"; "Long";
   "1/22/20"; "1/23/20"; "1/24/20"].

Definition sample : data :=
  {| header := sample_header;
     records := [region "" "Country B" 0; region "East" "Country A" 1;
                 region "West" "Country A" 2] |}.

Definition sample_heap : heap := [[0; 0; 1]; [1; 2; 3]; [4; 5; 6]]%Z.

Definition unnamed : data :=
  {| header := sample_header;
     records := [region "" "" 0; region "" "US" 1] |}.

Definition unnamed_heap : heap := [[1; 1; 1]; [2; 3; 4]]%Z.

(** A table as the upstream repository serves it, for the sample
    platform, and what [decode] makes of it. *)
Definition line_feed : string := String "010" EmptyString.

Definition sample_csv : string :=
  String.concat line_feed
    ["Province/State,Country/Region,Lat,Long,1/22/20,1/23/20";
     ",US,37.09,-95.71,1,2";
     "Hubei,China,30.97,112.27,444,549"].

Definition sample_decoded : data :=
  {| header := ["Province/State"; "Country/Region"; "Lat"; "Long";
                "1/22/20"; "1/23/20"];
     records := [region "" "US" 0; region "Hubei" "China" 1] |}.

(** ** The report of [main]

    What [main] does once the three datasets have arrived: the "Globe"
    block, the country block and the three top-10 blocks.  The model
    records what is written, not its layout or colours.  [fmt.Printf]
    and [fmt.Println] write to standard output at once; [fmt.Fprintf(w,
    ...)] writes to the tabwriter [w], whose cells reach standard output
    at [w.Flush()] and are lost when the process ends before. *)
Record flags : Type := {
  fcountry : string;
  fgraph : bool;
  ftopc : bool;
  ftopd : bool;
  ftopr : bool
}.

Inductive line : Type :=
  | Title (s : string)
  | Cases (t : string) (s n : Z)
  | Row (rank : nat) (c : string) (x : Z)
  | Graph (caption : string) (v : list Z).

Record world : Type := {
  stdout : list line;
  pending : list line;
  store : heap
}.

(** A statement of [main]: it returns a value, exits with status 1 after
    a message on standard error, or panics, and leaves a world. *)
Definition run (A : Type) : Type := world → outcome A * world.

#[global] Instance run_ret : MRet run := λ A a w, (Done a, w).
#[global] Instance run_bind : MBind run := λ A B f m w,
  match m w with
  | (Done a, w') => f a w'
  | (Fatal msg, w') => (Fatal msg, w')
  | (Panicked, w') => (Panicked, w')
  end.

Definition Printf (l : line) : run unit := λ w,
  (Done tt, {| stdout := stdout w ++ [l]; pending := pending w;
               store := store w |}).

Definition Fprintf_w (l : line) : run unit := λ w,
  (Done tt, {| stdout := stdout w; pending := pending w ++ [l];
               store := store w |}).

Definition w_Init : run unit := λ w,
  (Done tt, {| stdout := stdout w; pending := []; store := store w |}).

Definition w_Flush : run unit := λ w,
  (Done tt, {| stdout := stdout w ++ pending w; pending := [];
               store := store w |}).

Definition Exit1 {A : Type} (msg : string) : run A := λ w, (Fatal msg, w).

(** A call that reads the store, and one that changes it. *)
Definition peek {A : Type} (f : heap → option A) : run A := λ w,
  (or_panic (f (store w)), w).

Definition poke {A : Type} (f : heap → option (A * heap)) : run A := λ w,
  match f (store w) with
  | Some (a, h') =>
      (Done a, {| stdout := stdout w; pending := pending w; store := h' |})
  | None => (Panicked, w)
  end.

Fixpoint for_each {A : Type} (l : list A) (body : A → run unit) : run unit :=
  match l with
  | [] => mret tt
  | a :: l' => _ ← body a; for_each l' body
  end.

Section report.
Context {srt : SliceSort} {fld : Folding}.

(** [d.printCases(t, colour)] and [r.printCases(t, colour)] *)
Definition data_printCases (t : string) (d : data) : run unit :=
  '(s, n) ← peek (Data.printCases d); Fprintf_w (Cases t s n).

Definition record_printCases (t : string) (r : record) : run unit :=
  '(s, n) ← peek (Record.printCases r); Fprintf_w (Cases t s n).

(** [r.printGraph(t, colour)]: the line records the caption and the
    counts handed to [asciigraph.Plot]. *)
Definition record_printGraph (t : string) (r : record) : run unit :=
  v ← peek (λ h, Some (cases_of h r));
  Printf (Graph (country r ++ " - " ++ t) v).

(** [x, found := d.filter(fcountry); if !found { ...; os.Exit(1) }]; the
    first component is [d] as [main] sees it afterwards. *)
Definition filter_or_exit (d : data) (c : string) : run (data * record) :=
  '(recs, r, found) ← poke (λ h, '(recs, (r, found), h') ← Data.filter d h c;
                                 Some (recs, r, found, h'));
  if found : bool
  then mret ({| header := header d; records := recs |}, r)
  else Exit1 ("Country " ++ c ++ " is not in the list").

Definition globe_block (conf dead recov : data) : run unit :=
  _ ← Printf (Title "Globe");
  _ ← w_Init;
  _ ← data_printCases "Confirmed" conf;
  _ ← data_printCases "Dead" dead;
  _ ← data_printCases "Recovered" recov;
  w_Flush.

Definition country_block (f : flags) (conf dead recov : data)
  : run (data * data * data) :=
  '(conf, cconf) ← filter_or_exit conf (fcountry f);
  '(dead, cdead) ← filter_or_exit dead (fcountry f);
  '(recov, crecov) ← filter_or_exit recov (fcountry f);
  _ ← Printf (Title (country cconf));
  _ ← w_Init;
  _ ← record_printCases "Confirmed" cconf;
  _ ← record_printCases "Dead" cdead;
  _ ← record_printCases "Recovered" crecov;
  _ ← w_Flush;
  _ ← (if fgraph f
       then _ ← record_printGraph "Confirmed" cconf;
            _ ← record_printGraph "Dead" cdead;
            record_printGraph "Recovered" crecov
       else mret tt);
  mret (conf, dead, recov).

(** [rd := d.reduce(); rd.sort(); fmt.Printf(title); w.Init(...);
    for i := 0; i < 10; i++ { fmt.Fprintf(w, ...) }; w.Flush()], with the
    loop bound as a parameter. *)
Definition top_block (n : nat) (title : string) (d : data) : run data :=
  '(recs, rd) ← poke (λ h, '(recs, rd, h') ← Data.reduce d h;
                           Some (recs, rd, h'));
  top ← peek (Data.sort rd);
  _ ← Printf (Title title);
  _ ← w_Init;
  _ ← for_each (seq 0 n) (λ i,
        '(rank, c, x) ← peek (λ h, top_row top h i);
        Fprintf_w (Row rank c x));
  _ ← w_Flush;
  mret {| header := header d; records := recs |}.

Definition report (n : nat) (f : flags) (conf dead recov : data) : run unit :=
  _ ← globe_block conf dead recov;
  '(conf, dead, recov) ←
    (if decide (fcountry f ≠ "")
     then country_block f conf dead recov
     else mret (conf, dead, recov));
  _ ← (if ftopc f
       then top_block n "Top 10 countries by most confirmed cases" conf
       else mret conf);
  _ ← (if ftopd f
       then top_block n "Top 10 countries by most dead cases" dead
       else mret dead);
  _ ← (if ftopr f
       then top_block n "Top 10 countries by most recovered cases" recov
       else mret recov);
  mret tt.
End report.

(** The world in which the report starts. *)
Definition start (h : heap) : world :=
  {| stdout := []; pending := []; store := h |}.

(** Notions used to state the properties of the report: a dataset that
    the Globe block can print, datasets without shared arrays, the two
    numbers of a [printCases] line, and the lines of the Globe block. *)
Definition ready (h : heap) (L : nat) (d : data) : Prop :=
  wf h L (records d) ∧ Forall (λ r, country r ≠ "") (records d) ∧
  records d ≠ [] ∧ (2 ≤ L)%nat.

Definition separate (d1 d2 : data) : Prop :=
  ∀ l, l ∈ locs (records d1) → l ∉ locs (records d2).

Definition has_match {fld : Folding} (d : data) (c : string) : Prop :=
  ∃ r, r ∈ records d ∧ EqualFold (country r) c = true.

Definition totals (h : heap) (L : nat) (recs : list record) : Z * Z :=
  (wrap (zsum (column h (Z.of_nat L - 1) recs)),
   wrap (zsum (column h (Z.of_nat L - 1) recs)
         - zsum (column h (Z.of_nat L - 2) recs))).

Definition cases_line (t : string) (p : Z * Z) : line := Cases t p.1 p.2.

Definition globe_lines (h : heap) (Lc Ld Lr : nat) (conf dead recov : data)
  : list line :=
  [Title "Globe";
   cases_line "Confirmed" (totals h Lc (records conf));
   cases_line "Dead" (totals h Ld (records dead));
   cases_line "Recovered" (totals h Lr (records recov))].

Definition row_line (row : nat * string * Z) : line :=
  Row row.1.1 row.1.2 row.2.
(** Three datasets in one store for the report: the sample for the
    confirmed cases, and two smaller ones. *)
Definition sample_dead : data :=
  {| header := sample_header;
     records := [region "" "Country B" 3; region "East" "Country A" 4] |}.

Definition sample_recov : data :=
  {| header := sample_header; records := [region "East" "Country A" 5] |}.

Definition report_heap : heap :=
  sample_heap ++ [[0; 0; 0]; [0; 1; 1]; [1; 1; 2]]%Z.

Definition sample_flags (c : string) (graph top : bool) : flags :=
  {| fcountry := c; fgraph := graph; ftopc := top; ftopd := false;
     ftopr := false |}.

(** ** Wrap-around arithmetic *)

Lemma wrap_id z : is_int z → wrap z = z.
Proof.
  unfold is_int, int_min, int_max, wrap. intros Hz.
  rewrite Z.mod_small by lia. lia.
Qed.

Lemma wrap_is_int z : is_int (wrap z).
Proof.
  unfold is_int, int_min, int_max, wrap.
  pose proof (Z.mod_pos_bound (z + 2 ^ 63) (2 ^ 64)). lia.
Qed.

Lemma wrap_add_l a b : wrap (wrap a + b) = wrap (a + b).
Proof.
  unfold wrap. f_equal.
  replace ((a + 2 ^ 63) mod 2 ^ 64 - 2 ^ 63 + b + 2 ^ 63)
    with ((a + 2 ^ 63) mod 2 ^ 64 + b) by lia.
  rewrite Zplus_mod_idemp_l. f_equal. lia.
Qed.

Lemma wrap_add_r a b : wrap (a + wrap b) = wrap (a + b).
Proof. rewrite (Z.add_comm a), wrap_add_l. f_equal. lia. Qed.

Lemma wrap_wrap a : wrap (wrap a) = wrap a.
Proof. apply wrap_id, wrap_is_int. Qed.

(** ** The order of Go strings *)

Lemma ascii_compare_lt_trans a b c :
  Ascii.compare a b = Lt → Ascii.compare b c = Lt → Ascii.compare a c = Lt.
Proof.
  unfold Ascii.compare. rewrite !N.compare_lt_iff. lia.
Qed.

Lemma ascii_compare_refl a : Ascii.compare a a = Eq.
Proof. unfold Ascii.compare. apply N.compare_refl. Qed.

Lemma string_compare_refl s : String.compare s s = Eq.
Proof. induction s as [|a s IH]; simpl; [done|]. by rewrite ascii_compare_refl. Qed.

Lemma string_compare_lt_trans s t u :
  String.compare s t = Lt → String.compare t u = Lt → String.compare s u = Lt.
Proof.
  revert t u. induction s as [|a s IH]; intros [|b t] [|c u]; simpl; try done.
  destruct (Ascii.compare a b) eqn:Hab; try done;
    destruct (Ascii.compare b c) eqn:Hbc; try done; intros H1 H2.
  - apply Ascii.compare_eq_iff in Hab, Hbc. subst.
    rewrite ascii_compare_refl. eauto.
  - apply Ascii.compare_eq_iff in Hab. subst. by rewrite Hbc.
  - apply Ascii.compare_eq_iff in Hbc. subst. by rewrite Hab.
  - by rewrite (ascii_compare_lt_trans _ _ _ Hab Hbc).
Qed.

Lemma string_ltb_lt s t : String.ltb s t = true ↔ String.compare s t = Lt.
Proof. unfold String.ltb. destruct (String.compare s t); naive_solver. Qed.

Lemma string_ltb_irrefl s : String.ltb s s = false.
Proof. unfold String.ltb. by rewrite string_compare_refl. Qed.

Lemma string_ltb_trans s t u :
  String.ltb s t = true → String.ltb t u = true → String.ltb s u = true.
Proof. rewrite !string_ltb_lt. apply string_compare_lt_trans. Qed.

Lemma string_ltb_total s t :
  String.ltb s t = false → String.ltb t s = false → s = t.
Proof.
  unfold String.ltb. rewrite (String.compare_antisym t s).
  destruct (String.compare s t) eqn:H; simpl; try done.
  intros _ _. by apply String.compare_eq_iff.
Qed.

Lemma string_ltb_asym s t : String.ltb s t = true → String.ltb t s = false.
Proof.
  unfold String.ltb. rewrite (String.compare_antisym t s).
  by destruct (String.compare s t).
Qed.

Lemma string_ltb_incomp s t u :
  String.ltb s t = false → String.ltb t u = false → String.ltb s u = false.
Proof.
  intros Hst Htu. destruct (String.ltb s u) eqn:Hsu; [|done].
  destruct (String.ltb t s) eqn:Hts.
  - by rewrite (string_ltb_trans _ _ _ Hts Hsu) in Htu.
  - assert (s = t) as -> by by apply string_ltb_total. congruence.
Qed.

Lemma string_ltb_empty s : String.ltb s "" = false.
Proof. by destruct s. Qed.

Lemma strict_weak_key {A B : Type} (lt : B → B → bool) (key : A → B) :
  strict_weak lt → strict_weak (λ a b, lt (key a) (key b)).
Proof. intros [H1 H2 H3]. split; eauto. Qed.

Lemma strict_weak_ltb : strict_weak String.ltb.
Proof.
  split; [apply string_ltb_irrefl|apply string_ltb_trans|apply string_ltb_incomp].
Qed.

Lemma strict_weak_Zgt : strict_weak (λ x y : Z, (y <? x)%Z).
Proof. split; intros *; rewrite ?Z.ltb_lt, ?Z.ltb_ge; lia. Qed.

(** ** Loops *)

Lemma foldlM_app {A B} (f : B → A → option B) b l1 l2 :
  foldlM f b (l1 ++ l2) = foldlM f b l1 ≫= λ b', foldlM f b' l2.
Proof.
  revert b. induction l1 as [|a l1 IH]; intros b; simpl; [done|].
  destruct (f b a); simpl; [apply IH|done].
Qed.

Lemma foldlM_snoc {A B} (f : B → A → option B) b l a :
  foldlM f b (l ++ [a]) = foldlM f b l ≫= λ b', f b' a.
Proof.
  rewrite foldlM_app. destruct (foldlM f b l); simpl; [|done].
  by destruct (f _ a).
Qed.

(** ** Insertion sort meets the contract of [sort.Slice] *)

Lemma insert_by_perm {A} (less : A → A → bool) x l :
  insert_by less x l ≡ₚ x :: l.
Proof.
  induction l as [|y l IH]; simpl; [done|].
  destruct (less y x); [|done]. rewrite IH. apply Permutation_swap.
Qed.

Lemma insert_by_sorted {A} (less : A → A → bool) x l :
  strict_weak less → sorted_by less l → sorted_by less (insert_by less x l).
Proof.
  intros [Hirr Htr Hinc]. unfold sorted_by.
  induction l as [|y l IH]; simpl; intros Hl.
  { repeat constructor. }
  apply StronglySorted_inv in Hl as [Hl Hy].
  destruct (less y x) eqn:Hyx.
  - constructor; [by apply IH|].
    rewrite insert_by_perm. constructor; [|done].
    destruct (less x y) eqn:Hxy; [|done].
    by rewrite <-(Hirr y), (Htr y x y).
  - constructor; [by constructor|]. constructor; [done|].
    eapply Forall_impl; [exact Hy|]. simpl. eauto.
Qed.

Lemma insertion_sort_ok : SliceSortOk insertion_sort.
Proof.
  split.
  - intros A less l. unfold sort_Slice, insertion_sort.
    induction l as [|x l IH]; simpl; [done|].
    by rewrite insert_by_perm, IH.
  - intros A less l Hless. unfold sort_Slice, insertion_sort.
    induction l as [|x l IH]; simpl; [constructor|].
    by apply insert_by_sorted.
Qed.

(** ** Reading and writing *)

Lemma index_nat {A} (v : list A) (i : nat) : index v (Z.of_nat i) = v !! i.
Proof.
  unfold index. destruct (Z.ltb_spec (Z.of_nat i) 0); [lia|].
  by rewrite Nat2Z.id.
Qed.

Lemma index_Some {A} (v : list A) i x :
  index v i = Some x ↔ (0 ≤ i)%Z ∧ v !! Z.to_nat i = Some x.
Proof.
  unfold index. destruct (Z.ltb_spec i 0); split.
  - done.
  - intros [??]. lia.
  - done.
  - by intros [??].
Qed.

Lemma index_last {A} (v : list A) x :
  index (v ++ [x]) (Z.of_nat (length (v ++ [x])) - 1) = Some x.
Proof.
  rewrite length_app. simpl.
  replace (Z.of_nat (length v + 1) - 1)%Z with (Z.of_nat (length v)) by lia.
  rewrite index_nat. by rewrite list_lookup_middle.
Qed.

Lemma write_spec h s i x v :
  load h s = Some v → (0 ≤ i < Z.of_nat (length v))%Z →
  ∃ h', write h s i x = Some h' ∧
        load h' s = Some (<[Z.to_nat i := x]> v) ∧
        length h' = length h ∧
        ∀ s', s' ≠ s → load h' s' = load h s'.
Proof.
  destruct s as [|l]; simpl; intros Hv Hi.
  { simplify_eq. simpl in Hi. lia. }
  rewrite Hv. simpl. rewrite decide_True by done.
  eexists. split; [done|]. split; [|split].
  - apply list_lookup_insert_eq. by eapply lookup_lt_Some.
  - apply length_insert.
  - intros [|l'] Hne; simpl; [done|].
    apply list_lookup_insert_ne. congruence.
Qed.

(** The inner loop of [reduce] adds [src] into [rs[l].cases], entry by
    entry, when the two are different arrays. *)
Lemma add_cases_range rs l r1 src vs :
  index rs l = Some r1 →
  ∀ n j h vd,
    (n = 0 ∨ cases r1 ≠ src)%nat →
    load h (cases r1) = Some vd → load h src = Some vs →
    (j + n ≤ length vs)%nat → (j + n ≤ length vd)%nat →
    ∃ h' vd', Data.add_cases h rs l src j n = Some h' ∧
      load h' (cases r1) = Some vd' ∧
      length vd' = length vd ∧
      length h' = length h ∧
      (∀ s, s ≠ cases r1 → load h' s = load h s) ∧
      (∀ i y x, (j ≤ i < j + n)%nat → vd !! i = Some y → vs !! i = Some x →
                vd' !! i = Some (addw y x)) ∧
      (∀ i, ¬ (j ≤ i < j + n)%nat → vd' !! i = vd !! i).
Proof.
  intros Hl. induction n as [|n IH]; intros j h vd Hsep Hvd Hvs Hjs Hjd; simpl.
  { exists h, vd. repeat split; try done. intros; lia. }
  destruct Hsep as [|Hsep]; [done|].
  rewrite Hl. simpl. unfold read. rewrite Hvs, Hvd. simpl.
  rewrite !index_nat.
  destruct (lookup_lt_is_Some_2 vs j) as [x Hx]; [lia|].
  destruct (lookup_lt_is_Some_2 vd j) as [y Hy]; [lia|].
  rewrite Hx, Hy. simpl.
  destruct (write_spec h (cases r1) (Z.of_nat j) (addw y x) vd)
    as (h1 & Hw & Hload & Hlen & Hframe); [done|lia|].
  rewrite Hw. simpl. rewrite Nat2Z.id in Hload.
  destruct (IH (S j) h1 (<[j:=addw y x]> vd)) as (h' & vd' & Hrun & Hd' & Hlen' & Hh' & Hfr' & Hin & Hout).
  - by right.
  - done.
  - rewrite Hframe; [done|congruence].
  - lia.
  - rewrite length_insert. lia.
  - exists h', vd'. split; [done|]. split; [done|].
    split; [by rewrite Hlen', length_insert|].
    split; [congruence|]. split; [|split].
    + intros s Hs. rewrite Hfr', Hframe; done.
    + intros i y' x' Hi Hy' Hx'. destruct (decide (i = j)) as [->|Hne].
      * rewrite Hout by lia. simplify_eq.
        apply list_lookup_insert_eq. by eapply lookup_lt_Some.
      * apply Hin; [lia| |done]. by rewrite list_lookup_insert_ne.
    + intros i Hi. rewrite Hout by lia. apply list_lookup_insert_ne. lia.
Qed.

Lemma add_cases_all rs l r1 src vs h vd :
  index rs l = Some r1 →
  (length vs = 0 ∨ cases r1 ≠ src)%nat →
  load h (cases r1) = Some vd → load h src = Some vs →
  length vd = length vs →
  ∃ h', Data.add_cases h rs l src 0 (length vs) = Some h' ∧
    load h' (cases r1) = Some (zip_with addw vd vs) ∧
    length h' = length h ∧
    (∀ s, s ≠ cases r1 → load h' s = load h s).
Proof.
  intros Hl Hsep Hvd Hvs Hlen.
  destruct (add_cases_range rs l r1 src vs Hl (length vs) 0%nat h vd)
    as (h' & vd' & Hrun & Hd' & Hlen' & Hh' & Hfr & Hin & Hout);
    [done..|simpl; lia|].
  exists h'. repeat split; try done.
  rewrite Hd'. f_equal. apply list_eq. intros i.
  rewrite lookup_zip_with.
  destruct (decide (i < length vs)%nat) as [Hi|Hi].
  - destruct (lookup_lt_is_Some_2 vs i) as [x Hx]; [lia|].
    destruct (lookup_lt_is_Some_2 vd i) as [y Hy]; [lia|].
    rewrite Hy, Hx. simpl. apply (Hin i y x); [lia|done..].
  - rewrite Hout by lia.
    rewrite (lookup_ge_None_2 vd) by lia. done.
Qed.

(** ** Element-wise sums *)

Lemma length_vsum L vs :
  Forall (λ v, length v = L) vs → length (vsum L vs) = L.
Proof.
  unfold vsum. induction 1 as [|v vs Hv _ IH]; simpl.
  - by rewrite length_replicate.
  - rewrite length_zip_with. lia.
Qed.

Lemma zip_add_zero L v : length v = L → zip_with Z.add v (replicate L 0%Z) = v.
Proof.
  intros <-. induction v as [|x v IH]; simpl; [done|].
  rewrite IH. f_equal. lia.
Qed.

Lemma zip_add_comm (u v : list Z) : zip_with Z.add u v = zip_with Z.add v u.
Proof.
  revert v. induction u as [|x u IH]; intros [|y v]; simpl; try done.
  rewrite IH. f_equal. lia.
Qed.

Lemma zip_add_assoc (u v w : list Z) :
  zip_with Z.add u (zip_with Z.add v w) = zip_with Z.add (zip_with Z.add u v) w.
Proof.
  revert v w. induction u as [|x u IH]; intros [|y v] [|z w]; simpl; try done.
  rewrite IH. f_equal. lia.
Qed.

Lemma vsum_snoc L vs v :
  vsum L (vs ++ [v]) = zip_with Z.add (vsum L vs) v.
Proof.
  unfold vsum. rewrite foldr_app. simpl.
  induction vs as [|u vs IH]; simpl.
  - apply zip_add_comm.
  - rewrite IH. apply zip_add_assoc.
Qed.

Lemma vsum_perm L vs1 vs2 : vs1 ≡ₚ vs2 → vsum L vs1 = vsum L vs2.
Proof.
  intros Hp. unfold vsum.
  apply (foldr_permutation (=) (zip_with Z.add) (replicate L 0%Z) vs1 vs2).
  - intros _ a1 _ a2 b _ _ _.
    rewrite !zip_add_assoc. f_equal. apply zip_add_comm.
  - done.
Qed.

Lemma vsum_lookup L vs j :
  Forall (λ v, length v = L) vs → (j < L)%nat →
  vsum L vs !! j = Some (zsum ((λ v, default 0%Z (v !! j)) <$> vs)).
Proof.
  intros Hvs Hj. induction Hvs as [|v vs Hv Hvs IH]; csimpl.
  - unfold vsum. simpl. by rewrite lookup_replicate_2.
  - unfold vsum in *. csimpl. rewrite lookup_zip_with, IH.
    destruct (lookup_lt_is_Some_2 v j) as [x Hx]; [lia|].
    by rewrite Hx.
Qed.

Lemma zip_addw_wrap (u v : list Z) :
  zip_with addw (wrap <$> u) v = wrap <$> zip_with Z.add u v.
Proof.
  revert v. induction u as [|x u IH]; intros [|y v]; csimpl; try done.
  rewrite IH. f_equal. apply wrap_add_l.
Qed.

Lemma fmap_wrap_id v : Forall is_int v → wrap <$> v = v.
Proof.
  induction 1 as [|x v Hx _ IH]; csimpl; [done|].
  by rewrite IH, wrap_id.
Qed.

Lemma wrap_zsum_wrap (l : list Z) : wrap (zsum (wrap <$> l)) = wrap (zsum l).
Proof.
  unfold zsum. induction l as [|x l IH]; csimpl; [done|].
  by rewrite wrap_add_l, <-wrap_add_r, IH, wrap_add_r.
Qed.

(** ** The records that [reduce] keeps *)

Lemma heads_snoc P r : heads (P ++ [r]) = heads_step (heads P) r.
Proof. unfold heads. by rewrite foldl_snoc. Qed.

(** The loop of [reduce], when it does not panic, builds [rs] and [c] as
    [heads] does. *)
Lemma loop_heads P : ∀ rs c h rs' c' h',
  foldlM Data.reduce_step (rs, c, h) P = Some (rs', c', h') →
  foldl heads_step (rs, c) P = (rs', c').
Proof.
  induction P as [|r P IH]; intros rs c h rs' c' h'; simpl.
  { by intros [= -> -> ->]. }
  unfold heads_step at 2. simpl. destruct (decide (country r ≠ c)); simpl.
  - apply IH.
  - destruct (load h (cases r)) as [v|]; simpl; [|done].
    destruct (Data.add_cases _ _ _ _ _ _) as [h1|]; simpl; [|done].
    apply IH.
Qed.

Lemma country_less_irrefl a : country_less a a = false.
Proof. apply string_ltb_irrefl. Qed.

Lemma strict_weak_country : strict_weak country_less.
Proof. apply (strict_weak_key String.ltb country), strict_weak_ltb. Qed.

Lemma increasing_inj rs x y :
  increasing rs → x ∈ rs → y ∈ rs → country x = country y → x = y.
Proof.
  unfold increasing. induction 1 as [|z rs Hrs IH Hz]; intros Hx Hy Hc.
  { by apply elem_of_nil in Hx. }
  rewrite Forall_forall in Hz.
  apply elem_of_cons in Hx as [->|Hx], Hy as [->|Hy]; [done| | |by apply IH].
  - apply Hz in Hy. unfold country_less in Hy.
    rewrite Hc, string_ltb_irrefl in Hy. done.
  - apply Hz in Hx. unfold country_less in Hx.
    rewrite Hc, string_ltb_irrefl in Hx. done.
Qed.

Lemma increasing_sorted rs : increasing rs → sorted_by country_less rs.
Proof.
  unfold increasing, sorted_by. induction 1 as [|z rs Hrs IH Hz]; constructor; [done|].
  eapply Forall_impl; [exact Hz|]. simpl. intros y. apply string_ltb_asym.
Qed.

Lemma increasing_NoDup rs : increasing rs → NoDup (country <$> rs).
Proof.
  unfold increasing. induction 1 as [|z rs Hrs IH Hz]; csimpl; constructor; [|done].
  rewrite list_elem_of_fmap. intros (y & Hc & Hy).
  rewrite Forall_forall in Hz. apply Hz in Hy. unfold country_less in Hy.
  rewrite Hc, string_ltb_irrefl in Hy. done.
Qed.

Lemma heads_sorted P :
  sorted_by country_less P → heads_inv P (heads P).1 (heads P).2.
Proof.
  induction P as [|r P IH] using rev_ind; intros HP.
  { split; simpl; try done; try constructor.
    - intros y Hy. by apply elem_of_nil in Hy.
    - intros x Hx. by apply elem_of_nil in Hx.
    - intros x Hx. by apply elem_of_nil in Hx. }
  apply StronglySorted_app in HP as (Hle & HP & _).
  specialize (IH HP). rewrite heads_snoc.
  destruct (heads P) as [rs c]. simpl in IH. destruct IH.
  assert (∀ y, y ∈ P → String.ltb (country r) (country y) = false) as Hr.
  { intros y Hy. apply (Hle y r); [done|]. apply list_elem_of_singleton. done. }
  assert (∀ y, y ∈ P ++ [r] → String.ltb (country r) (country y) = false) as Hr'.
  { intros y [Hy| ->%list_elem_of_singleton]%elem_of_app; [by apply Hr|].
    apply string_ltb_irrefl. }
  unfold heads_step. simpl. destruct (decide (country r ≠ c)) as [Hne|Heq]; simpl.
  - assert (String.ltb c (country r) = true) as Hlt.
    { destruct (String.ltb c (country r)) eqn:E; [done|]. destruct Hne.
      apply string_ltb_total; [|done].
      rewrite hi_last0. destruct (last P) as [p|] eqn:Hp; simpl.
      - apply Hr. by eapply last_Some_elem_of.
      - apply string_ltb_empty. }
    assert (∀ y, y ∈ P → String.ltb (country y) (country r) = true) as Hbelow.
    { intros y Hy. destruct (String.ltb (country y) (country r)) eqn:E; [done|].
      by rewrite (string_ltb_incomp _ _ _ (hi_max0 y Hy) E) in Hlt. }
    split; simpl.
    + by rewrite last_snoc.
    + by rewrite last_snoc.
    + exact Hr'.
    + apply StronglySorted_app. split; [|split; [done|repeat constructor]].
      intros x1 x2 Hx1 ->%list_elem_of_singleton.
      apply Hbelow. by eapply elem_of_sublist.
    + apply Forall_app. split; [done|]. constructor; [|done].
      intros E. by rewrite E, string_ltb_empty in Hlt.
    + by apply sublist_app.
    + intros x [Hx| ->%list_elem_of_singleton]%elem_of_app Hnamed.
      * destruct (hi_cover0 x Hx Hnamed) as (y & Hy & Hc).
        exists y. split; [|done]. apply elem_of_app. by left.
      * exists r. split; [|done]. apply elem_of_app. right.
        by apply list_elem_of_singleton.
    + intros y [Hy| ->%list_elem_of_singleton]%elem_of_app.
      * destruct (hi_first0 y Hy) as (P1 & P2 & -> & HP1).
        exists P1, (P2 ++ [r]). by rewrite <-app_assoc.
      * exists P, []. split; [done|]. intros x Hx E.
        specialize (Hbelow x Hx). by rewrite E, string_ltb_irrefl in Hbelow.
  - apply dec_stable in Heq. split; simpl.
    + by rewrite last_snoc.
    + done.
    + intros y Hy. rewrite <-Heq. by apply Hr'.
    + done.
    + done.
    + by apply sublist_inserts_r.
    + intros x [Hx| ->%list_elem_of_singleton]%elem_of_app Hnamed.
      * by apply hi_cover0.
      * destruct (last rs) as [y|] eqn:Hy; simpl in *; [|congruence].
        exists y. split; [|congruence]. by eapply last_Some_elem_of.
    + intros y Hy. destruct (hi_first0 y Hy) as (P1 & P2 & -> & HP1).
      exists P1, (P2 ++ [r]). by rewrite <-app_assoc.
Qed.

(** On a slice with strictly increasing, non-empty country names the loop
    keeps every record. *)
Lemma heads_increasing rs :
  increasing rs → Forall (λ r, country r ≠ "") rs →
  heads rs = (rs, default "" (country <$> last rs)).
Proof.
  induction rs as [|r rs IH] using rev_ind; intros Hinc Hnamed; [done|].
  apply StronglySorted_app in Hinc as (Hlt & Hinc & _).
  apply Forall_app in Hnamed as [Hnamed Hr%Forall_inv].
  rewrite heads_snoc, IH by done. unfold heads_step. simpl.
  rewrite last_snoc. simpl. rewrite decide_True; [done|].
  destruct (last rs) as [y|] eqn:Hy; simpl; [|done].
  intros E. specialize (Hlt y r). unfold country_less in Hlt.
  rewrite E, string_ltb_irrefl in Hlt. discriminate Hlt.
  - by eapply last_Some_elem_of.
  - by apply list_elem_of_singleton.
Qed.

(** A slice with strictly increasing country names is the only sorted
    arrangement of its records. *)
Lemma increasing_sorted_unique rs l :
  increasing rs → sorted_by country_less l → l ≡ₚ rs → l = rs.
Proof.
  intros Hinc Hl Hp. symmetry.
  apply (StronglySorted_unique_strong (λ a b, country_less b a = false));
    [|by apply increasing_sorted|done|done].
  intros x1 x2 Hx1 Hx2 H12 H21.
  apply (increasing_inj rs); [done..|by rewrite <-Hp|].
  by apply string_ltb_total.
Qed.

(** ** Well-formed records *)

Lemma has_cases_load h L r :
  has_cases h L r ↔
  ∃ v, load h (cases r) = Some v ∧ length v = L ∧ Forall is_int v.
Proof.
  unfold has_cases. destruct (load h (cases r)) as [v|]; split.
  - intros [??]. by exists v.
  - by intros (? & [= <-] & ? & ?).
  - done.
  - by intros (? & ? & _).
Qed.

Lemma has_cases_of h L r :
  has_cases h L r → load h (cases r) = Some (cases_of h r) ∧
                    length (cases_of h r) = L ∧ Forall is_int (cases_of h r).
Proof.
  intros (v & Hv & ? & ?)%has_cases_load. unfold cases_of. by rewrite Hv.
Qed.

Lemma wf_perm h L recs recs' : recs ≡ₚ recs' → wf h L recs → wf h L recs'.
Proof.
  unfold wf, locs. intros Hp [??]. by rewrite <-Hp.
Qed.

Lemma wf_app h L P Q : wf h L (P ++ Q) → wf h L P.
Proof.
  unfold wf, locs. rewrite Forall_app, omap_app.
  intros [[HP _] (Hnd & _ & _)%NoDup_app]. done.
Qed.

Lemma elem_of_locs recs l : l ∈ locs recs ↔ ∃ r, r ∈ recs ∧ cases r = Arr l.
Proof.
  unfold locs. rewrite list_elem_of_omap. unfold arr_loc.
  split; intros (r & Hr & Hc); exists r; (split; [done|]);
    destruct (cases r); naive_solver.
Qed.

Lemma locs_sublist rs P : rs `sublist_of` P → locs rs `sublist_of` locs P.
Proof.
  unfold locs. induction 1 as [|x l1 l2 _ IH|x l1 l2 _ IH]; simpl.
  - constructor.
  - destruct (arr_loc x); [by constructor|done].
  - destruct (arr_loc x); [by constructor|done].
Qed.

Lemma locs_inj rs x y :
  NoDup (locs rs) → x ∈ rs → y ∈ rs → cases x = cases y →
  cases x = Nil ∨ x = y.
Proof.
  induction rs as [|z rs IH]; intros Hnd Hx Hy Hc.
  { by apply elem_of_nil in Hx. }
  assert (NoDup (locs rs)) as Hnd'.
  { apply (sublist_NoDup _ (locs (z :: rs))); [done|].
    apply locs_sublist. by constructor. }
  assert (∀ w l, w ∈ rs → cases z = Arr l → cases w ≠ Arr l) as Hfresh.
  { intros w l Hw Hz Hwl. unfold locs in Hnd. simpl in Hnd.
    unfold arr_loc at 1 in Hnd. rewrite Hz in Hnd.
    apply NoDup_cons in Hnd as [Hnd _]. apply Hnd, elem_of_locs. eauto. }
  apply elem_of_cons in Hx as [->|Hx], Hy as [->|Hy].
  - by right.
  - destruct (cases z) as [|l] eqn:Hz; [by left|].
    by destruct (Hfresh y l).
  - destruct (cases z) as [|l] eqn:Hz; [by left|].
    by destruct (Hfresh x l).
  - by apply IH.
Qed.

(** A record that is not yet in the slice has an array that no record of
    the slice uses. *)
Lemma wf_snoc_fresh h L P r y :
  wf h L (P ++ [r]) → y ∈ P → cases r = Nil ∨ cases y ≠ cases r.
Proof.
  intros [_ Hnd] Hy. destruct (cases r) as [|l] eqn:Hr; [by left|right].
  intros Hyl. unfold locs in Hnd. rewrite omap_app in Hnd. simpl in Hnd.
  unfold arr_loc at 2 in Hnd. rewrite Hr in Hnd.
  apply NoDup_app in Hnd as (_ & Hnd & _). apply (Hnd l).
  - apply elem_of_locs. eauto.
  - by apply list_elem_of_singleton.
Qed.

Lemma load_Nil h s : s = Nil → load h s = Some [].
Proof. by intros ->. Qed.

(** ** The sums of a country *)

Lemma group_snoc c P r :
  group c (P ++ [r]) = group c P ++ (if decide (country r = c) then [r] else []).
Proof.
  unfold group. by rewrite filter_app.
Qed.

Lemma group_perm c recs recs' : recs ≡ₚ recs' → group c recs ≡ₚ group c recs'.
Proof. unfold group. by intros ->. Qed.

Lemma group_empty c P : (∀ x, x ∈ P → country x ≠ c) → group c P = [].
Proof.
  intros H. unfold group. induction P as [|x P IH]; [done|].
  rewrite filter_cons, decide_False.
  - apply IH. intros y Hy. apply H. by right.
  - apply H. by left.
Qed.

Lemma country_total_perm h L c recs recs' :
  recs ≡ₚ recs' → country_total h L c recs = country_total h L c recs'.
Proof.
  intros Hp. unfold country_total. f_equal. apply vsum_perm.
  by rewrite (group_perm c _ _ Hp).
Qed.

Lemma length_country_total h L c recs :
  wf h L recs → length (country_total h L c recs) = L.
Proof.
  intros [Hwf _]. unfold country_total. rewrite length_fmap.
  apply length_vsum. rewrite Forall_fmap. unfold group.
  apply Forall_forall. intros r Hr%list_elem_of_filter.
  rewrite Forall_forall in Hwf. destruct Hr as [_ Hr].
  by destruct (has_cases_of h L r (Hwf r Hr)) as (_ & ? & _).
Qed.

Lemma country_total_single h L r P :
  has_cases h L r → (∀ x, x ∈ P → country x ≠ country r) →
  country_total h L (country r) (P ++ [r]) = cases_of h r.
Proof.
  intros (Hv & Hlen & Hint)%has_cases_of Hnew. unfold country_total.
  rewrite group_snoc, decide_True, group_empty by done. simpl.
  unfold vsum. simpl. rewrite zip_add_zero by done. by apply fmap_wrap_id.
Qed.

Lemma country_total_snoc h L r P :
  country_total h L (country r) (P ++ [r]) =
  zip_with addw (country_total h L (country r) P) (cases_of h r).
Proof.
  unfold country_total. rewrite group_snoc, decide_True by done.
  rewrite fmap_app. change (cases_of h <$> [r]) with [cases_of h r].
  by rewrite vsum_snoc, zip_addw_wrap.
Qed.

Lemma country_total_other h L c r P :
  country r ≠ c → country_total h L c (P ++ [r]) = country_total h L c P.
Proof.
  intros Hne. unfold country_total.
  by rewrite group_snoc, decide_False, app_nil_r.
Qed.

(** ** The loop of [reduce] *)

Lemma reduce_loop h0 L P :
  sorted_by country_less P → wf h0 L P → Forall (λ r, country r ≠ "") P →
  ∃ h, loop_inv h0 L P h.
Proof.
  induction P as [|r P IH] using rev_ind; intros Hsorted Hwf Hnamed.
  { exists h0. split; try done. intros r Hr. by apply elem_of_nil in Hr. }
  pose proof (heads_sorted _ Hsorted) as HI'.
  pose proof Hsorted as (_ & HsortedP & _)%StronglySorted_app.
  pose proof Hnamed as [HnamedP Hr%Forall_inv]%Forall_app.
  pose proof (heads_sorted _ HsortedP) as HI.
  destruct (IH HsortedP (wf_app _ _ _ _ Hwf) HnamedP) as [h [Hrun Hlen Htot Hfr]].
  pose proof Hwf as [[_ Hhr%Forall_inv]%Forall_app _].
  destruct (has_cases_of _ _ _ Hhr) as (Hload0 & Hlenr & Hintr).
  rewrite heads_snoc in HI'. revert HI'.
  destruct (heads P) as [rs c] eqn:Hheads. simpl in *.
  destruct HI as [Hclast Hlastrs Hmax Hincr Hnamedrs Hsub Hcover Hfirst].
  (* the new record's array is still as in [h0] *)
  assert (load h (cases r) = Some (cases_of h0 r)) as Hloadr.
  { rewrite <-Hload0. destruct (cases r) as [|l] eqn:Hc; [done|].
    apply Hfr. rewrite list_elem_of_fmap. intros (y & Hy & Hyrs).
    destruct (wf_snoc_fresh _ _ _ _ y Hwf) as [?|Hne]; [|congruence|].
    - by eapply elem_of_sublist.
    - apply Hne. congruence. }
  unfold heads_step. simpl. destruct (decide (country r ≠ c)) as [Hne|Heq]; simpl; intros HI'.
  - (* a new country *)
    destruct HI' as [_ _ _ (Hlt & _ & _)%StronglySorted_app _ _ _ _].
    assert (∀ y, y ∈ rs → country y ≠ country r) as Hrs.
    { intros y Hy E. specialize (Hlt y r Hy). unfold country_less in Hlt.
      rewrite E, string_ltb_irrefl in Hlt. discriminate Hlt.
      by apply list_elem_of_singleton. }
    assert (∀ x, x ∈ P → country x ≠ country r) as Hnew.
    { intros x Hx E. rewrite Forall_forall in HnamedP.
      destruct (Hcover x Hx (HnamedP x Hx)) as (y & Hy & Hcy).
      apply (Hrs y Hy). congruence. }
    exists h. split; simpl.
    + rewrite foldlM_snoc, Hrun. simpl. rewrite heads_snoc, Hheads.
      unfold heads_step. simpl. by rewrite !decide_True by done.
    + done.
    + rewrite heads_snoc, Hheads. unfold heads_step. simpl.
      rewrite decide_True by done. simpl.
      intros y [Hy| ->%list_elem_of_singleton]%elem_of_app.
      * rewrite country_total_other; [by apply Htot|]. intros E. by apply (Hrs y).
      * by rewrite country_total_single.
    + rewrite heads_snoc, Hheads. unfold heads_step. simpl.
      rewrite decide_True by done. simpl.
      intros s Hs. apply Hfr. intros Hin. apply Hs.
      rewrite fmap_app. apply elem_of_app. by left.
  - (* one more record of the country of [rs[len(rs)-1]] *)
    apply dec_stable in Heq.
    destruct (last rs) as [r1|] eqn:Hlast; simpl in *; [|congruence].
    pose proof Hlast as [rs' ->]%last_Some.
    assert (r1 ∈ rs' ++ [r1]) as Hr1.
    { apply elem_of_app. right. by apply list_elem_of_singleton. }
    pose proof (Htot r1 Hr1) as Hload1.
    destruct (add_cases_all (rs' ++ [r1]) (Z.of_nat (length (rs' ++ [r1])) - 1)
                r1 (cases r) (cases_of h0 r) h
                (country_total h0 L (country r1) P))
      as (h' & Hadd & Hload' & Hlen' & Hfr').
    + apply index_last.
    + destruct (wf_snoc_fresh _ _ _ _ r1 Hwf) as [Hnil|Hdiff].
      * by eapply elem_of_sublist.
      * left. rewrite (load_Nil h0 _ Hnil) in Hload0.
        injection Hload0 as <-. done.
      * by right.
    + done.
    + done.
    + rewrite Hlenr. apply length_country_total. by eapply wf_app.
    + exists h'. split; simpl.
      * rewrite foldlM_snoc, Hrun. simpl. rewrite decide_False by (intros ?; congruence).
        rewrite Hloadr. simpl. rewrite Hadd. simpl.
        rewrite heads_snoc, Hheads. unfold heads_step. simpl.
        rewrite decide_False by (intros ?; congruence). done.
      * congruence.
      * rewrite heads_snoc, Hheads. unfold heads_step. simpl.
        rewrite decide_False by (intros ?; congruence). simpl.
        intros y Hy. destruct (decide (country y = country r)) as [E|E].
        -- assert (y = r1) as -> by (apply (increasing_inj (rs' ++ [r1])); congruence).
           rewrite E, country_total_snoc, <-E. done.
        -- rewrite country_total_other by congruence.
           rewrite <-(Htot y Hy).
           destruct (decide (cases y = cases r1)) as [Hsame|Hdiff];
             [|by apply Hfr'].
           destruct (locs_inj (rs' ++ [r1]) y r1) as [Hnil| ->];
             [|done..| |congruence].
           ++ apply (sublist_NoDup _ (locs P)); [|by apply locs_sublist].
              by destruct (wf_app _ _ _ _ Hwf).
           ++ by rewrite !(load_Nil _ _ Hnil).
      * rewrite heads_snoc, Hheads. unfold heads_step. simpl.
        rewrite decide_False by (intros ?; congruence). simpl.
        intros s Hs. rewrite Hfr'; [by apply Hfr|].
        intros ->. apply Hs. rewrite list_elem_of_fmap. eauto.
Qed.

(** ** [reduce] *)

(** Writing through a slice changes no length. *)
Lemma write_lengths h s i x h' :
  write h s i x = Some h' →
  length h' = length h ∧ ∀ s', length <$> load h' s' = length <$> load h s'.
Proof.
  destruct s as [|l]; simpl; [done|].
  destruct (h !! l) as [v|] eqn:Hv; simpl; [|done].
  case_decide; [|done]. intros [= <-]. split; [apply length_insert|].
  intros [|l']; [done|]. unfold load. destruct (decide (l = l')) as [<-|Hne].
  - rewrite list_lookup_insert_eq by by eapply lookup_lt_Some.
    rewrite Hv. simpl. by rewrite length_insert.
  - by rewrite list_lookup_insert_ne.
Qed.

Lemma add_cases_lengths rs l src : ∀ n j h h',
  Data.add_cases h rs l src j n = Some h' →
  length h' = length h ∧ ∀ s, length <$> load h' s = length <$> load h s.
Proof.
  induction n as [|n IH]; intros j h h'; simpl.
  { by intros [= <-]. }
  destruct (index rs l) as [dst|]; simpl; [|done].
  destruct (read h src _) as [x|]; simpl; [|done].
  destruct (read h (cases dst) _) as [y|]; simpl; [|done].
  destruct (write h (cases dst) _ _) as [h1|] eqn:Hw; simpl; [|done].
  intros [Hlen Hs]%IH. apply write_lengths in Hw as [Hlen1 Hs1].
  split; [congruence|]. intros s. by rewrite Hs, Hs1.
Qed.

Lemma reduce_step_lengths rs c h r rs' c' h' :
  Data.reduce_step (rs, c, h) r = Some (rs', c', h') →
  length h' = length h ∧ ∀ s, length <$> load h' s = length <$> load h s.
Proof.
  unfold Data.reduce_step. case_decide.
  - by intros [= _ _ <-].
  - destruct (load h (cases r)) as [v|]; simpl; [|done].
    destruct (Data.add_cases _ _ _ _ _ _) as [h1|] eqn:Hadd; simpl; [|done].
    intros [= _ _ <-]. by eapply add_cases_lengths.
Qed.

Lemma loop_lengths P : ∀ rs c h rs' c' h',
  foldlM Data.reduce_step (rs, c, h) P = Some (rs', c', h') →
  length h' = length h ∧ ∀ s, length <$> load h' s = length <$> load h s.
Proof.
  induction P as [|r P IH]; intros rs c h rs' c' h'.
  { by intros [= _ _ <-]. }
  change (foldlM Data.reduce_step (rs, c, h) (r :: P))
    with (Data.reduce_step (rs, c, h) r ≫= λ st, foldlM Data.reduce_step st P).
  destruct (Data.reduce_step (rs, c, h) r) as [[[rs1 c1] h1]|] eqn:Hstep;
    simpl; [|done].
  intros [Hlen Hs]%IH. apply reduce_step_lengths in Hstep as [Hlen1 Hs1].
  split; [congruence|]. intros s. by rewrite Hs, Hs1.
Qed.

(** On strictly increasing, non-empty country names the loop appends every
    record and writes nothing. *)
Lemma loop_increasing rs h :
  increasing rs → Forall (λ r, country r ≠ "") rs →
  foldlM Data.reduce_step ([], "", h) rs
  = Some (rs, default "" (country <$> last rs), h).
Proof.
  induction rs as [|r rs IH] using rev_ind; intros Hinc Hnamed; [done|].
  pose proof Hinc as (Hlt & Hinc' & _)%StronglySorted_app.
  pose proof Hnamed as [Hnamed' Hr%Forall_inv]%Forall_app.
  rewrite foldlM_snoc, IH by done. simpl. rewrite last_snoc. simpl.
  rewrite decide_True; [done|].
  destruct (last rs) as [y|] eqn:Hy; simpl; [|done].
  intros E. specialize (Hlt y r). unfold country_less in Hlt.
  rewrite E, string_ltb_irrefl in Hlt. discriminate Hlt.
  - by eapply last_Some_elem_of.
  - by apply list_elem_of_singleton.
Qed.

(** With a record without country name at the front (where sorting puts
    it), the loop indexes [rs[-1]] as soon as there is a day to add. *)
Lemma loop_unnamed_panics r P h v :
  country r = "" → load h (cases r) = Some v → v ≠ [] →
  foldlM Data.reduce_step ([], "", h) (r :: P) = None.
Proof.
  intros Hc Hv Hne. simpl. rewrite decide_False by (intros ?; congruence).
  rewrite Hv. simpl. destruct v as [|x v]; [done|]. done.
Qed.

Section reduce.
Context {srt : SliceSort} {ok : SliceSortOk srt}.

Lemma sortCountry_perm d : Data.sortCountry d ≡ₚ records d.
Proof. apply sort_Slice_perm. Qed.

Lemma sortCountry_sorted d : sorted_by country_less (Data.sortCountry d).
Proof. apply (sort_Slice_sorted _ country_less), strict_weak_country. Qed.

(** The shape of a result of [reduce], whatever the store. *)
Lemma reduce_shape d h recs R h' :
  Data.reduce d h = Some (recs, R, h') →
  recs = Data.sortCountry d ∧ header R = header d ∧
  records R = (heads recs).1 ∧
  length h' = length h ∧
  ∀ s, length <$> load h' s = length <$> load h s.
Proof.
  unfold Data.reduce.
  destruct (foldlM _ _ _) as [[[rs c] h1]|] eqn:Hloop; simpl; [|done].
  intros [= <- <- <-]. pose proof (loop_heads _ _ _ _ _ _ _ Hloop) as Hh.
  apply loop_lengths in Hloop as [? ?].
  split_and!; try done. unfold heads. by rewrite Hh.
Qed.

Lemma reduce_result_increasing d h recs R h' :
  Data.reduce d h = Some (recs, R, h') →
  increasing (records R) ∧ Forall (λ r, country r ≠ "") (records R) ∧
  records R `sublist_of` recs ∧ recs ≡ₚ records d.
Proof.
  intros (-> & _ & -> & _)%reduce_shape.
  destruct (heads_sorted _ (sortCountry_sorted d)).
  split_and!; try done. apply sortCountry_perm.
Qed.

(** [reduce] on well-formed records with country names: it returns, and
    this is what it returns and what it leaves in the store. *)
Lemma reduce_spec d h L :
  wf h L (records d) → Forall (λ r, country r ≠ "") (records d) →
  ∃ recs R h',
    Data.reduce d h = Some (recs, R, h') ∧
    recs ≡ₚ records d ∧ sorted_by country_less recs ∧
    header R = header d ∧ records R = (heads recs).1 ∧
    heads_inv recs (records R) (heads recs).2 ∧
    length h' = length h ∧
    (∀ r, r ∈ records R →
       load h' (cases r)
       = Some (country_total h L (country r) (records d))) ∧
    (∀ s, s ∉ cases <$> records R → load h' s = load h s).
Proof.
  intros Hwf Hnamed.
  pose proof (sortCountry_perm d) as Hp.
  pose proof (sortCountry_sorted d) as Hs.
  destruct (reduce_loop h L (Data.sortCountry d)) as [h' [Hrun Hlen Htot Hfr]].
  - done.
  - by apply (wf_perm h L (records d)).
  - by rewrite Hp.
  - exists (Data.sortCountry d),
      {| header := header d; records := (heads (Data.sortCountry d)).1 |}, h'.
    unfold Data.reduce. rewrite Hrun. simpl.
    split_and!; try done.
    + by apply heads_sorted.
    + intros r Hr. rewrite (Htot r Hr). f_equal.
      by apply country_total_perm.
Qed.

(** A dataset with a record that has no country name and at least one
    day makes [reduce] panic. *)
Lemma reduce_unnamed d h L :
  wf h L (records d) → (0 < L)%nat →
  (∃ r, r ∈ records d ∧ country r = "") →
  Data.reduce d h = None.
Proof.
  intros Hwf HL (r & Hr & Hc).
  pose proof (sortCountry_perm d) as Hp.
  pose proof (sortCountry_sorted d) as Hs.
  unfold Data.reduce.
  destruct (Data.sortCountry d) as [|r0 P] eqn:Hsort.
  { rewrite <-Hp in Hr. by apply elem_of_nil in Hr. }
  assert (country r0 = "") as Hc0.
  { rewrite <-Hp in Hr. apply elem_of_cons in Hr as [->|Hr]; [done|].
    apply StronglySorted_inv in Hs as [_ Hle]. rewrite Forall_forall in Hle.
    specialize (Hle r Hr). unfold country_less in Hle. rewrite Hc in Hle.
    by destruct (country r0). }
  apply (wf_perm _ _ _ _ (symmetry Hp)) in Hwf as [[Hr0 _]%Forall_cons _].
  destruct (has_cases_of _ _ _ Hr0) as (Hload & Hlen & _).
  rewrite (loop_unnamed_panics r0 P h (cases_of h r0)); [done..|].
  intros E. rewrite E in Hlen. simpl in Hlen. lia.
Qed.
End reduce.

(** ** Properties of [reduce] *)

Section reduce_properties.
Context {srt : SliceSort} {ok : SliceSortOk srt}.

(** X1, the part of C1 that holds.  On well-formed records that all carry
    a country name, [reduce] returns one record per country, in strictly
    ascending order of country name, and the case sequence of each is the
    element-wise sum, in Go's [int] arithmetic, of the case sequences that
    the records of that country had before the call. *)
Theorem reduce_by_country d h L :
  wf h L (records d) → Forall (λ r, country r ≠ "") (records d) →
  ∃ recs R h',
    Data.reduce d h = Some (recs, R, h') ∧
    header R = header d ∧
    increasing (records R) ∧
    NoDup (country <$> records R) ∧
    (∀ c, c ∈ country <$> records R ↔ c ∈ country <$> records d) ∧
    (∀ r, r ∈ records R →
       cases_of h' r = country_total h L (country r) (records d)).
Proof.
  intros Hwf Hnamed.
  destruct (reduce_spec d h L Hwf Hnamed)
    as (recs & R & h' & Hred & Hp & Hs & Hhd & HR & HI & Hlen & Htot & Hfr).
  exists recs, R, h'.
  destruct HI as [_ _ _ Hincr _ Hsub Hcover _].
  split_and!; try done.
  - by apply increasing_NoDup.
  - intros c. rewrite !list_elem_of_fmap. split.
    + intros (y & -> & Hy). exists y. split; [done|].
      rewrite <-Hp. by eapply elem_of_sublist.
    + intros (x & -> & Hx). rewrite <-Hp in Hx.
      destruct (Hcover x Hx) as (y & Hy & Hc); [|by eauto].
      rewrite Forall_forall in Hnamed. apply Hnamed. by rewrite <-Hp.
  - intros r Hr. unfold cases_of at 1. by rewrite (Htot r Hr).
Qed.

(** C3.  What [reduce] does to its source.  It builds a new slice of
    records for its result, but it sorts [d.records] in the caller's
    array and adds into the case arrays that the returned records share
    with the source.  On well-formed records that all carry a country
    name: after the call the records of the source are the same records
    in ascending order of country name; the records returned are among
    them and share their case arrays, which now hold the sum of the
    country; the case sequence of every other record of the source, and
    every other array of the store, is as before.  The order of the
    source and the counts of the first record of every country with
    several records are thus overwritten, which [main] meets again when
    it reduces the same dataset for a top-10 list after a country
    query. *)
Theorem reduce_source_after_call d h L :
  wf h L (records d) → Forall (λ r, country r ≠ "") (records d) →
  ∃ recs R h',
    Data.reduce d h = Some (recs, R, h') ∧
    header R = header d ∧
    recs ≡ₚ records d ∧ sorted_by country_less recs ∧
    records R `sublist_of` recs ∧
    length h' = length h ∧
    (∀ r, r ∈ records R →
       cases_of h' r = country_total h L (country r) (records d)) ∧
    (∀ r, r ∈ recs → r ∉ records R → cases_of h' r = cases_of h r) ∧
    (∀ l, l ∉ locs (records d) → h' !! l = h !! l).
Proof.
  intros Hwf Hnamed.
  destruct (reduce_spec d h L Hwf Hnamed)
    as (recs & R & h' & Hred & Hp & Hs & Hhd & HR & HI & Hlen & Htot & Hfr).
  exists recs, R, h'.
  destruct HI as [_ _ _ Hincr _ Hsub Hcover _].
  split_and!; try done.
  - intros r Hr. unfold cases_of at 1. by rewrite (Htot r Hr).
  - intros r Hr Hout. unfold cases_of.
    destruct (cases r) as [|l] eqn:Hc; [done|].
    rewrite Hfr; [done|]. rewrite list_elem_of_fmap. intros (y & Hy & HyR).
    destruct (locs_inj recs y r) as [Hnil| ->]; try done.
    + apply (wf_perm _ _ _ _ (symmetry Hp)) in Hwf. by destruct Hwf.
    + by eapply elem_of_sublist.
    + congruence.
    + congruence.
  - intros l Hl. apply (Hfr (Arr l)).
    rewrite list_elem_of_fmap. intros (y & Hy & HyR). apply Hl.
    apply elem_of_locs. exists y. split; [|done].
    rewrite <-Hp. by eapply elem_of_sublist.
Qed.

(** [reduce] applied to what [reduce] returned. *)
Lemma reduce_again d h recs R h' :
  Data.reduce d h = Some (recs, R, h') →
  Data.reduce R h' = Some (records R, R, h').
Proof.
  intros Hred.
  destruct (reduce_result_increasing _ _ _ _ _ Hred) as (Hinc & Hnamed & _).
  destruct (reduce_shape _ _ _ _ _ Hred) as (_ & Hhd & _).
  assert (Data.sortCountry R = records R) as Hsort.
  { apply increasing_sorted_unique; [done|apply sortCountry_sorted|].
    apply sortCountry_perm. }
  unfold Data.reduce. rewrite Hsort, loop_increasing by done. simpl.
  by destruct R.
Qed.
End reduce_properties.

(** ** [sum] *)

Lemma sum_loop_Some h k recs : ∀ s0 s,
  sum_loop h k s0 recs = Some s →
  Forall (λ r, is_Some (read h (cases r) k)) recs.
Proof.
  unfold sum_loop. induction recs as [|r recs IH]; intros s0 s; simpl.
  { constructor. }
  destruct (read h (cases r) k) as [x|] eqn:Hx; simpl; [|done].
  intros Hs. constructor; [by rewrite Hx|]. by eapply IH.
Qed.

Lemma sum_loop_spec h k recs : ∀ s0,
  is_int s0 → Forall (λ r, is_Some (read h (cases r) k)) recs →
  sum_loop h k s0 recs = Some (wrap (s0 + zsum (column h k recs))).
Proof.
  unfold sum_loop, column, zsum, day_of.
  induction recs as [|r recs IH]; intros s0 Hs0 Hall; csimpl.
  { by rewrite Z.add_0_r, wrap_id. }
  apply Forall_cons in Hall as [[x Hx] Hall]. rewrite Hx. simpl.
  rewrite IH; [|apply wrap_is_int|done].
  unfold addw. rewrite wrap_add_l. do 2 f_equal. lia.
Qed.

Lemma is_int_0 : is_int 0.
Proof. unfold is_int, int_min, int_max. lia. Qed.

Lemma sum_unfold d h c :
  Data.sum d h c =
  if (c <? 0)%Z
  then r0 ← records d !! 0%nat; v0 ← load h (cases r0);
       sum_loop h (Z.of_nat (length v0) + c) 0 (records d)
  else sum_loop h c 0 (records d).
Proof.
  unfold Data.sum, sum_loop. destruct (c <? 0)%Z; simpl; [|done].
  destruct (records d !! 0%nat) as [r0|]; simpl; [|done].
  by destruct (load h (cases r0)).
Qed.

Lemma read_has_cases h L r k :
  has_cases h L r → (0 ≤ k < Z.of_nat L)%Z → is_Some (read h (cases r) k).
Proof.
  intros (Hload & Hlen & _)%has_cases_of Hk. unfold read. rewrite Hload. simpl.
  unfold index. destruct (Z.ltb_spec k 0); [lia|].
  apply lookup_lt_is_Some_2. lia.
Qed.

(** [sum] on well-formed records, for a resolved index. *)
Lemma sum_loop_wf h L recs k :
  Forall (has_cases h L) recs → (0 ≤ k < Z.of_nat L)%Z →
  sum_loop h k 0 recs = Some (wrap (zsum (column h k recs))).
Proof.
  intros Hwf Hk. rewrite sum_loop_spec; [done|apply is_int_0|].
  eapply Forall_impl; [exact Hwf|]. intros r Hr. by eapply read_has_cases.
Qed.

(** ** Sums by country add up to the sum of all records *)

Lemma zsum_app l1 l2 : zsum (l1 ++ l2) = (zsum l1 + zsum l2)%Z.
Proof. unfold zsum. induction l1 as [|x l1 IH]; simpl; lia. Qed.

Lemma zsum_zero {A} (cs : list A) : zsum ((λ _, 0%Z) <$> cs) = 0%Z.
Proof. unfold zsum. induction cs as [|c cs IH]; csimpl; lia. Qed.

Lemma zsum_plus {A} (g1 g2 : A → Z) cs :
  zsum ((λ c, g1 c + g2 c)%Z <$> cs) = (zsum (g1 <$> cs) + zsum (g2 <$> cs))%Z.
Proof. unfold zsum. induction cs as [|c cs IH]; csimpl; lia. Qed.

Lemma zsum_indicator (c0 : string) (x : Z) cs :
  NoDup cs → c0 ∈ cs →
  zsum ((λ c, if decide (c0 = c) then x else 0%Z) <$> cs) = x.
Proof.
  unfold zsum. induction 1 as [|c cs Hc Hnd IH]; intros Hin; csimpl.
  { by apply elem_of_nil in Hin. }
  apply elem_of_cons in Hin as [->|Hin].
  - rewrite decide_True by done.
    replace (foldr Z.add 0%Z ((λ c1, if decide (c = c1) then x else 0%Z) <$> cs))
      with 0%Z; [lia|].
    clear IH Hnd. induction cs as [|c' cs IH]; csimpl; [done|].
    rewrite not_elem_of_cons in Hc. destruct Hc as [Hne Hc].
    rewrite decide_False by done. rewrite <-IH by done. lia.
  - rewrite decide_False by (intros ->; done). rewrite IH by done. lia.
Qed.

Lemma zsum_groups (f : record → Z) cs recs :
  NoDup cs → (∀ r, r ∈ recs → country r ∈ cs) →
  zsum ((λ c, zsum (f <$> group c recs)) <$> cs) = zsum (f <$> recs).
Proof.
  intros Hnd. induction recs as [|r recs IH]; intros Hcs.
  { unfold group. simpl. apply zsum_zero. }
  rewrite (list_fmap_ext _
             (λ c, (if decide (country r = c) then f r else 0)
                   + zsum (f <$> group c recs))%Z cs).
  - rewrite zsum_plus, zsum_indicator, IH; [done| | |].
    + intros y Hy. apply Hcs. by right.
    + done.
    + apply Hcs. by left.
  - intros _ c _. unfold group. rewrite filter_cons.
    destruct (decide (country r = c)); csimpl; [done|]. lia.
Qed.

(** ** [reduce] and [sum] *)

Lemma day_of_has_cases h L r k :
  has_cases h L r → (0 ≤ k)%Z →
  day_of h k r = default 0%Z (cases_of h r !! Z.to_nat k).
Proof.
  intros (Hload & _)%has_cases_of Hk. unfold day_of, read. rewrite Hload. simpl.
  unfold index. by destruct (Z.ltb_spec k 0); [lia|].
Qed.

(** Day [k] of the sum of a country is the sum of day [k] of its records. *)
Lemma read_country_total h h' L c recs s k :
  wf h L recs → (0 ≤ k < Z.of_nat L)%Z →
  load h' s = Some (country_total h L c recs) →
  read h' s k = Some (wrap (zsum (day_of h k <$> group c recs))).
Proof.
  intros [Hwf _] Hk Hload. unfold read. rewrite Hload. simpl.
  unfold index. destruct (Z.ltb_spec k 0); [lia|].
  assert (Forall (has_cases h L) (group c recs)) as Hg.
  { unfold group. apply Forall_forall. intros r [_ Hr]%list_elem_of_filter.
    rewrite Forall_forall in Hwf. by apply Hwf. }
  unfold country_total. rewrite list_lookup_fmap, vsum_lookup.
  - simpl. do 3 f_equal. rewrite <-list_fmap_compose.
    apply list_fmap_ext. intros i r Hr%list_elem_of_lookup_2.
    rewrite Forall_forall in Hg. simpl.
    symmetry. apply (day_of_has_cases h L); [by apply Hg|lia].
  - rewrite Forall_fmap. eapply Forall_impl; [exact Hg|].
    intros r Hr. by destruct (has_cases_of _ _ _ Hr) as (_ & ? & _).
  - lia.
Qed.

Section reduce_sum.
Context {srt : SliceSort} {ok : SliceSortOk srt}.

(** X2, the part of C2 that holds.  On well-formed records that all carry
    a country name, the total of a day, counted from the front or from
    the end, is the same over what [reduce] returns as it was over the
    dataset before the call. *)
Theorem reduce_preserves_sum d h L k :
  wf h L (records d) → Forall (λ r, country r ≠ "") (records d) →
  (- Z.of_nat L ≤ k < Z.of_nat L)%Z →
  ∃ recs R h',
    Data.reduce d h = Some (recs, R, h') ∧
    Data.sum R h' k = Data.sum d h k ∧
    (records d ≠ [] → is_Some (Data.sum d h k)).
Proof.
  intros Hwf Hnamed Hk.
  destruct (reduce_spec d h L Hwf Hnamed)
    as (recs & R & h' & Hred & Hp & Hs & Hhd & HR & HI & Hlen & Htot & Hfr).
  exists recs, R, h'. split; [done|].
  destruct HI as [_ _ _ Hincr _ Hsub Hcover _].
  destruct (records d) as [|r0 recs0] eqn:Hd.
  { apply Permutation_nil_r in Hp. subst recs. simpl in HR.
    rewrite !sum_unfold, HR, Hd. simpl. split; [|done].
    by destruct (k <? 0)%Z. }
  pose proof Hwf as [[Hr0 _]%Forall_cons _].
  destruct (has_cases_of _ _ _ Hr0) as (Hload0 & Hlen0 & _).
  destruct (Hcover r0) as (y0 & Hy0 & _).
  { rewrite Hp. by left. }
  { by apply Forall_cons in Hnamed as [? _]. }
  destruct (records R) as [|y1 rs] eqn:HRrecs.
  { by apply elem_of_nil in Hy0. }
  pose proof (Htot y1 (list_elem_of_here _ _)) as Hload1.
  set (kk := if (k <? 0)%Z then (Z.of_nat L + k)%Z else k).
  assert (0 ≤ kk < Z.of_nat L)%Z as Hkk.
  { unfold kk. destruct (Z.ltb_spec k 0); lia. }
  assert (Data.sum d h k = sum_loop h kk 0 (r0 :: recs0)) as Hsumd.
  { rewrite sum_unfold, Hd. unfold kk. destruct (k <? 0)%Z; [|done].
    simpl. rewrite Hload0. simpl. by rewrite Hlen0. }
  assert (Data.sum R h' k = sum_loop h' kk 0 (y1 :: rs)) as HsumR.
  { rewrite sum_unfold, HRrecs. unfold kk. destruct (k <? 0)%Z; [|done].
    simpl. rewrite Hload1. simpl.
    by rewrite (length_country_total h L _ _ Hwf). }
  rewrite Hsumd, HsumR.
  rewrite (sum_loop_wf h L) by (done || by destruct Hwf).
  split; [|done].
  assert (∀ y, y ∈ y1 :: rs →
            read h' (cases y) kk
            = Some (wrap (zsum (day_of h kk <$> group (country y) (r0 :: recs0)))))
    as Hread.
  { intros y Hy. apply (read_country_total h h' L); [done..|by apply Htot]. }
  rewrite sum_loop_spec; [|apply is_int_0|].
  - f_equal. rewrite Z.add_0_l. unfold column.
    rewrite (list_fmap_ext _
      (wrap ∘ (λ c, zsum (day_of h kk <$> group c (r0 :: recs0))) ∘ country)
      (y1 :: rs)).
    + rewrite !list_fmap_compose, wrap_zsum_wrap. f_equal.
      apply zsum_groups.
      * by apply increasing_NoDup.
      * intros r Hr. destruct (Hcover r) as (y & Hy & Hc).
        -- by rewrite Hp.
        -- rewrite Forall_forall in Hnamed. by apply Hnamed.
        -- rewrite <-Hc. apply list_elem_of_fmap. eauto.
    + intros i y Hy%list_elem_of_lookup_2. unfold day_of at 1.
      by rewrite (Hread y Hy).
  - apply Forall_forall. intros y Hy. by rewrite (Hread y Hy).
Qed.
End reduce_sum.

(** ** [filter] *)

Lemma find_first {A} (f : A → bool) l x :
  find f l = Some x →
  ∃ l1 l2, l = l1 ++ x :: l2 ∧ f x = true ∧ ∀ y, y ∈ l1 → f y = false.
Proof.
  induction l as [|a l IH]; simpl; [done|].
  destruct (f a) eqn:Ha.
  - intros [= <-]. exists [], l. split_and!; [done..|].
    intros y Hy. by apply elem_of_nil in Hy.
  - intros (l1 & l2 & -> & Hx & Hl1)%IH. exists (a :: l1), l2.
    split_and!; [done..|]. intros y [->|Hy]%elem_of_cons; eauto.
Qed.

Lemma find_is_Some {A} (f : A → bool) l x :
  x ∈ l → f x = true → is_Some (find f l).
Proof.
  induction 1 as [x l|x a l _ IH]; simpl; intros Hx.
  - rewrite Hx. eauto.
  - destruct (f a); eauto.
Qed.

(** Two ways to split a slice at the first record of a country agree. *)
Lemma first_of_country_unique c l1 : ∀ x l2 k1 y k2,
  l1 ++ x :: l2 = k1 ++ y :: k2 →
  (∀ z, z ∈ l1 → country z ≠ c) → (∀ z, z ∈ k1 → country z ≠ c) →
  country x = c → country y = c → x = y.
Proof.
  induction l1 as [|a l1 IH]; intros x l2 [|b k1] y k2; simpl.
  - by intros [= -> _].
  - intros [= -> _] _ Hk1 Hx _. destruct (Hk1 b); [by left|done].
  - intros [= -> _] Hl1 _ _ Hy. destruct (Hl1 y); [by left|done].
  - intros [= -> Heq] Hl1 Hk1 Hx Hy. eapply IH; eauto.
    + intros z Hz. apply Hl1. by right.
    + intros z Hz. apply Hk1. by right.
Qed.

Section filter.
Context {srt : SliceSort} {ok : SliceSortOk srt} {fld : Folding}.

(** X3, the part of C9 that holds.  On well-formed records that all carry
    a country name: when the records that match [c] under case folding
    all spell their country [c0], and there is one, [filter] finds a
    record of [c0] whose cases are, after the call, the element-wise sum
    over the records of [c0]. *)
Theorem filter_found d h L c c0 :
  wf h L (records d) → Forall (λ r, country r ≠ "") (records d) →
  (∃ r, r ∈ records d ∧ EqualFold (country r) c = true) →
  (∀ r, r ∈ records d → EqualFold (country r) c = true → country r = c0) →
  ∃ recs r h',
    Data.filter d h c = Some (recs, (r, true), h') ∧
    country r = c0 ∧
    load h' (cases r) = Some (country_total h L c0 (records d)).
Proof.
  intros Hwf Hnamed (r1 & Hr1 & Hfold1) Hspell.
  destruct (reduce_spec d h L Hwf Hnamed)
    as (recs & R & h' & Hred & Hp & Hs & Hhd & HR & HI & Hlen & Htot & Hfr).
  destruct HI as [_ _ _ Hincr _ Hsub Hcover Hfirst].
  unfold Data.filter. rewrite Hred. simpl.
  destruct (find_is_Some (λ r, EqualFold (country r) c) recs r1)
    as [r Hfind]; [by rewrite Hp|done|].
  rewrite Hfind. exists recs, r, h'. split; [done|].
  destruct (find_first _ _ _ Hfind) as (l1 & l2 & Hrecs & Hr & Hl1).
  assert (r ∈ recs) as Hin.
  { rewrite Hrecs. apply elem_of_app. right. by left. }
  assert (country r = c0) as Hc0.
  { apply Hspell; [by rewrite <-Hp|done]. }
  split; [done|].
  destruct (Hcover r Hin) as (y & Hy & Hyc).
  { rewrite Forall_forall in Hnamed. apply Hnamed. by rewrite <-Hp. }
  destruct (Hfirst y Hy) as (k1 & k2 & Hrecs' & Hk1).
  assert (r = y) as ->.
  { apply (first_of_country_unique c0 l1 r l2 k1 y k2); try congruence.
    - intros z Hz Hzc.
      assert (EqualFold (country z) c = true) as Hzf by congruence.
      by rewrite (Hl1 z Hz) in Hzf.
    - intros z Hz. specialize (Hk1 z Hz). congruence. }
  rewrite (Htot y Hy). by rewrite Hc0.
Qed.

End filter.

(** ** [sort] and the top-N blocks *)

Lemma equal_length_load h L recs r :
  equal_length h L recs → r ∈ recs →
  ∃ v, load h (cases r) = Some v ∧ length v = L.
Proof.
  unfold equal_length. rewrite Forall_forall. intros H Hr.
  specialize (H r Hr). destruct (load h (cases r)) as [v|]; [|done].
  exists v. split; [done|]. by injection H.
Qed.

Lemma wf_equal_length h L recs : wf h L recs → equal_length h L recs.
Proof.
  intros [Hwf _]. unfold equal_length. eapply Forall_impl; [exact Hwf|].
  intros r (Hload & Hlen & _)%has_cases_of. by rewrite Hload, <-Hlen.
Qed.

Lemma latest_equal_length h L recs r :
  equal_length h L recs → (0 < L)%nat → r ∈ recs →
  latest h r = Some (day_of h (Z.of_nat L - 1) r) ∧
  read h (cases r) (Z.of_nat L - 1) = Some (day_of h (Z.of_nat L - 1) r).
Proof.
  intros Heq HL Hr. destruct (equal_length_load _ _ _ _ Heq Hr) as (v & Hv & Hlen).
  unfold latest, day_of, read. rewrite Hv. simpl. rewrite Hlen.
  unfold index. destruct (Z.ltb_spec (Z.of_nat L - 1) 0); [lia|].
  destruct (lookup_lt_is_Some_2 v (Z.to_nat (Z.of_nat L - 1))) as [x Hx]; [lia|].
  by rewrite Hx.
Qed.

Lemma strict_weak_more_cases h k : strict_weak (Data.more_cases h k).
Proof.
  unfold Data.more_cases. split; intros *; rewrite ?Z.ltb_lt, ?Z.ltb_ge; lia.
Qed.

Lemma StronglySorted_lookup {A} (R : relation A) l i j a b :
  StronglySorted R l → l !! i = Some a → l !! j = Some b → (i < j)%nat → R a b.
Proof.
  intros Hl. revert i j. induction Hl as [|x l Hl IH Hx]; intros i j Hi Hj Hij.
  { done. }
  destruct j as [|j]; [lia|]. simpl in Hj. destruct i as [|i]; simpl in Hi.
  - injection Hi as ->. rewrite Forall_forall in Hx. apply Hx.
    by eapply list_elem_of_lookup_2.
  - apply (IH i j); [done..|lia].
Qed.

Lemma sorted_descending h L recs :
  equal_length h L recs → (0 < L)%nat →
  sorted_by (Data.more_cases h (Z.of_nat L - 1)) recs → descending h recs.
Proof.
  intros Heq HL Hs i a b Ha Hb.
  destruct (latest_equal_length h L recs a) as [-> _];
    [done..|by eapply list_elem_of_lookup_2|].
  destruct (latest_equal_length h L recs b) as [-> _];
    [done..|by eapply list_elem_of_lookup_2|].
  do 2 eexists. split_and!; [done..|].
  pose proof (StronglySorted_lookup _ _ i (S i) a b Hs Ha Hb) as Hab.
  unfold Data.more_cases in Hab. apply Z.ltb_ge. apply Hab. lia.
Qed.

Lemma top_rows_short n recs h :
  (length recs < n)%nat → top_rows n recs h = None.
Proof.
  intros Hn. unfold top_rows. apply mapM_None, Exists_exists.
  exists (length recs). split.
  - apply elem_of_seq. lia.
  - unfold top_row. by rewrite (lookup_ge_None_2 recs).
Qed.

Lemma top_rows_Some n recs h rows :
  top_rows n recs h = Some rows →
  (n ≤ length recs)%nat ∧ length rows = n ∧
  ∀ i r, take n recs !! i = Some r →
    ∃ x, latest h r = Some x ∧ rows !! i = Some (S i, country r, x).
Proof.
  intros Hrows. split.
  { destruct (decide (n ≤ length recs)%nat); [done|].
    rewrite top_rows_short in Hrows by lia. done. }
  unfold top_rows in Hrows. pose proof (length_mapM _ _ _ Hrows) as Hlen.
  rewrite length_seq in Hlen. split; [done|].
  apply mapM_Some_1 in Hrows. intros i r Hr.
  apply lookup_take_Some in Hr as [Hr Hi].
  destruct (lookup_lt_is_Some_2 rows i) as [row Hrow]; [lia|].
  pose proof (Forall2_lookup_lr _ _ _ i i row Hrows) as Htop.
  rewrite lookup_seq in Htop. specialize (Htop (conj eq_refl Hi) Hrow).
  simpl in Htop. unfold top_row in Htop. rewrite Hr in Htop. simpl in Htop.
  destruct (latest h r) as [x|]; [|done]. simpl in Htop.
  exists x. split; [done|]. congruence.
Qed.

Lemma top_rows_is_Some n recs h :
  (n ≤ length recs)%nat → Forall (λ r, is_Some (latest h r)) recs →
  is_Some (top_rows n recs h).
Proof.
  intros Hn Hall. unfold top_rows. apply mapM_is_Some_2, Forall_forall.
  intros i [_ Hi]%elem_of_seq. simpl. unfold top_row.
  destruct (lookup_lt_is_Some_2 recs i) as [r Hr]; [lia|]. rewrite Hr. simpl.
  rewrite Forall_forall in Hall.
  destruct (Hall r) as [x Hx]; [by eapply list_elem_of_lookup_2|].
  rewrite Hx. simpl. by eexists.
Qed.

Section sort.
Context {srt : SliceSort} {ok : SliceSortOk srt}.

(** Whenever [sort] returns, [d.records] holds the same records. *)
Lemma sort_perm d h recs : Data.sort d h = Some recs → recs ≡ₚ records d.
Proof.
  unfold Data.sort. destruct (records d) as [|r0 [|r1 l]].
  - by intros [= <-].
  - by intros [= <-].
  - destruct (load h (cases r0)) as [v0|]; cbn -[mapM]; [|done].
    destruct (mapM _ _); cbn -[mapM]; [|done].
    intros [= <-]. apply sort_Slice_perm.
Qed.

Lemma sort_spec d h L :
  equal_length h L (records d) → (0 < L)%nat →
  ∃ recs, Data.sort d h = Some recs ∧ recs ≡ₚ records d ∧
          sorted_by (Data.more_cases h (Z.of_nat L - 1)) recs.
Proof.
  intros Heq HL. unfold Data.sort.
  destruct (records d) as [|r0 [|r1 l]] eqn:Hd.
  - exists []. split_and!; [done..|constructor].
  - exists [r0]. split_and!; [done..|repeat constructor].
  - destruct (equal_length_load h L _ r0 Heq) as (v0 & Hv0 & Hlen0); [by left|].
    rewrite Hv0. cbn -[mapM]. rewrite Hlen0.
    destruct (mapM_is_Some_2 (λ r, read h (cases r) (Z.of_nat L - 1))
                (r0 :: r1 :: l)) as [ks Hks].
    { apply Forall_forall. intros r Hr. simpl.
      destruct (latest_equal_length h L _ r Heq HL Hr) as [_ ->]. by eexists. }
    rewrite Hks. cbn -[mapM]. eexists. split_and!; [done| |].
    + apply sort_Slice_perm.
    + apply sort_Slice_sorted, strict_weak_more_cases.
Qed.

(** Without a day to compare, [sort] returns only when there is nothing
    to compare. *)
Lemma sort_no_day d h recs :
  equal_length h 0 (records d) → Data.sort d h = Some recs →
  (length recs ≤ 1)%nat.
Proof.
  intros Heq. unfold Data.sort.
  destruct (records d) as [|r0 [|r1 l]] eqn:Hd.
  - intros [= <-]. simpl. lia.
  - intros [= <-]. simpl. lia.
  - destruct (equal_length_load h 0 _ r0 Heq) as (v0 & Hv0 & Hlen0); [by left|].
    rewrite Hv0. cbn -[mapM]. rewrite Hlen0.
    rewrite (proj2 (mapM_None _ _)); [done|].
    apply Exists_cons_hd. unfold read. by rewrite Hv0.
Qed.

(** The top-N block reads [rconf.records[0..n-1]]. *)
Lemma topN_Some n d h rows :
  topN n d h = Some rows →
  ∃ recs R h' S,
    Data.reduce d h = Some (recs, R, h') ∧ Data.sort R h' = Some S ∧
    top_rows n S h' = Some rows ∧ (n ≤ length (records R))%nat.
Proof.
  unfold topN.
  destruct (Data.reduce d h) as [[[recs R] h']|]; simpl; [|done].
  destruct (Data.sort R h') as [S|] eqn:Hsort; simpl; [|done].
  intros Hrows. exists recs, R, h', S. split_and!; [done..|].
  apply top_rows_Some in Hrows as [Hn _].
  by rewrite <-(sort_perm _ _ _ Hsort).
Qed.

Lemma topN_short n d h recs R h' :
  Data.reduce d h = Some (recs, R, h') → (length (records R) < n)%nat →
  topN n d h = None.
Proof.
  intros Hred Hn. unfold topN. rewrite Hred. simpl.
  destruct (Data.sort R h') as [S|] eqn:Hsort; simpl; [|done].
  apply top_rows_short. by rewrite (sort_perm _ _ _ Hsort).
Qed.

(** After [reduce] the case sequences still have one length. *)
Lemma reduce_equal_length d h L recs R h' :
  equal_length h L (records d) → Data.reduce d h = Some (recs, R, h') →
  equal_length h' L (records R).
Proof.
  intros Heq Hred.
  destruct (reduce_result_increasing _ _ _ _ _ Hred) as (_ & _ & Hsub & Hp).
  destruct (reduce_shape _ _ _ _ _ Hred) as (_ & _ & _ & _ & Hlen).
  unfold equal_length in *. rewrite Forall_forall in *.
  intros r Hr. rewrite Hlen. apply Heq. rewrite <-Hp.
  by eapply elem_of_sublist.
Qed.
End sort.

(** ** [sum] with an offset from the end *)

Lemma read_Some h s k x :
  read h s k = Some x ↔
  ∃ v, load h s = Some v ∧ (0 ≤ k < Z.of_nat (length v))%Z ∧
       v !! Z.to_nat k = Some x.
Proof.
  unfold read. destruct (load h s) as [v|]; simpl.
  - rewrite index_Some. split.
    + intros [Hk Hx]. exists v. split_and!; [done..| |done].
      apply lookup_lt_Some in Hx. lia.
    + intros (? & [= <-] & Hk & Hx). split; [lia|done].
  - split; [done|]. by intros (? & ? & _).
Qed.

Lemma read_is_Some h s k :
  is_Some (read h s k) ↔
  ∃ v, load h s = Some v ∧ (0 ≤ k < Z.of_nat (length v))%Z.
Proof.
  split.
  - intros [x (v & Hv & Hk & _)%read_Some]. eauto.
  - intros (v & Hv & Hk).
    destruct (lookup_lt_is_Some_2 v (Z.to_nat k)) as [x Hx]; [lia|].
    exists x. apply read_Some. eauto.
Qed.

Lemma sum_loop_is_Some h k recs :
  is_Some (sum_loop h k 0 recs) ↔
  Forall (λ r, ∃ v, load h (cases r) = Some v ∧
                    (0 ≤ k < Z.of_nat (length v))%Z) recs.
Proof.
  split.
  - intros [s Hs%sum_loop_Some]. eapply Forall_impl; [exact Hs|].
    intros r. apply read_is_Some.
  - intros Hall. rewrite sum_loop_spec; [by eexists|apply is_int_0|].
    eapply Forall_impl; [exact Hall|]. intros r. apply read_is_Some.
Qed.

(** [sum] with a negative offset starts with [d.records[0]]. *)
Lemma sum_negative d h c :
  (c < 0)%Z →
  Data.sum d h c =
    r0 ← records d !! 0%nat; v0 ← load h (cases r0);
    sum_loop h (Z.of_nat (length v0) + c) 0 (records d).
Proof.
  intros Hc. rewrite sum_unfold. by destruct (Z.ltb_spec c 0); [|lia].
Qed.

Lemma sum_negative_is_Some d h c :
  (c < 0)%Z →
  is_Some (Data.sum d h c) ↔
  ∃ r0 v0, records d !! 0%nat = Some r0 ∧ load h (cases r0) = Some v0 ∧
    Forall (λ r, ∃ v, load h (cases r) = Some v ∧
              (0 ≤ Z.of_nat (length v0) + c < Z.of_nat (length v))%Z)
           (records d).
Proof.
  intros Hc. rewrite sum_negative by done.
  destruct (records d !! 0%nat) as [r0|]; simpl.
  - destruct (load h (cases r0)) as [v0|] eqn:Hv0; simpl.
    + rewrite sum_loop_is_Some. split.
      * intros Hall. by exists r0, v0.
      * intros (? & ? & [= <-] & Hv & ?). by simplify_eq.
    + split; [by intros [??]|]. intros (? & ? & [= <-] & ? & _). congruence.
  - split; [by intros [??]|]. by intros (? & ? & ? & _).
Qed.

Lemma sum_negative_empty d h c :
  (c < 0)%Z → records d = [] → Data.sum d h c = None.
Proof. intros Hc Hd. rewrite sum_negative by done. by rewrite Hd. Qed.

Lemma printCases_empty d h : records d = [] → Data.printCases d h = None.
Proof.
  intros Hd. unfold Data.printCases.
  by rewrite (sum_negative_empty d h (-1)).
Qed.

(** ** The decoder *)

Lemma or_panic_Done {A} (o : option A) a : or_panic o = Done a ↔ o = Some a.
Proof. destruct o; simpl; split; congruence. Qed.

Lemma or_exit_Done {A} msg (o : option A) a :
  or_exit msg o = Done a ↔ o = Some a.
Proof. destruct o; simpl; split; congruence. Qed.

Lemma bind_Done {A B} (m : outcome A) (f : A → outcome B) b :
  m ≫= f = Done b ↔ ∃ a, m = Done a ∧ f a = Done b.
Proof.
  destruct m as [a| |]; simpl; split; try done.
  - intros Hf. by exists a.
  - by intros (? & [= <-] & ?).
  - by intros (? & ? & _).
  - by intros (? & ? & _).
Qed.

Lemma Atoi_is_int s v : Atoi s = Some v → is_int v.
Proof.
  unfold Atoi. destruct s as [|a s]; [done|].
  destruct (if Ascii.eqb a "-" then _ else _) as [neg ds].
  destruct ds; [done|]. destruct (digits _ _) as [n|]; simpl; [|done].
  case_decide; [|done]. by intros [= <-].
Qed.

Lemma has_cases_ext h ext L r : has_cases h L r → has_cases (h ++ ext) L r.
Proof.
  unfold has_cases. destruct (cases r) as [|l]; simpl; [done|].
  destruct (h !! l) as [v|] eqn:Hv; [|done].
  by rewrite (lookup_app_l_Some _ _ _ _ Hv).
Qed.

Lemma new_slice_spec v h s h' r :
  new_slice v h = (s, h') → cases r = s → Forall is_int v →
  has_cases h' (length v) r ∧ (∃ ext, h' = h ++ ext) ∧
  (length h ≤ length h')%nat ∧
  ∀ l, arr_loc r = Some l → (length h ≤ l < length h')%nat.
Proof.
  unfold new_slice, has_cases, arr_loc. intros Hnew Hr Hv. rewrite Hr.
  destruct v as [|x v]; injection Hnew as <- <-; simpl.
  - split; [done|]. split; [by exists []; rewrite app_nil_r|].
    split; [lia|done].
  - rewrite list_lookup_middle by done.
    split; [done|]. split; [by eexists|]. rewrite length_app. simpl.
    split; [lia|]. intros l [= <-]. lia.
Qed.

Section decoder_facts.
Context {P : Platform}.

Lemma decode_cases_spec row : ∀ n j acc v,
  decode_cases row j n acc = Done v →
  length v = (length acc + n)%nat ∧ (Forall is_int acc → Forall is_int v).
Proof.
  induction n as [|n IH]; intros j acc v; simpl.
  { intros [= <-]. split; [lia|done]. }
  intros (f & Hf%or_panic_Done & (x & Hx%or_exit_Done & Hrest)%bind_Done)%bind_Done.
  apply IH in Hrest as (Hlen & Hint). rewrite length_app in Hlen.
  simpl in Hlen. split; [lia|].
  intros Hacc. apply Hint, Forall_app. split; [done|].
  constructor; [|done]. by eapply Atoi_is_int.
Qed.

Lemma decode_row_spec n0 recs h row recs' h' :
  decode_row n0 (recs, h) row = Done (recs', h') →
  ∃ r, recs' = recs ++ [r] ∧ has_cases h' (n0 - 4) r ∧
       (∃ ext, h' = h ++ ext) ∧ (length h ≤ length h')%nat ∧
       (∀ l, arr_loc r = Some l → (length h ≤ l < length h')%nat) ∧
       (4 ≤ length row)%nat.
Proof.
  unfold decode_row.
  intros (v & Hv & Hrest)%bind_Done.
  apply bind_Done in Hrest as (p & Hp%or_panic_Done & Hrest).
  apply bind_Done in Hrest as (c & Hc%or_panic_Done & Hrest).
  apply bind_Done in Hrest as (f2 & Hf2%or_panic_Done & Hrest).
  apply bind_Done in Hrest as (la & Hla & Hrest).
  apply bind_Done in Hrest as (f3 & Hf3%or_panic_Done & Hrest).
  apply bind_Done in Hrest as (lo & Hlo & Hrest).
  destruct (new_slice v h) as [s h1] eqn:Hnew. injection Hrest as <- <-.
  apply decode_cases_spec in Hv as [Hlen Hint]. simpl in Hlen.
  eexists. split; [done|].
  destruct (new_slice_spec v h s h1
              {| province := p; country := c; lat := la; long := lo;
                 cases := s |} Hnew eq_refl (Hint (Forall_nil_2 _)))
    as (Hhas & Hext & Hle & Hloc).
  rewrite Hlen in Hhas. split_and!; try done.
  apply lookup_lt_Some in Hf3. lia.
Qed.

Lemma decode_rows_spec n0 rows : ∀ recs h recs' h',
  decode_rows n0 (recs, h) rows = Done (recs', h') →
  wf h (n0 - 4) recs → Forall (λ l, l < length h)%nat (locs recs) →
  wf h' (n0 - 4) recs' ∧ Forall (λ l, l < length h')%nat (locs recs') ∧
  length recs' = (length recs + length rows)%nat ∧
  Forall (λ row, 4 ≤ length row)%nat rows ∧
  ∃ ext, h' = h ++ ext.
Proof.
  induction rows as [|row rows IH]; intros recs h recs' h'; simpl.
  { intros [= <- <-] Hwf Hlocs. split_and!; [done..|lia|done|].
    exists []. by rewrite app_nil_r. }
  intros ([recs1 h1] & Hrow & Hrows)%bind_Done [Hall Hnd] Hlocs.
  apply decode_row_spec in Hrow
    as (r & -> & Hhas & [ext ->] & Hle & Hloc & Hrowlen).
  apply IH in Hrows as (Hwf' & Hlocs' & Hlen & Hrows' & [ext' ->]).
  - split_and!; [done..| |by constructor|].
    + rewrite Hlen, length_app. simpl. lia.
    + exists (ext ++ ext'). by rewrite app_assoc.
  - split.
    + apply Forall_app. split; [|by constructor].
      eapply Forall_impl; [exact Hall|]. intros r'. apply has_cases_ext.
    + unfold locs. rewrite omap_app. simpl.
      destruct (arr_loc r) as [l|] eqn:Hl; [|by rewrite app_nil_r].
      apply NoDup_app. split_and!; [done| |apply NoDup_singleton].
      intros l' Hin ->%list_elem_of_singleton.
      rewrite Forall_forall in Hlocs. specialize (Hlocs l Hin).
      specialize (Hloc l eq_refl). lia.
  - unfold locs. rewrite omap_app, Forall_app. split.
    + eapply Forall_impl; [exact Hlocs|]. simpl. intros l Hl. lia.
    + simpl. destruct (arr_loc r) as [l|] eqn:Hl; [|done].
      constructor; [|done]. specialize (Hloc l eq_refl). lia.
Qed.

(** What a successful [decode] has read and built. *)
Lemma decode_spec `{!CsvOk P} path rd save fs h d h' fs' :
  decode path rd save fs h = Done (d, h', fs') →
  ∃ content rr,
    DecodeString rd = Some content ∧ ReadAll content = Some rr ∧
    rr !! 0%nat = Some (header d) ∧
    length (records d) = (length rr - 1)%nat ∧
    wf h' (length (header d) - 4) (records d) ∧
    (records d ≠ [] → 4 ≤ length (header d))%nat ∧
    ∃ ext, h' = h ++ ext.
Proof.
  unfold decode.
  intros (content & Hcontent%or_exit_Done & Hrest)%bind_Done.
  apply bind_Done in Hrest as (fs1 & _ & Hrest).
  apply bind_Done in Hrest as (rr & Hrr%or_exit_Done & Hrest).
  apply bind_Done in Hrest as ([recs h1] & Hrows & Hrest).
  apply bind_Done in Hrest as (hdr & Hhdr%or_panic_Done & Hrest).
  injection Hrest as <- <- <-. simpl.
  destruct rr as [|hdr' rows]; [done|]. injection Hhdr as ->.
  simpl in Hrows.
  apply decode_rows_spec in Hrows as (Hwf & _ & Hlen & Hrowlen & Hext).
  - exists content, (hdr :: rows). simpl in *.
    split_and!; [done..|lia|done| |done].
    intros Hne. destruct rows as [|row rows]; [by destruct recs|].
    apply Forall_cons in Hrowlen as [Hrowlen _].
    rewrite (ReadAll_fields content (hdr :: row :: rows) row) in Hrowlen.
    + done.
    + done.
    + right. by left.
  - split; [constructor|apply NoDup_nil_2].
  - constructor.
Qed.
End decoder_facts.

(** ** The sample platform reads rectangular tables *)

Lemma plain_platform_ok : CsvOk plain_platform.
Proof.
  intros content rr row. simpl. unfold plain_ReadAll.
  destruct (forallb _ _) eqn:Hall; [|done]. intros [= <-] Hrow.
  rewrite forallb_forall in Hall. apply Nat.eqb_eq, Hall.
  by apply list_elem_of_In.
Qed.

(** * The claims of the specification *)

Section claims.
Context {srt : SliceSort} {ok : SliceSortOk srt} {fld : Folding}.

(** C1.  [reduce] does not return the per-country sums for every dataset
    with case sequences of one length: on well-formed records with at
    least one day, it panics exactly when some record has the empty string
    for country name.  [c] starts as "", so the first record after sorting
    is taken for a further record of a country already met and
    [rs[len(rs)-1]] is indexed with [rs] empty. *)
Theorem reduce_panics_iff_unnamed (d : data) (h : heap) (L : nat) :
  wf h L (records d) → (0 < L)%nat →
  Data.reduce d h = None ↔ ∃ r, r ∈ records d ∧ country r = "".
Proof.
  intros Hwf HL. split.
  - intros Hred.
    destruct (decide (Exists (λ r, country r = "") (records d))) as [Hex|Hall].
    { by apply Exists_exists in Hex. }
    apply not_Exists_Forall in Hall; [|apply _].
    destruct (reduce_spec d h L Hwf) as (recs & R & h' & Hsome & _).
    + eapply Forall_impl; [exact Hall|]. done.
    + congruence.
  - by apply (reduce_unnamed d h L).
Qed.

(** C2.  The total of a day is lost, not preserved, on a dataset with a
    record without country name: [sum] of the dataset is defined for every
    day, and [reduce] panics, so there is no reduced dataset to sum. *)
Theorem sum_defined_reduce_panics (d : data) (h : heap) (L : nat) (k : Z) :
  wf h L (records d) → (0 < L)%nat → (0 ≤ k < Z.of_nat L)%Z →
  (∃ r, r ∈ records d ∧ country r = "") →
  Data.sum d h k = Some (wrap (zsum (column h k (records d)))) ∧
  Data.reduce d h = None.
Proof.
  intros Hwf HL Hk Hr. split.
  - rewrite sum_unfold. destruct (Z.ltb_spec k 0); [lia|].
    apply (sum_loop_wf h L); [by destruct Hwf|done].
  - by apply (reduce_unnamed d h L).
Qed.

(** C4.  [reduce] is idempotent: reducing what [reduce] returned gives the
    same dataset again, leaves its records where they are and writes
    nothing to the store; and it panics only if the first call did. *)
Theorem reduce_idempotent (d : data) (h : heap) :
  (Data.reduce d h ≫= λ '(_, R, h'), Data.reduce R h')
  = (Data.reduce d h ≫= λ '(_, R, h'), Some (records R, R, h')).
Proof.
  destruct (Data.reduce d h) as [[[recs R] h']|] eqn:Hred; simpl; [|done].
  by apply (reduce_again d h recs).
Qed.

(** C6.  After [reduce] and [sort] the records are in non-increasing order
    of the count of the latest day, [a.cases[-1] >= b.cases[-1]] for every
    adjacent pair, and the top-N block writes the first [n] of them, for
    every dataset whose case sequences have one length [L].  [sort] and
    the block do return when there is a latest day, [0 < L]. *)
Theorem topN_descending (d : data) (h : heap) (L : nat) recs R h' :
  equal_length h L (records d) →
  Data.reduce d h = Some (recs, R, h') →
  ((0 < L)%nat → is_Some (Data.sort R h')) ∧
  ∀ top, Data.sort R h' = Some top →
    top ≡ₚ records R ∧ descending h' top ∧
    (∀ n rows, topN n d h = Some rows →
       length rows = n ∧
       ∀ i r, take n top !! i = Some r →
         ∃ x, latest h' r = Some x ∧ rows !! i = Some (S i, country r, x)) ∧
    (∀ n, (0 < L)%nat → (n ≤ length top)%nat → is_Some (topN n d h)).
Proof.
  intros Heq Hred.
  pose proof (reduce_equal_length d h L recs R h' Heq Hred) as HeqR.
  split.
  { intros HL. destruct (sort_spec R h' L HeqR HL) as (top & -> & _).
    by eexists. }
  intros top Hsort. pose proof (sort_perm _ _ _ Hsort) as Hp.
  assert (equal_length h' L top) as Heqtop.
  { unfold equal_length. by rewrite Hp. }
  split_and!; [done| | |].
  - destruct (decide (0 < L)%nat) as [HL|HL].
    + destruct (sort_spec R h' L HeqR HL) as (top' & Hsort' & _ & Hsorted).
      assert (top' = top) as -> by congruence.
      by apply (sorted_descending h' L).
    + assert (L = 0)%nat as -> by lia.
      pose proof (sort_no_day R h' top HeqR Hsort) as Hshort.
      intros i a b Ha Hb. apply lookup_lt_Some in Hb. lia.
  - intros n rows. unfold topN. rewrite Hred. simpl. rewrite Hsort. simpl.
    by intros (_ & ? & ?)%top_rows_Some.
  - intros n HL Hn. unfold topN. rewrite Hred. simpl. rewrite Hsort. simpl.
    apply top_rows_is_Some; [done|].
    apply Forall_forall. intros r Hr.
    destruct (latest_equal_length h' L top r) as [-> _]; [done..|by eexists].
Qed.

(** C7.  The top-N block is defined only if the reduced dataset has at
    least [n] records: with fewer, [rconf.records[i]] is read out of
    bounds and the block panics.  Nothing clamps [n]. *)
Theorem topN_needs_n_records (n : nat) (d : data) (h : heap) :
  (∀ rows, topN n d h = Some rows →
     ∃ recs R h', Data.reduce d h = Some (recs, R, h') ∧
                  (n ≤ length (records R))%nat) ∧
  (∀ recs R h', Data.reduce d h = Some (recs, R, h') →
     (length (records R) < n)%nat → topN n d h = None).
Proof.
  split.
  - intros rows (recs & R & h' & top & Hred & _ & _ & Hn)%topN_Some.
    by exists recs, R, h'.
  - intros recs R h' Hred Hn. by apply (topN_short n d h recs R h').
Qed.

(** C9.  [filter] does not find the country on every dataset in which it
    occurs under one spelling: it starts with [d.reduce()], so a record
    without country name anywhere in the dataset makes it panic, whatever
    the country asked for. *)
Theorem filter_panics_on_unnamed (d : data) (h : heap) (L : nat) (c : string) :
  wf h L (records d) → (0 < L)%nat →
  (∃ r, r ∈ records d ∧ country r = "") →
  Data.filter d h c = None.
Proof.
  intros Hwf HL Hr. unfold Data.filter.
  by rewrite (reduce_unnamed d h L).
Qed.

(** C10.  With a negative offset [c], [sum] reads
    [len(d.records[0].cases) + c] of every record: it returns exactly when
    there is a first record and that index is in range for every record.
    On a dataset without records [sum] panics, and so does
    [printCases]. *)
Theorem sum_negative_offset (d : data) (h : heap) (c : Z) :
  (c < 0)%Z →
  Data.sum d h c
  = (r0 ← records d !! 0%nat; v0 ← load h (cases r0);
     sum_loop h (Z.of_nat (length v0) + c) 0 (records d)) ∧
  (is_Some (Data.sum d h c) ↔
   ∃ r0 v0, records d !! 0%nat = Some r0 ∧ load h (cases r0) = Some v0 ∧
     Forall (λ r, ∃ v, load h (cases r) = Some v ∧
               (0 ≤ Z.of_nat (length v0) + c < Z.of_nat (length v))%Z)
            (records d)) ∧
  (records d = [] → Data.sum d h c = None ∧ Data.printCases d h = None).
Proof.
  intros Hc. split_and!.
  - by apply sum_negative.
  - by apply sum_negative_is_Some.
  - intros Hd. split; [by apply sum_negative_empty|by apply printCases_empty].
Qed.
End claims.

(** C5.  A dataset that [decode] returns has the first row of the table
    for header, and each record has one case count per column after the
    first four: [len(d.header) = 4 + len(r.cases)].  [convertAndSave] is
    the same function. *)
Theorem decode_header_length `{!CsvOk P} path rd save fs h d h' fs' :
  decode path rd save fs h = Done (d, h', fs') ∨
  convertAndSave save path rd fs h = Done (d, h', fs') →
  (∃ content rr, DecodeString rd = Some content ∧
                 ReadAll content = Some rr ∧ rr !! 0%nat = Some (header d)) ∧
  Forall (λ r, ∃ v, load h' (cases r) = Some v ∧
                    length (header d) = (4 + length v)%nat) (records d).
Proof.
  intros Hdec. assert (decode path rd save fs h = Done (d, h', fs')) as Hd.
  { by destruct Hdec. }
  destruct (decode_spec _ _ _ _ _ _ _ _ Hd)
    as (content & rr & Hc & Hrr & Hhdr & _ & [Hwf _] & Hlen & _).
  split; [by eauto|].
  apply Forall_forall. intros r Hr. rewrite Forall_forall in Hwf.
  destruct (has_cases_of _ _ _ (Hwf r Hr)) as (Hload & Hl & _).
  exists (cases_of h' r). split; [done|]. rewrite Hl.
  assert (4 ≤ length (header d))%nat; [|lia].
  apply Hlen. intros E. rewrite E in Hr. by apply elem_of_nil in Hr.
Qed.

(** * The fetcher *)

Lemma slow_client_ok : ClientOk slow_client.
Proof.
  intros ctx t owner repo path d Hc Hd Hlate. simpl in *.
  rewrite Hd, Hc. destruct (Z.ltb_spec d (t + 11 * Second)); [done|lia].
Qed.

Lemma WithTimeout_deadline ctx now d :
  ∃ t, deadline (WithTimeout ctx now d) = Some t ∧ t ≤ now + d.
Proof.
  unfold WithTimeout. simpl. destruct (deadline ctx) as [t|].
  - exists (Z.min t (now + d)). split; [done|lia].
  - exists (now + d). split; [done|lia].
Qed.

Section fetcher.
Context {C : Client} {ok : ClientOk C}.

End fetcher.

(** * The claims on the sample data *)

Lemma sample_wf : wf sample_heap 3 (records sample).
Proof. compute_done. Qed.

Lemma unnamed_wf : wf unnamed_heap 3 (records unnamed).
Proof. compute_done. Qed.

Lemma sample_named : Forall (λ r, country r ≠ "") (records sample).
Proof. compute_done. Qed.

Lemma unnamed_has_unnamed : ∃ r, r ∈ records unnamed ∧ country r = "".
Proof. exists (region "" "" 0). split; [by left|done]. Qed.

Lemma reduce_panics_iff_unnamed_witness :
  Data.reduce (srt := insertion_sort) unnamed unnamed_heap = None
  ↔ ∃ r, r ∈ records unnamed ∧ country r = "".
Proof.
  apply (@reduce_panics_iff_unnamed insertion_sort insertion_sort_ok
           unnamed unnamed_heap 3); [exact unnamed_wf|lia].
Defined.

Lemma sum_defined_reduce_panics_witness :
  Data.sum unnamed unnamed_heap 0 = Some 3 ∧
  Data.reduce (srt := insertion_sort) unnamed unnamed_heap = None.
Proof.
  apply (@sum_defined_reduce_panics insertion_sort insertion_sort_ok
           unnamed unnamed_heap 3 0);
    [exact unnamed_wf|lia|lia|exact unnamed_has_unnamed].
Defined.

(** C3.  [reduce] changes its source: on the sample the records come back
    in another order, and the array of the record of "Country A" that
    sorting puts first holds 5, 7, 9 where it held 1, 2, 3. *)
Lemma reduce_changes_source :
  Data.reduce (srt := insertion_sort) sample sample_heap
  = Some ([region "East" "Country A" 1; region "West" "Country A" 2;
           region "" "Country B" 0],
          {| header := sample_header;
             records := [region "East" "Country A" 1;
                         region "" "Country B" 0] |},
          [[0; 0; 1]; [5; 7; 9]; [4; 5; 6]]) ∧
  [region "East" "Country A" 1; region "West" "Country A" 2;
   region "" "Country B" 0] ≠ records sample ∧
  cases_of [[0; 0; 1]; [5; 7; 9]; [4; 5; 6]] <$> records sample
  ≠ cases_of sample_heap <$> records sample.
Proof. split_and!; [by vm_compute|discriminate|by vm_compute]. Qed.

Lemma reduce_source_after_call_witness :
  ∃ recs R h',
    Data.reduce (srt := insertion_sort) sample sample_heap
    = Some (recs, R, h') ∧
    header R = header sample ∧
    recs ≡ₚ records sample ∧ sorted_by country_less recs ∧
    records R `sublist_of` recs ∧
    length h' = length sample_heap ∧
    (∀ r, r ∈ records R →
       cases_of h' r
       = country_total sample_heap 3 (country r) (records sample)) ∧
    (∀ r, r ∈ recs → r ∉ records R → cases_of h' r = cases_of sample_heap r) ∧
    (∀ l, l ∉ locs (records sample) → h' !! l = sample_heap !! l).
Proof.
  apply (@reduce_source_after_call insertion_sort insertion_sort_ok
           sample sample_heap 3); [exact sample_wf|exact sample_named].
Defined.

Lemma reduce_idempotent_witness :
  (Data.reduce (srt := insertion_sort) sample sample_heap
     ≫= λ '(_, R, h'), Data.reduce (srt := insertion_sort) R h')
  = (Data.reduce (srt := insertion_sort) sample sample_heap
     ≫= λ '(_, R, h'), Some (records R, R, h')).
Proof.
  apply (@reduce_idempotent insertion_sort insertion_sort_ok
           sample sample_heap).
Defined.

Lemma decode_header_length_witness :
  (∃ content rr,
     DecodeString (Platform := plain_platform) sample_csv = Some content ∧
     ReadAll (Platform := plain_platform) content = Some rr ∧
     rr !! 0%nat = Some (header sample_decoded)) ∧
  Forall (λ r, ∃ v, load [[1; 2]; [444; 549]] (cases r) = Some v ∧
                    length (header sample_decoded) = (4 + length v)%nat)
         (records sample_decoded).
Proof.
  apply (@decode_header_length plain_platform plain_platform_ok
           "confirmed.csv" sample_csv true [] [] sample_decoded
           [[1; 2]; [444; 549]] [("confirmed.csv", sample_csv)]).
  left. by vm_compute.
Defined.

Lemma topN_descending_witness :
  ((0 < 3)%nat →
   is_Some (Data.sort (srt := insertion_sort)
              {| header := sample_header;
                 records := [region "East" "Country A" 1;
                             region "" "Country B" 0] |}
              [[0; 0; 1]; [5; 7; 9]; [4; 5; 6]])) ∧
  ∀ top,
    Data.sort (srt := insertion_sort)
      {| header := sample_header;
         records := [region "East" "Country A" 1; region "" "Country B" 0] |}
      [[0; 0; 1]; [5; 7; 9]; [4; 5; 6]] = Some top →
    top ≡ₚ [region "East" "Country A" 1; region "" "Country B" 0] ∧
    descending [[0; 0; 1]; [5; 7; 9]; [4; 5; 6]] top ∧
    (∀ n rows,
       topN (srt := insertion_sort) n sample sample_heap = Some rows →
       length rows = n ∧
       ∀ i r, take n top !! i = Some r →
         ∃ x, latest [[0; 0; 1]; [5; 7; 9]; [4; 5; 6]] r = Some x ∧
              rows !! i = Some (S i, country r, x)) ∧
    (∀ n, (0 < 3)%nat → (n ≤ length top)%nat →
       is_Some (topN (srt := insertion_sort) n sample sample_heap)).
Proof.
  apply (@topN_descending insertion_sort insertion_sort_ok sample sample_heap 3
           [region "East" "Country A" 1; region "West" "Country A" 2;
            region "" "Country B" 0]).
  - compute_done.
  - by vm_compute.
Defined.

Lemma topN_needs_n_records_witness :
  (∀ rows, top10 (srt := insertion_sort) sample sample_heap = Some rows →
     ∃ recs R h',
       Data.reduce (srt := insertion_sort) sample sample_heap
       = Some (recs, R, h') ∧ (10 ≤ length (records R))%nat) ∧
  (∀ recs R h',
     Data.reduce (srt := insertion_sort) sample sample_heap
     = Some (recs, R, h') →
     (length (records R) < 10)%nat →
     top10 (srt := insertion_sort) sample sample_heap = None).
Proof.
  apply (@topN_needs_n_records insertion_sort insertion_sort_ok 10
           sample sample_heap).
Defined.

Lemma filter_panics_on_unnamed_witness :
  Data.filter (srt := insertion_sort) (fld := ascii_folding)
    unnamed unnamed_heap "us" = None.
Proof.
  apply (@filter_panics_on_unnamed insertion_sort insertion_sort_ok
           ascii_folding unnamed unnamed_heap 3 "us");
    [exact unnamed_wf|lia|exact unnamed_has_unnamed].
Defined.

Lemma sum_negative_offset_witness :
  Data.sum sample sample_heap (-1)
  = (r0 ← records sample !! 0%nat; v0 ← load sample_heap (cases r0);
     sum_loop sample_heap (Z.of_nat (length v0) + -1) 0 (records sample)) ∧
  (is_Some (Data.sum sample sample_heap (-1)) ↔
   ∃ r0 v0, records sample !! 0%nat = Some r0 ∧
     load sample_heap (cases r0) = Some v0 ∧
     Forall (λ r, ∃ v, load sample_heap (cases r) = Some v ∧
               (0 ≤ Z.of_nat (length v0) + -1 < Z.of_nat (length v))%Z)
            (records sample)) ∧
  (records sample = [] →
   Data.sum sample sample_heap (-1) = None ∧
   Data.printCases sample sample_heap = None).
Proof. apply (sum_negative_offset sample sample_heap (-1)). lia. Defined.

Lemma reduce_by_country_witness :
  ∃ recs R h',
    Data.reduce (srt := insertion_sort) sample sample_heap
    = Some (recs, R, h') ∧
    header R = header sample ∧
    increasing (records R) ∧
    NoDup (country <$> records R) ∧
    (∀ c, c ∈ country <$> records R ↔ c ∈ country <$> records sample) ∧
    (∀ r, r ∈ records R →
       cases_of h' r
       = country_total sample_heap 3 (country r) (records sample)).
Proof.
  apply (@reduce_by_country insertion_sort insertion_sort_ok
           sample sample_heap 3); [exact sample_wf|exact sample_named].
Defined.

Lemma reduce_preserves_sum_witness :
  ∃ recs R h',
    Data.reduce (srt := insertion_sort) sample sample_heap
    = Some (recs, R, h') ∧
    Data.sum R h' (-1) = Data.sum sample sample_heap (-1) ∧
    (records sample ≠ [] → is_Some (Data.sum sample sample_heap (-1))).
Proof.
  apply (@reduce_preserves_sum insertion_sort insertion_sort_ok
           sample sample_heap 3 (-1));
    [exact sample_wf|exact sample_named|lia].
Defined.

Lemma filter_found_witness :
  ∃ recs r h',
    Data.filter (srt := insertion_sort) (fld := ascii_folding)
      sample sample_heap "country a" = Some (recs, (r, true), h') ∧
    country r = "Country A" ∧
    load h' (cases r)
    = Some (country_total sample_heap 3 "Country A" (records sample)).
Proof.
  apply (@filter_found insertion_sort insertion_sort_ok ascii_folding
           sample sample_heap 3 "country a" "Country A").
  - exact sample_wf.
  - exact sample_named.
  - exists (region "East" "Country A" 1). split; [|done]. right. by left.
  - intros r Hr. simpl in Hr.
    repeat (apply elem_of_cons in Hr as [->|Hr]); try done.
    by apply elem_of_nil in Hr.
Defined.

(** What [decode] builds is well formed: here on the sample table. *)
Example sample_decoded_wf :
  ∃ content rr,
    DecodeString (Platform := plain_platform) sample_csv = Some content ∧
    ReadAll (Platform := plain_platform) content = Some rr ∧
    rr !! 0%nat = Some (header sample_decoded) ∧
    length (records sample_decoded) = (length rr - 1)%nat ∧
    wf [[1; 2]; [444; 549]] (length (header sample_decoded) - 4)
       (records sample_decoded) ∧
    (records sample_decoded ≠ [] → 4 ≤ length (header sample_decoded))%nat ∧
    ∃ ext, [[1; 2]; [444; 549]] = [] ++ ext.
Proof.
  apply (@decode_spec plain_platform plain_platform_ok
           "confirmed.csv" sample_csv true [] [] sample_decoded
           [[1; 2]; [444; 549]] [("confirmed.csv", sample_csv)]).
  by vm_compute.
Qed.

(** The scenario of the specification: the reduced dataset has 5, 7, 9 for
    "Country A" and 0, 0, 1 for "Country B"; the total of the latest day
    is 10 and the change of the day is 3. *)
Example sample_scenario :
  (Data.reduce (srt := insertion_sort) sample sample_heap
     ≫= λ '(_, R, h'), Some ((λ r, (country r, cases_of h' r)) <$> records R))
  = Some [("Country A", [5; 7; 9]); ("Country B", [0; 0; 1])] ∧
  Data.printCases sample sample_heap = Some (10, 3).
Proof. split; by vm_compute. Qed.

(** What the change of the source costs: [main] runs the top-10 block on
    the dataset that [filter] has already reduced in place when both a
    country and a ranking are asked for, and then ranks "Country A" with
    15 cases on the latest day where the block alone ranks it with 9. *)
Example top_after_filter :
  topN (srt := insertion_sort) 2 sample sample_heap
  = Some [(1%nat, "Country A", 9); (2%nat, "Country B", 1)] ∧
  (Data.filter (srt := insertion_sort) (fld := ascii_folding)
     sample sample_heap "COUNTRY B"
     ≫= λ '(recs, _, h'),
       topN (srt := insertion_sort) 2
         {| header := sample_header; records := recs |} h')
  = Some [(1%nat, "Country A", 15); (2%nat, "Country B", 1)].
Proof. split; by vm_compute. Qed.


(** A transport that takes eleven seconds: the run ends with the message
    of the other transport errors, not with that of the timeout branch,
    after its only request. *)
Example getRemote_slow_transport :
  getRemote (C := slow_client) Background "confirmed.csv" 0 5
  = (Fatal "cannot get data: context deadline exceeded",
     [{| req_ctx := {| deadline := Some 10000000000; canceled := false |};
         req_at := 5;
         req_path := "csse_covid_19_data/csse_covid_19_time_series/confirmed.csv" |}]) ∧
  (getRemote (C := slow_client) Background "confirmed.csv" 0 5).1
  ≠ Fatal "Cannot get data: context deadline exceeded".
Proof. split; [by vm_compute|by vm_compute]. Qed.

(** * Further properties of the decoder *)

Section decoder_content.
Context {P : Platform}.

(** The inner loop of [decode] converts the fields [row[j .. j+n-1]]. *)
Lemma decode_cases_Done row : ∀ n j acc v,
  decode_cases row j n acc = Done v ↔
  (n ≠ 0 → j + n ≤ length row)%nat ∧
  ∃ xs, mapM Atoi (take n (drop j row)) = Some xs ∧ v = acc ++ xs.
Proof.
  induction n as [|n IH]; intros j acc v; simpl.
  { split.
    - intros [= <-]. split; [done|]. exists []. by rewrite app_nil_r.
    - intros (_ & xs & [= <-] & ->). by rewrite app_nil_r. }
  rewrite bind_Done. split.
  - intros (f & Hf%or_panic_Done & (x & Hx%or_exit_Done & Hrest)%bind_Done).
    apply IH in Hrest as (Hlen & xs & Hxs & ->).
    pose proof (lookup_lt_Some _ _ _ Hf) as Hj.
    split.
    { intros _. destruct n; [lia|]. specialize (Hlen ltac:(done)). lia. }
    exists (x :: xs). rewrite (drop_S _ _ _ Hf). simpl.
    rewrite Hx. simpl. rewrite Hxs. simpl. split; [done|].
    by rewrite <-app_assoc.
  - intros (Hlen & xs & Hxs & ->). specialize (Hlen ltac:(done)).
    destruct (lookup_lt_is_Some_2 row j) as [f Hf]; [lia|].
    rewrite (drop_S _ _ _ Hf) in Hxs. simpl in Hxs.
    destruct (Atoi f) as [x|] eqn:Hx; simpl in Hxs; [|done].
    destruct (mapM Atoi (take n (drop (S j) row))) as [xs'|] eqn:Hxs';
      simpl in Hxs; [|done].
    injection Hxs as <-. exists f. split; [by apply or_panic_Done|].
    apply bind_Done. exists x. split; [by apply or_exit_Done|].
    apply IH. split; [intros; lia|]. exists xs'. split; [done|].
    by rewrite <-app_assoc.
Qed.

Lemma atof_Done s x : atof s = Done x ↔ ParseFloat32 s = Some x.
Proof. apply or_exit_Done. Qed.

Lemma new_slice_load v h s h' :
  new_slice v h = (s, h') →
  load h' s = Some v ∧ (∃ ext, h' = h ++ ext) ∧
  ∀ l, s = Arr l → (length h ≤ l < length h')%nat.
Proof.
  unfold new_slice. destruct v as [|x v]; intros [= <- <-]; simpl.
  - split_and!; [done|by exists []; rewrite app_nil_r|done].
  - rewrite list_lookup_middle by done.
    split_and!; [done|by eexists|]. intros l [= <-].
    rewrite length_app. simpl. lia.
Qed.

Lemma load_ext h ext s v : load h s = Some v → load (h ++ ext) s = Some v.
Proof.
  destruct s as [|l]; simpl; [done|]. apply lookup_app_l_Some.
Qed.

Lemma decode_row_Done n0 recs h row recs' h' :
  decode_row n0 (recs, h) row = Done (recs', h') ↔
  ∃ r v, row_record n0 row r v ∧ (n0 - 4 ≠ 0 → n0 ≤ length row)%nat ∧
         new_slice v h = (cases r, h') ∧ recs' = recs ++ [r].
Proof.
  unfold decode_row, row_record. split.
  - intros (v & (Hlen & xs & Hxs & ->)%decode_cases_Done & Hrest)%bind_Done.
    apply bind_Done in Hrest as (p & Hp%or_panic_Done & Hrest).
    apply bind_Done in Hrest as (c & Hc%or_panic_Done & Hrest).
    apply bind_Done in Hrest as (f2 & Hf2%or_panic_Done & Hrest).
    apply bind_Done in Hrest as (la & Hla%atof_Done & Hrest).
    apply bind_Done in Hrest as (f3 & Hf3%or_panic_Done & Hrest).
    apply bind_Done in Hrest as (lo & Hlo%atof_Done & Hrest).
    destruct (new_slice ([] ++ xs) h) as [s h1] eqn:Hnew.
    injection Hrest as <- <-. simpl in Hnew.
    eexists {| province := p; country := c; lat := la; long := lo;
               cases := s |}, xs. simpl.
    rewrite Hf2, Hf3. simpl. split_and!; try done. intros. lia.
  - intros ([p c la lo s] & v & (Hp & Hc & Hla & Hlo & Hv) & Hlen & Hnew & ->).
    simpl in *. apply bind_Done. exists v. split.
    { apply decode_cases_Done. split; [intros; lia|]. by exists v. }
    rewrite Hp, Hc. simpl.
    destruct (row !! 2%nat) as [f2|]; simpl in *; [|done].
    apply atof_Done in Hla. rewrite Hla. simpl.
    destruct (row !! 3%nat) as [f3|]; simpl in *; [|done].
    apply atof_Done in Hlo. rewrite Hlo. simpl.
    by rewrite Hnew.
Qed.

Lemma decode_rows_content n0 rows : ∀ recs h recs' h',
  decode_rows n0 (recs, h) rows = Done (recs', h') →
  ∃ rs, recs' = recs ++ rs ∧ (∃ ext, h' = h ++ ext) ∧
        Forall2 (λ row r, row_record n0 row r (cases_of h' r)) rows rs ∧
        Forall (λ l, length h ≤ l < length h')%nat (locs rs).
Proof.
  induction rows as [|row rows IH]; intros recs h recs' h'; simpl.
  { intros [= <- <-]. exists []. rewrite app_nil_r.
    split_and!; [done|by exists []; rewrite app_nil_r|constructor..]. }
  intros ([recs1 h1] & Hrow & Hrows)%bind_Done.
  apply decode_row_Done in Hrow as (r & v & Hrec & _ & Hnew & ->).
  apply new_slice_load in Hnew as (Hload & [ext ->] & Hloc).
  apply IH in Hrows as (rs & -> & [ext' ->] & Hall & Hlocs).
  exists (r :: rs). rewrite <-app_assoc. split; [done|].
  split; [by exists (ext ++ ext'); rewrite app_assoc|].
  split.
  - constructor; [|done]. unfold cases_of.
    by rewrite (load_ext _ ext' _ _ Hload).
  - unfold locs in *. simpl. unfold arr_loc at 1.
    destruct (cases r) as [|l] eqn:Hc.
    + eapply Forall_impl; [exact Hlocs|]. simpl. intros l.
      rewrite !length_app. lia.
    + constructor.
      * specialize (Hloc l eq_refl). rewrite !length_app in *. lia.
      * eapply Forall_impl; [exact Hlocs|]. simpl. intros l'.
        rewrite !length_app. lia.
Qed.

Lemma decode_rows_total n0 rows :
  Forall (λ row, (n0 - 4 ≠ 0 → n0 ≤ length row)%nat ∧
                 is_Some (row !! 0%nat) ∧ is_Some (row !! 1%nat) ∧
                 is_Some (row !! 2%nat ≫= ParseFloat32) ∧
                 is_Some (row !! 3%nat ≫= ParseFloat32) ∧
                 is_Some (mapM Atoi (take (n0 - 4) (drop 4 row)))) rows →
  ∀ recs h, ∃ recs' h', decode_rows n0 (recs, h) rows = Done (recs', h').
Proof.
  induction 1 as [|row rows (Hlen & [p Hp] & [c Hc] & [la Hla] & [lo Hlo] & [v Hv]) _ IH];
    intros recs h; simpl.
  { by eexists _, _. }
  destruct (new_slice v h) as [s h1] eqn:Hnew.
  destruct (IH (recs ++ [{| province := p; country := c; lat := la;
                            long := lo; cases := s |}]) h1) as (recs' & h' & Hrest).
  exists recs', h'. apply bind_Done. eexists (_, _). split; [|exact Hrest].
  apply decode_row_Done.
  exists {| province := p; country := c; lat := la; long := lo; cases := s |}, v.
  unfold row_record. simpl. split_and!; first [done|eassumption].
Qed.
End decoder_content.

Section decode_properties.
Context {P : Platform}.

Lemma decode_Done path rd save fs h d h' fs' :
  decode path rd save fs h = Done (d, h', fs') ↔
  ∃ content hdr rows,
    DecodeString rd = Some content ∧
    (if save
     then ∃ f, Create path fs = Some f ∧
               WriteString path content f = Some fs'
     else fs' = fs) ∧
    ReadAll content = Some (hdr :: rows) ∧ header d = hdr ∧
    decode_rows (length hdr) ([], h) rows = Done (records d, h').
Proof.
  unfold decode. split.
  - intros (content & Hcontent%or_exit_Done & Hrest)%bind_Done.
    apply bind_Done in Hrest as (fs1 & Hfs & Hrest).
    apply bind_Done in Hrest as (rr & Hrr%or_exit_Done & Hrest).
    apply bind_Done in Hrest as ([recs h1] & Hrows & Hrest).
    apply bind_Done in Hrest as (hdr & Hhdr%or_panic_Done & Hrest).
    injection Hrest as <- <- <-.
    destruct rr as [|hdr' rows]; [done|]. injection Hhdr as ->.
    exists content, hdr, rows. split_and!; try done.
    destruct save.
    + apply bind_Done in Hfs as (f & Hf%or_exit_Done & Hw%or_exit_Done).
      by exists f.
    + by injection Hfs.
  - intros (content & hdr & rows & Hcontent & Hfs & Hrr & Hhdr & Hrows).
    destruct d as [hdr' recs]. simpl in *. subst hdr'.
    rewrite Hcontent. simpl.
    assert ((if save
             then f ← or_exit "Cannot create file" (Create path fs);
                  or_exit "Cannot write to file" (WriteString path content f)
             else Done fs) = Done fs') as ->.
    { destruct save; [|by subst].
      destruct Hfs as (f & -> & Hw). simpl. by rewrite Hw. }
    simpl. rewrite Hrr. simpl. by rewrite Hrows.
Qed.

(** X4.  What [decode] returns: the header is the first row of the
    table, the records are made of the other rows in their order, field
    by field, and with [save] the decoded content has been written to
    [path]. *)
Theorem decode_content `{!CsvOk P} path rd save fs h d h' fs' :
  decode path rd save fs h = Done (d, h', fs') →
  ∃ content rr,
    DecodeString rd = Some content ∧ ReadAll content = Some rr ∧
    (if save
     then ∃ f, Create path fs = Some f ∧
               WriteString path content f = Some fs'
     else fs' = fs) ∧
    rr !! 0%nat = Some (header d) ∧
    Forall2 (λ row r,
               length row = length (header d) ∧
               row !! 0%nat = Some (province r) ∧
               row !! 1%nat = Some (country r) ∧
               row !! 2%nat ≫= ParseFloat32 = Some (lat r) ∧
               row !! 3%nat ≫= ParseFloat32 = Some (long r) ∧
               mapM Atoi (drop 4 row) = Some (cases_of h' r))
            (tail rr) (records d).
Proof.
  intros (content & hdr & rows & Hcontent & Hfs & Hrr & Hhdr & Hrows)%decode_Done.
  exists content, (hdr :: rows). split_and!; [done..|by rewrite Hhdr|].
  apply decode_rows_content in Hrows as (rs & Hrs & _ & Hall & _).
  simpl in Hrs. subst rs. simpl.
  assert (Forall (λ row, length row = length hdr) rows) as Hlen.
  { apply Forall_forall. intros row Hrow.
    apply (ReadAll_fields content (hdr :: rows) row Hrr). by right. }
  clear Hrr. revert Hlen. rewrite Hhdr.
  induction Hall as [|row r rows rs (Hp & Hc & Hla & Hlo & Hv) _ IH];
    [constructor|].
  intros [Hrow Hlen]%Forall_cons. constructor; [|by apply IH].
  split_and!; try done.
  rewrite take_ge in Hv; [done|]. rewrite length_drop. lia.
Qed.

(** X5.  [decode] and the store: it allocates one new array per record
    with at least one count and touches nothing else, so the records it
    returns are well formed, their arrays are new, and the arrays of the
    store it was called in are still there with their contents.  A table
    with data rows has at least four columns. *)
Theorem decode_store `{!CsvOk P} path rd save fs h d h' fs' :
  decode path rd save fs h = Done (d, h', fs') →
  wf h' (length (header d) - 4) (records d) ∧
  Forall (λ l, length h ≤ l < length h')%nat (locs (records d)) ∧
  (∀ s v, load h s = Some v → load h' s = Some v) ∧
  (records d ≠ [] → 4 ≤ length (header d))%nat.
Proof.
  intros (content & hdr & rows & Hcontent & Hfs & Hrr & Hhdr & Hrows)%decode_Done.
  rewrite Hhdr.
  pose proof Hrows as (rs & Hrs & _ & _ & Hlocs)%decode_rows_content.
  simpl in Hrs. subst rs.
  apply decode_rows_spec in Hrows as (Hwf & _ & Hlen & Hrowlen & [ext ->]).
  - split_and!; [done..| |].
    + intros s v. apply load_ext.
    + intros Hne. destruct rows as [|row rows]; [by destruct (records d)|].
      apply Forall_cons in Hrowlen as [Hrowlen _].
      rewrite (ReadAll_fields content (hdr :: row :: rows) row) in Hrowlen;
        [done..|]. right. by left.
  - split; constructor.
  - constructor.
Qed.

(** X6.  Two datasets decoded one after the other, as [main] holds them
    after the join: both are well formed in the final store and no
    record of one shares its array with a record of the other. *)
Theorem decode_separate `{!CsvOk P} p1 rd1 p2 rd2 save fs h d1 h1 fs1 d2 h2 fs2 :
  decode p1 rd1 save fs h = Done (d1, h1, fs1) →
  decode p2 rd2 save fs1 h1 = Done (d2, h2, fs2) →
  wf h2 (length (header d1) - 4) (records d1) ∧
  wf h2 (length (header d2) - 4) (records d2) ∧
  (∀ r, r ∈ records d1 → cases_of h2 r = cases_of h1 r) ∧
  ∀ l, l ∈ locs (records d1) → l ∉ locs (records d2).
Proof.
  intros (c1 & hdr1 & rows1 & _ & _ & _ & Hhdr1 & Hrows1)%decode_Done
         (c2 & hdr2 & rows2 & _ & _ & _ & Hhdr2 & Hrows2)%decode_Done.
  rewrite Hhdr1, Hhdr2.
  pose proof Hrows1 as (rs1 & Hrs1 & _ & _ & Hlocs1)%decode_rows_content.
  pose proof Hrows2 as (rs2 & Hrs2 & _ & _ & Hlocs2)%decode_rows_content.
  simpl in Hrs1, Hrs2. subst rs1 rs2.
  apply decode_rows_spec in Hrows1 as (Hwf1 & _ & _ & _ & _);
    [|by split; constructor|constructor].
  apply decode_rows_spec in Hrows2 as (Hwf2 & _ & _ & _ & [ext ->]);
    [|by split; constructor|constructor].
  split_and!; [|done| |].
  - destruct Hwf1 as [Hall Hnd]. split; [|done].
    eapply Forall_impl; [exact Hall|]. intros r. apply has_cases_ext.
  - intros r Hr. destruct Hwf1 as [Hall _]. rewrite Forall_forall in Hall.
    destruct (has_cases_of _ _ _ (Hall r Hr)) as (Hload & _).
    unfold cases_of at 1. by rewrite (load_ext _ ext _ _ Hload).
  - intros l Hl1 Hl2. rewrite Forall_forall in Hlocs1, Hlocs2.
    specialize (Hlocs1 l Hl1). specialize (Hlocs2 l Hl2). lia.
Qed.

(** X7.  [decode] returns whenever the transport decoding, the file
    (with [save]) and the CSV reader succeed, the table has a first row
    and, if it has other rows, at least four columns, and every
    coordinate and count of every row converts. *)
Theorem decode_returns `{!CsvOk P} path rd save fs h content rr :
  DecodeString rd = Some content →
  (save = true →
   ∃ f, Create path fs = Some f ∧ is_Some (WriteString path content f)) →
  ReadAll content = Some rr → rr ≠ [] →
  (tail rr ≠ [] → 4 ≤ length (hd [] rr))%nat →
  Forall (λ row, is_Some (row !! 2%nat ≫= ParseFloat32) ∧
                 is_Some (row !! 3%nat ≫= ParseFloat32) ∧
                 is_Some (mapM Atoi (drop 4 row))) (tail rr) →
  ∃ d h' fs', decode path rd save fs h = Done (d, h', fs').
Proof.
  intros Hcontent Hsave Hrr Hne Hcols Hall.
  destruct rr as [|hdr rows]; [done|]. simpl in *.
  destruct (decode_rows_total (length hdr) rows) with (recs := @nil record) (h := h)
    as (recs & h' & Hrows).
  { apply Forall_forall. intros row Hrow.
    assert (length row = length hdr) as Hlen.
    { apply (ReadAll_fields content (hdr :: rows) row Hrr). by right. }
    assert (4 ≤ length hdr)%nat as H4.
    { apply Hcols. intros ->. by apply elem_of_nil in Hrow. }
    rewrite Forall_forall in Hall. destruct (Hall row Hrow) as (Hla & Hlo & Hv).
    split_and!; try done.
    - lia.
    - apply lookup_lt_is_Some. lia.
    - apply lookup_lt_is_Some. lia.
    - rewrite take_ge; [done|]. rewrite length_drop. lia. }
  assert (∃ fs', if save
                 then ∃ f, Create path fs = Some f ∧
                           WriteString path content f = Some fs'
                 else fs' = fs) as [fs' Hfs].
  { destruct save; [|by eexists].
    destruct (Hsave eq_refl) as (f & Hf & [fs' Hw]). by exists fs', f. }
  exists {| header := hdr; records := recs |}, h', fs'.
  apply decode_Done. exists content, hdr, rows. by split_and!.
Qed.
End decode_properties.

Lemma decode_content_witness :
  ∃ content rr,
    DecodeString (Platform := plain_platform) sample_csv = Some content ∧
    ReadAll (Platform := plain_platform) content = Some rr ∧
    (∃ f, Create (Platform := plain_platform) "confirmed.csv" [] = Some f ∧
          WriteString (Platform := plain_platform) "confirmed.csv" content f
          = Some [("confirmed.csv", sample_csv)]) ∧
    rr !! 0%nat = Some (header sample_decoded) ∧
    Forall2 (λ row r,
               length row = length (header sample_decoded) ∧
               row !! 0%nat = Some (province r) ∧
               row !! 1%nat = Some (country r) ∧
               row !! 2%nat ≫= ParseFloat32 (Platform := plain_platform)
               = Some (lat r) ∧
               row !! 3%nat ≫= ParseFloat32 (Platform := plain_platform)
               = Some (long r) ∧
               mapM Atoi (drop 4 row)
               = Some (cases_of [[1; 2]; [444; 549]] r))
            (tail rr) (records sample_decoded).
Proof.
  apply (@decode_content plain_platform plain_platform_ok
           "confirmed.csv" sample_csv true [] [] sample_decoded
           [[1; 2]; [444; 549]] [("confirmed.csv", sample_csv)]).
  by vm_compute.
Defined.

Lemma decode_store_witness :
  wf [[7]; [1; 2]; [444; 549]] (length (header sample_decoded) - 4)
     [region "" "US" 1; region "Hubei" "China" 2] ∧
  Forall (λ l, length [[7]] ≤ l < length [[7]; [1; 2]; [444; 549]])%nat
         (locs [region "" "US" 1; region "Hubei" "China" 2]) ∧
  (∀ s v, load [[7]] s = Some v →
          load [[7]; [1; 2]; [444; 549]] s = Some v) ∧
  ([region "" "US" 1; region "Hubei" "China" 2] ≠ [] →
   4 ≤ length (header sample_decoded))%nat.
Proof.
  apply (@decode_store plain_platform plain_platform_ok
           "confirmed.csv" sample_csv false [] [[7]]
           {| header := header sample_decoded;
              records := [region "" "US" 1; region "Hubei" "China" 2] |}
           [[7]; [1; 2]; [444; 549]] []).
  by vm_compute.
Defined.

Lemma decode_separate_witness :
  wf [[1; 2]; [444; 549]; [1; 2]; [444; 549]]
     (length (header sample_decoded) - 4) (records sample_decoded) ∧
  wf [[1; 2]; [444; 549]; [1; 2]; [444; 549]]
     (length (header sample_decoded) - 4)
     [region "" "US" 2; region "Hubei" "China" 3] ∧
  (∀ r, r ∈ records sample_decoded →
        cases_of [[1; 2]; [444; 549]; [1; 2]; [444; 549]] r
        = cases_of [[1; 2]; [444; 549]] r) ∧
  ∀ l, l ∈ locs (records sample_decoded) →
       l ∉ locs [region "" "US" 2; region "Hubei" "China" 3].
Proof.
  apply (@decode_separate plain_platform plain_platform_ok
           "confirmed.csv" sample_csv "deaths.csv" sample_csv false [] []
           sample_decoded [[1; 2]; [444; 549]] []
           {| header := header sample_decoded;
              records := [region "" "US" 2; region "Hubei" "China" 3] |}
           [[1; 2]; [444; 549]; [1; 2]; [444; 549]] []).
  - by vm_compute.
  - by vm_compute.
Defined.

Lemma decode_returns_witness :
  ∃ d h' fs',
    decode (P := plain_platform) "confirmed.csv" sample_csv true [] []
    = Done (d, h', fs').
Proof.
  apply (@decode_returns plain_platform plain_platform_ok
           "confirmed.csv" sample_csv true [] [] sample_csv
           (split_on "," <$> split_on "010" sample_csv)).
  - reflexivity.
  - intros _. exists []. split; [reflexivity|]. by eexists.
  - by vm_compute.
  - by vm_compute.
  - vm_compute. lia.
  - match goal with
    | |- Forall ?f ?l => let l' := eval vm_compute in l in change (Forall f l')
    end.
    repeat (apply Forall_cons; split; [split_and!; by eexists|]).
    by apply Forall_nil.
Defined.

(** * Further properties of [filter] *)

Lemma find_None {A} (f : A → bool) l :
  find f l = None → ∀ x, x ∈ l → f x = false.
Proof.
  induction l as [|a l IH]; simpl; intros Hf x Hx.
  - by apply elem_of_nil in Hx.
  - destruct (f a) eqn:Hfa; [done|].
    apply elem_of_cons in Hx as [->|Hx]; [done|by apply IH].
Qed.

Lemma sorted_by_after {A} (less : A → A → bool) l1 x l2 y :
  sorted_by less (l1 ++ x :: l2) → y ∈ l2 → less y x = false.
Proof.
  unfold sorted_by. intros Hs Hy.
  apply StronglySorted_app_1_r in Hs.
  apply StronglySorted_inv in Hs as [_ Hall].
  rewrite Forall_forall in Hall. by apply Hall.
Qed.

Section filter_properties.
Context {srt : SliceSort} {ok : SliceSortOk srt} {fld : Folding}.

(** X8.  [filter] on a dataset whose records carry country names: it
    returns; the flag tells whether some record matches [c]; without a
    match the record is the zero record; with a match the record comes
    from the dataset, matches [c], holds the total of its country, and
    its country is the first in byte order among the countries that
    match. *)
Theorem filter_spec d h L c :
  wf h L (records d) → Forall (λ r, country r ≠ "") (records d) →
  ∃ recs r b h',
    Data.filter d h c = Some (recs, (r, b), h') ∧
    recs ≡ₚ records d ∧
    (b = true ↔ ∃ x, x ∈ records d ∧ EqualFold (country x) c = true) ∧
    (b = false → r = zero_record) ∧
    (b = true →
     r ∈ records d ∧ EqualFold (country r) c = true ∧
     load h' (cases r) = Some (country_total h L (country r) (records d)) ∧
     ∀ x, x ∈ records d → EqualFold (country x) c = true →
          String.ltb (country x) (country r) = false).
Proof.
  intros Hwf Hnamed.
  destruct (reduce_spec d h L Hwf Hnamed)
    as (recs & R & h' & Hred & Hp & Hs & Hhd & HR & HI & Hlen & Htot & Hfr).
  destruct HI as [_ _ _ Hincr _ Hsub Hcover Hfirst].
  unfold Data.filter. rewrite Hred. simpl.
  destruct (find (λ r, EqualFold (country r) c) recs) as [r|] eqn:Hfind.
  - exists recs, r, true, h'. split_and!; [done..| |done|].
    { split; [|done]. intros _.
      destruct (find_first _ _ _ Hfind) as (l1 & l2 & Hrecs & Hr & _).
      exists r. split; [|done]. rewrite <-Hp, Hrecs.
      apply elem_of_app. right. by left. }
    intros _.
    destruct (find_first _ _ _ Hfind) as (l1 & l2 & Hrecs & Hr & Hl1).
    assert (r ∈ recs) as Hin.
    { rewrite Hrecs. apply elem_of_app. right. by left. }
    destruct (Hcover r Hin) as (y & Hy & Hyc).
    { rewrite Forall_forall in Hnamed. apply Hnamed. by rewrite <-Hp. }
    destruct (Hfirst y Hy) as (k1 & k2 & Hrecs' & Hk1).
    assert (r = y) as ->.
    { apply (first_of_country_unique (country y) l1 r l2 k1 y k2);
        try congruence.
      - intros z Hz Hzc.
        assert (EqualFold (country z) c = true) as Hzf by congruence.
        by rewrite (Hl1 z Hz) in Hzf.
      - intros z Hz. by apply Hk1. }
    split_and!; [by rewrite <-Hp|done|by apply Htot|].
    intros x Hx Hxf. rewrite <-Hp, Hrecs in Hx.
    apply elem_of_app in Hx as [Hx|Hx].
    { by rewrite (Hl1 x Hx) in Hxf. }
    apply elem_of_cons in Hx as [->|Hx]; [apply string_ltb_irrefl|].
    rewrite Hrecs in Hs.
    apply (sorted_by_after country_less l1 y l2 x Hs Hx).
  - exists recs, zero_record, false, h'. split_and!; [done..| |done|done].
    split; [done|]. intros (x & Hx & Hxf).
    rewrite <-Hp in Hx. by rewrite (find_None _ _ Hfind x Hx) in Hxf.
Qed.
End filter_properties.

Lemma filter_spec_witness :
  ∃ recs r b h',
    Data.filter (srt := insertion_sort) (fld := ascii_folding)
      sample sample_heap "country a" = Some (recs, (r, b), h') ∧
    recs ≡ₚ records sample ∧
    (b = true ↔ ∃ x, x ∈ records sample ∧
                     EqualFold (Folding := ascii_folding) (country x)
                       "country a" = true) ∧
    (b = false → r = zero_record) ∧
    (b = true →
     r ∈ records sample ∧
     EqualFold (Folding := ascii_folding) (country r) "country a" = true ∧
     load h' (cases r)
     = Some (country_total sample_heap 3 (country r) (records sample)) ∧
     ∀ x, x ∈ records sample →
          EqualFold (Folding := ascii_folding) (country x) "country a" = true →
          String.ltb (country x) (country r) = false).
Proof.
  apply (@filter_spec insertion_sort insertion_sort_ok ascii_folding
           sample sample_heap 3 "country a").
  - apply sample_wf.
  - apply sample_named.
Defined.

(** * Further properties of [sum] and [printCases] *)

Lemma wrap_shift z : ∃ k, wrap z = z + k * 2 ^ 64.
Proof.
  exists (- ((z + 2 ^ 63) / 2 ^ 64)). unfold wrap.
  rewrite Z.mod_eq by lia. lia.
Qed.

Lemma wrap_sub a b : subw (wrap a) (wrap b) = wrap (a - b).
Proof.
  unfold subw. destruct (wrap_shift a) as [ka ->].
  destruct (wrap_shift b) as [kb ->].
  replace (a + ka * 2 ^ 64 - (b + kb * 2 ^ 64))
    with (a - b + (ka - kb) * 2 ^ 64) by lia.
  unfold wrap.
  replace (a - b + (ka - kb) * 2 ^ 64 + 2 ^ 63)
    with (a - b + 2 ^ 63 + (ka - kb) * 2 ^ 64) by lia.
  by rewrite Z.mod_add by lia.
Qed.

Lemma column_perm h k recs recs' :
  recs ≡ₚ recs' → zsum (column h k recs) = zsum (column h k recs').
Proof.
  intros Hp. unfold zsum, column.
  apply foldr_permutation; [apply _|apply _|intros; lia|by rewrite Hp].
Qed.

Lemma has_cases_perm h L recs recs' :
  recs ≡ₚ recs' → Forall (has_cases h L) recs → Forall (has_cases h L) recs'.
Proof. by intros ->. Qed.

(** The index that [sum] reads for the argument [k]. *)
Lemma sum_in_range d h L k :
  Forall (has_cases h L) (records d) → records d ≠ [] →
  is_Some (Data.sum d h k) → - Z.of_nat L ≤ k < Z.of_nat L.
Proof.
  intros Hall Hne [s Hs]. rewrite sum_unfold in Hs.
  destruct (records d) as [|r0 recs] eqn:Hrecs; [done|].
  apply Forall_cons in Hall as [Hr0 Hall'].
  apply has_cases_load in Hr0 as (v0 & Hv0 & Hlen & _).
  destruct (k <? 0) eqn:Hk.
  - apply Z.ltb_lt in Hk. simpl in Hs. rewrite Hv0 in Hs. simpl in Hs.
    apply sum_loop_Some in Hs. apply Forall_cons in Hs as [Hr _].
    apply read_is_Some in Hr as (v & Hv & Hrange).
    rewrite Hv0 in Hv. injection Hv as <-. lia.
  - apply Z.ltb_ge in Hk.
    apply sum_loop_Some in Hs. apply Forall_cons in Hs as [Hr _].
    apply read_is_Some in Hr as (v & Hv & Hrange).
    rewrite Hv0 in Hv. injection Hv as <-. lia.
Qed.

Lemma sum_value d h L k :
  Forall (has_cases h L) (records d) → records d ≠ [] →
  - Z.of_nat L ≤ k < Z.of_nat L →
  Data.sum d h k
  = Some (wrap (zsum (column h (k `mod` Z.of_nat L) (records d)))).
Proof.
  intros Hall Hne Hk. rewrite sum_unfold.
  destruct (k <? 0) eqn:Hneg.
  - apply Z.ltb_lt in Hneg.
    destruct (records d) as [|r0 recs] eqn:Hrecs; [done|].
    pose proof Hall as [Hr0 _]%Forall_cons.
    apply has_cases_load in Hr0 as (v0 & Hv0 & Hlen & _).
    simpl. rewrite Hv0. simpl. rewrite Hlen.
    replace (k `mod` Z.of_nat L) with (Z.of_nat L + k).
    + apply (sum_loop_wf h L); [done|lia].
    + rewrite <-(Z.mod_add k 1) by lia. rewrite Z.mod_small; lia.
  - apply Z.ltb_ge in Hneg. rewrite Z.mod_small by lia.
    apply (sum_loop_wf h L); [done|lia].
Qed.

(** X9.  [sum] on a dataset with records, each with [L] counts: it
    returns exactly for the arguments [-L .. L-1], the result is the sum
    of the column [k mod L] reduced to a Go [int] once, whatever happens
    during the additions, and it does not depend on the order of the
    records. *)
Theorem sum_spec d h L k :
  Forall (has_cases h L) (records d) → records d ≠ [] →
  (is_Some (Data.sum d h k) ↔ - Z.of_nat L ≤ k < Z.of_nat L) ∧
  (- Z.of_nat L ≤ k < Z.of_nat L →
   Data.sum d h k
   = Some (wrap (zsum (column h (k `mod` Z.of_nat L) (records d))))) ∧
  (∀ d', records d' ≡ₚ records d → Data.sum d' h k = Data.sum d h k).
Proof.
  intros Hall Hne. split_and!.
  - split; [by apply sum_in_range|].
    intros Hk. rewrite (sum_value d h L k) by done. eauto.
  - by apply sum_value.
  - intros d' Hp.
    assert (Forall (has_cases h L) (records d')) as Hall'.
    { by apply (has_cases_perm h L (records d)). }
    assert (records d' ≠ []) as Hne'.
    { intros E. rewrite E in Hp. by apply Permutation_nil_l in Hp. }
    destruct (decide (- Z.of_nat L ≤ k < Z.of_nat L)) as [Hk|Hk].
    + rewrite (sum_value d h L k), (sum_value d' h L k) by done.
      by rewrite (column_perm h _ _ _ Hp).
    + destruct (Data.sum d h k) as [s|] eqn:Hs.
      { destruct Hk. apply (sum_in_range d h L); [done..|]. by rewrite Hs. }
      destruct (Data.sum d' h k) as [s'|] eqn:Hs'; [|done].
      destruct Hk. apply (sum_in_range d' h L); [done..|]. by rewrite Hs'.
Qed.

Lemma printCases_value d h L :
  Forall (has_cases h L) (records d) → records d ≠ [] → (2 ≤ L)%nat →
  Data.printCases d h
  = Some (wrap (zsum (column h (Z.of_nat L - 1) (records d))),
          wrap (zsum (column h (Z.of_nat L - 1) (records d))
                - zsum (column h (Z.of_nat L - 2) (records d)))).
Proof.
  intros Hall Hne HL. unfold Data.printCases.
  rewrite (sum_value d h L (-1)), (sum_value d h L (-2)) by (done || lia).
  assert ((-1) `mod` Z.of_nat L = Z.of_nat L - 1) as ->.
  { rewrite <-(Z.mod_add (-1) 1) by lia. rewrite Z.mod_small; lia. }
  assert ((-2) `mod` Z.of_nat L = Z.of_nat L - 2) as ->.
  { rewrite <-(Z.mod_add (-2) 1) by lia. rewrite Z.mod_small; lia. }
  csimpl. by rewrite wrap_sub.
Qed.

Lemma printCases_needs d h L :
  Forall (has_cases h L) (records d) → is_Some (Data.printCases d h) →
  records d ≠ [] ∧ (2 ≤ L)%nat.
Proof.
  intros Hall [[s n] Hs]. unfold Data.printCases in Hs.
  destruct (Data.sum d h (-1)) as [s1|] eqn:Hs1; [|done].
  destruct (Data.sum d h (-2)) as [s2|] eqn:Hs2; [|done].
  assert (records d ≠ []) as Hne.
  { intros E. rewrite sum_unfold, E in Hs1. done. }
  split; [done|].
  assert (- Z.of_nat L ≤ -2 < Z.of_nat L); [|lia].
  apply (sum_in_range d h L); [done..|]. by rewrite Hs2.
Qed.

(** X10.  [data.printCases] writes the total of the last day and its
    difference to the total of the day before, both as Go [int]s; it
    needs a record and two days, and panics without. *)
Theorem printCases_spec d h L :
  Forall (has_cases h L) (records d) →
  (is_Some (Data.printCases d h) ↔ records d ≠ [] ∧ (2 ≤ L)%nat) ∧
  (records d ≠ [] → (2 ≤ L)%nat →
   Data.printCases d h
   = Some (wrap (zsum (column h (Z.of_nat L - 1) (records d))),
           wrap (zsum (column h (Z.of_nat L - 1) (records d))
                 - zsum (column h (Z.of_nat L - 2) (records d))))).
Proof.
  intros Hall. split; [|by apply printCases_value].
  split; [by apply printCases_needs|].
  intros [Hne HL]. rewrite (printCases_value d h L) by done. eauto.
Qed.

Lemma sum_spec_witness :
  (is_Some (Data.sum sample sample_heap (-1))
   ↔ - Z.of_nat 3 ≤ -1 < Z.of_nat 3) ∧
  (- Z.of_nat 3 ≤ -1 < Z.of_nat 3 →
   Data.sum sample sample_heap (-1)
   = Some (wrap (zsum (column sample_heap ((-1) `mod` Z.of_nat 3)
                         (records sample))))) ∧
  (∀ d', records d' ≡ₚ records sample →
         Data.sum d' sample_heap (-1) = Data.sum sample sample_heap (-1)).
Proof.
  apply (sum_spec sample sample_heap 3 (-1)).
  - apply sample_wf.
  - done.
Defined.

Lemma printCases_spec_witness :
  (is_Some (Data.printCases sample sample_heap)
   ↔ records sample ≠ [] ∧ (2 ≤ 3)%nat) ∧
  (records sample ≠ [] → (2 ≤ 3)%nat →
   Data.printCases sample sample_heap
   = Some (wrap (zsum (column sample_heap (Z.of_nat 3 - 1) (records sample))),
           wrap (zsum (column sample_heap (Z.of_nat 3 - 1) (records sample))
                 - zsum (column sample_heap (Z.of_nat 3 - 2)
                          (records sample))))).
Proof.
  apply (printCases_spec sample sample_heap 3). apply sample_wf.
Defined.

(** * The two versions of the country report *)

Lemma List_filter_group (f : record → bool) c recs :
  (∀ r, r ∈ recs → f r = true ↔ country r = c) →
  List.filter f recs = group c recs.
Proof.
  unfold group. induction recs as [|r recs IH]; intros Hf; [done|].
  simpl. rewrite IH by (intros x Hx; apply Hf; by right).
  rewrite filter_cons. specialize (Hf r (list_elem_of_here _ _)).
  destruct (f r); destruct (decide (country r = c)) as [Hc|Hc]; try done.
  - destruct Hc. by apply Hf.
  - by apply Hf in Hc.
Qed.

Lemma List_filter_nonempty {A} (f : A → bool) l :
  (0 <? length (List.filter f l))%nat = true ↔ ∃ x, x ∈ l ∧ f x = true.
Proof.
  rewrite Nat.ltb_lt. split.
  - intros Hlen. destruct (List.filter f l) as [|x l'] eqn:Hl; [simpl in *; lia|].
    assert (In x (List.filter f l)) as Hin by (rewrite Hl; by left).
    apply filter_In in Hin as [Hin Hfx]. exists x.
    split; [by apply list_elem_of_In|done].
  - intros (x & Hx & Hfx).
    assert (In x (List.filter f l)) as Hin.
    { apply filter_In. split; [by apply list_elem_of_In|done]. }
    destruct (List.filter f l); [done|simpl; lia].
Qed.

Lemma has_cases_group h L c recs :
  Forall (has_cases h L) recs → Forall (has_cases h L) (group c recs).
Proof.
  unfold group. intros Hall. apply Forall_forall. intros r Hr.
  apply list_elem_of_filter in Hr as [_ Hr].
  rewrite Forall_forall in Hall. by apply Hall.
Qed.

Lemma record_printCases_read r h v :
  load h (cases r) = Some v →
  Record.printCases r h =
    s ← read h (cases r) (Z.of_nat (length v) - 1);
    s2 ← read h (cases r) (Z.of_nat (length v) - 2);
    Some (s, subw s s2).
Proof.
  intros Hv. unfold Record.printCases, read. rewrite Hv. done.
Qed.

(** The numbers that [record.printCases] writes for a record that holds
    the total of a country. *)
Lemma record_printCases_total r h h' L c recs :
  wf h L recs → load h' (cases r) = Some (country_total h L c recs) →
  Record.printCases r h' = Data.printCases {| header := []; records := group c recs |} h
  ∨ group c recs = [].
Proof.
  intros Hwf Hload.
  destruct (group c recs) as [|g gs] eqn:Hg; [by right|left].
  rewrite (record_printCases_read r h' _ Hload).
  rewrite (length_country_total h L c recs Hwf).
  assert (Forall (has_cases h L) (g :: gs)) as Hall.
  { rewrite <-Hg. apply has_cases_group, Hwf. }
  destruct (decide (2 ≤ L)%nat) as [HL|HL].
  - rewrite (printCases_value _ h L) by done.
    assert (∀ k, 0 ≤ k < Z.of_nat L →
              read h' (cases r) k
              = Some (wrap (zsum (day_of h k <$> group c recs)))) as Hread.
    { intros k Hk. by apply (read_country_total h h' L c recs). }
    rewrite !Hread by lia. csimpl. rewrite wrap_sub. simpl. by rewrite Hg.
  - destruct (Data.printCases _ h) as [x|] eqn:Hx.
    { destruct HL.
      apply (printCases_needs {| header := []; records := g :: gs |} h L Hall).
      by rewrite Hx. }
    assert (read h' (cases r) (Z.of_nat L - 2) = None) as ->.
    { destruct (read h' (cases r) (Z.of_nat L - 2)) as [s2|] eqn:Hs2; [|done].
      apply read_Some in Hs2 as (v & _ & ? & _). lia. }
    by destruct (read h' (cases r) (Z.of_nat L - 1)).
Qed.

Lemma printCases_records d d' h :
  records d = records d' → Data.printCases d h = Data.printCases d' h.
Proof.
  intros E. unfold Data.printCases, Data.sum. by rewrite E.
Qed.

Lemma first_match_is_head {fld : Folding} P rs c' c r :
  heads_inv P rs c' → Forall (λ r, country r ≠ "") P →
  find (λ r, EqualFold (country r) c) P = Some r → r ∈ rs.
Proof.
  intros [_ _ _ _ _ _ Hcover Hfirst] Hnamed Hfind.
  destruct (find_first _ _ _ Hfind) as (l1 & l2 & HP & Hr & Hl1).
  assert (r ∈ P) as Hin.
  { rewrite HP. apply elem_of_app. right. by left. }
  destruct (Hcover r Hin) as (y & Hy & Hyc).
  { rewrite Forall_forall in Hnamed. by apply Hnamed. }
  destruct (Hfirst y Hy) as (k1 & k2 & HP' & Hk1).
  assert (r = y) as ->; [|done].
  apply (first_of_country_unique (country y) l1 r l2 k1 y k2);
    try congruence.
  - intros z Hz Hzc.
    assert (EqualFold (country z) c = true) as Hzf by congruence.
    by rewrite (Hl1 z Hz) in Hzf.
  - intros z Hz. by apply Hk1.
Qed.

Section versions.
Context {srt : SliceSort} {ok : SliceSortOk srt} {fld : Folding}.

(** X11.  The country block of the two versions.  [covid.go] collects
    the records that match and sums them when it prints; the later
    version reduces the dataset in place and prints the first record
    that matches.  On records with country names they find a country
    under the same conditions, and when the records that match spell
    their country in one way they print the same title and the same two
    numbers, or panic both. *)
Theorem country_report_agrees d h L c :
  wf h L (records d) → Forall (λ r, country r ≠ "") (records d) →
  (∀ x y, x ∈ records d → y ∈ records d →
          EqualFold (country x) c = true → EqualFold (country y) c = true →
          country x = country y) →
  ∃ recs r b h',
    Data.filter d h c = Some (recs, (r, b), h') ∧
    (Legacy.filter d c).2 = b ∧
    (b = true →
     country <$> records (Legacy.filter d c).1 !! 0%nat = Some (country r) ∧
     Record.printCases r h' = Data.printCases (Legacy.filter d c).1 h).
Proof.
  intros Hwf Hnamed Hspell.
  destruct (reduce_spec d h L Hwf Hnamed)
    as (recs & R & h' & Hred & Hp & Hs & Hhd & HR & HI & Hlen & Htot & Hfr).
  unfold Data.filter. rewrite Hred. simpl.
  destruct (find (λ r, EqualFold (country r) c) recs) as [r|] eqn:Hfind.
  - exists recs, r, true, h'. split; [done|].
    destruct (find_first _ _ _ Hfind) as (l1 & l2 & Hrecs & Hr & _).
    assert (r ∈ records d) as Hin.
    { rewrite <-Hp, Hrecs. apply elem_of_app. right. by left. }
    assert (List.filter (λ r, EqualFold (country r) c) (records d)
            = group (country r) (records d)) as Hgroup.
    { apply List_filter_group. intros x Hx. split.
      - intros Hxf. by apply Hspell.
      - intros Hxc. by rewrite Hxc. }
    assert (r ∈ group (country r) (records d)) as Hing.
    { unfold group. by apply list_elem_of_filter. }
    split.
    { apply List_filter_nonempty. by exists r. }
    intros _. simpl. rewrite Hgroup. split.
    + destruct (group (country r) (records d)) as [|g gs] eqn:Hg.
      { by apply elem_of_nil in Hing. }
      assert (g ∈ group (country r) (records d)) as Hgin by (rewrite Hg; by left).
      unfold group in Hgin. apply list_elem_of_filter in Hgin as [Hgc _].
      simpl. by rewrite Hgc.
    + assert (r ∈ records R) as HrR.
      { apply (first_match_is_head recs _ _ c r HI); [|done].
        by rewrite Hp. }
      destruct (record_printCases_total r h h' L (country r) (records d) Hwf
                  (Htot r HrR)) as [Hpr|Hnil].
      * rewrite Hpr. by apply printCases_records.
      * rewrite Hnil in Hing. by apply elem_of_nil in Hing.
  - exists recs, zero_record, false, h'. split; [done|]. split; [|done].
    destruct (0 <? length _)%nat eqn:Hlen'; [|done].
    apply List_filter_nonempty in Hlen' as (x & Hx & Hxf).
    rewrite <-Hp in Hx. by rewrite (find_None _ _ Hfind x Hx) in Hxf.
Qed.
End versions.

(** * The top-N blocks, end to end *)

Lemma NoDup_same_length {A} (l k : list A) :
  NoDup l → NoDup k → (∀ x, x ∈ l ↔ x ∈ k) → length l = length k.
Proof.
  intros Hl Hk Hlk. apply Permutation_length. by apply NoDup_Permutation.
Qed.

Lemma sorted_by_lookup {A} (less : A → A → bool) l i j a b :
  sorted_by less l → l !! i = Some a → l !! j = Some b → (i < j)%nat →
  less b a = false.
Proof.
  intros Hs Ha Hb Hij.
  apply (StronglySorted_lookup (λ a b, less b a = false) l i j a b Hs Ha Hb Hij).
Qed.

Lemma more_cases_false h k a b :
  Data.more_cases h k b a = false → day_of h k b ≤ day_of h k a.
Proof. unfold Data.more_cases. intros ?%Z.ltb_ge. lia. Qed.

Section top_properties.
Context {srt : SliceSort} {ok : SliceSortOk srt}.

(** What [reduce] returns in terms of the countries of the source. *)
Lemma reduce_countries d h L :
  wf h L (records d) → Forall (λ r, country r ≠ "") (records d) →
  ∃ recs R h',
    Data.reduce d h = Some (recs, R, h') ∧
    NoDup (country <$> records R) ∧
    (∀ c, c ∈ country <$> records R ↔ c ∈ country <$> records d) ∧
    length (records R) = length (remove_dups (country <$> records d)) ∧
    equal_length h' L (records R) ∧
    ∀ r k, r ∈ records R → 0 ≤ k < Z.of_nat L →
      read h' (cases r) k
      = Some (wrap (zsum (day_of h k <$> group (country r) (records d)))).
Proof.
  intros Hwf Hnamed.
  destruct (reduce_spec d h L Hwf Hnamed)
    as (recs & R & h' & Hred & Hp & Hs & Hhd & HR & HI & Hlen & Htot & Hfr).
  exists recs, R, h'.
  destruct HI as [_ _ _ Hincr _ Hsub Hcover _].
  assert (∀ c, c ∈ country <$> records R ↔ c ∈ country <$> records d) as Hsame.
  { intros c. rewrite !list_elem_of_fmap. split.
    - intros (y & -> & Hy). exists y. split; [done|].
      rewrite <-Hp. by eapply elem_of_sublist.
    - intros (x & -> & Hx). rewrite <-Hp in Hx.
      destruct (Hcover x Hx) as (y & Hy & Hc); [|by eauto].
      rewrite Forall_forall in Hnamed. apply Hnamed. by rewrite <-Hp. }
  pose proof (increasing_NoDup _ Hincr) as Hnd.
  split_and!; [done..| | |].
  - rewrite <-(length_fmap country (records R)).
    apply NoDup_same_length; [done|apply NoDup_remove_dups|].
    intros c. by rewrite elem_of_remove_dups.
  - apply (reduce_equal_length d h L recs R h'); [|done].
    by apply wf_equal_length.
  - intros r k Hr Hk.
    apply (read_country_total h h' L (country r) (records d)); [done..|].
    by apply Htot.
Qed.

(** X12.  The top-N block on a dataset with country names and at least
    one day: it returns exactly when there are [n] distinct countries;
    it writes [n] rows ranked 1 to [n], each with a country of the
    dataset and the total of that country's last day, no country twice,
    in non-increasing order of the total; and no country left out has a
    larger total than a country shown. *)
Theorem top_countries n d h L :
  wf h L (records d) → Forall (λ r, country r ≠ "") (records d) →
  (0 < L)%nat →
  let total c :=
    wrap (zsum (day_of h (Z.of_nat L - 1) <$> group c (records d))) in
  (is_Some (topN n d h)
   ↔ (n ≤ length (remove_dups (country <$> records d)))%nat) ∧
  ∀ rows, topN n d h = Some rows →
    length rows = n ∧
    NoDup ((λ row, row.1.2) <$> rows) ∧
    (∀ i row, rows !! i = Some row →
       row.1.1 = S i ∧ row.1.2 ∈ country <$> records d ∧
       row.2 = total row.1.2) ∧
    (∀ i j a b, rows !! i = Some a → rows !! j = Some b → (i < j)%nat →
       b.2 ≤ a.2) ∧
    (∀ c row, c ∈ country <$> records d → c ∉ (λ row, row.1.2) <$> rows →
       row ∈ rows → total c ≤ row.2).
Proof.
  intros Hwf Hnamed HL total.
  destruct (reduce_countries d h L Hwf Hnamed)
    as (recs & R & h' & Hred & Hnd & Hsame & Hcount & Heq & Hread).
  destruct (sort_spec R h' L Heq HL) as (top & Hsort & Hp & Hsorted).
  assert (equal_length h' L top) as Heqtop.
  { unfold equal_length. by rewrite Hp. }
  assert (∀ r, r ∈ top → latest h' r = Some (total (country r)) ∧
                          day_of h' (Z.of_nat L - 1) r = total (country r))
    as Hlatest.
  { intros r Hr.
    destruct (latest_equal_length h' L top r Heqtop HL Hr) as [Hl Hrd].
    rewrite Hread in Hrd; [|by rewrite <-Hp|lia].
    injection Hrd as Hrd. rewrite Hl, <-Hrd. done. }
  assert (topN n d h = top_rows n top h') as Htop.
  { unfold topN. rewrite Hred. simpl. by rewrite Hsort. }
  rewrite Htop. split.
  { rewrite <-Hcount, <-(Permutation_length Hp). split.
    - intros [rows (Hn & _)%top_rows_Some]. done.
    - intros Hn. apply top_rows_is_Some; [done|].
      apply Forall_forall. intros r Hr.
      destruct (Hlatest r Hr) as [-> _]. by eexists. }
  intros rows (Hn & Hlen & Hrows)%top_rows_Some.
  assert (∀ i row, rows !! i = Some row →
            ∃ r, top !! i = Some r ∧ (i < n)%nat ∧
                 row = (S i, country r, total (country r))) as Hrow.
  { intros i row Hi.
    assert (i < n)%nat as Hin by (apply lookup_lt_Some in Hi; lia).
    destruct (lookup_lt_is_Some_2 top i) as [r Hr]; [lia|].
    exists r. split_and!; [done..|].
    destruct (Hrows i r) as (x & Hx & Hrowi).
    { by rewrite lookup_take_lt. }
    destruct (Hlatest r) as [Hl _]; [by eapply list_elem_of_lookup_2|].
    congruence. }
  assert (NoDup (country <$> top)) as Hndtop by (by rewrite Hp).
  split_and!; [done| | | |].
  - apply NoDup_alt. intros i j c Hi Hj.
    rewrite list_lookup_fmap in Hi, Hj.
    destruct (rows !! i) as [a|] eqn:Ha; [|done].
    destruct (rows !! j) as [b|] eqn:Hb; [|done].
    destruct (Hrow i a Ha) as (ra & Hra & _ & ->).
    destruct (Hrow j b Hb) as (rb & Hrb & _ & ->).
    simpl in Hi, Hj.
    apply (NoDup_lookup (country <$> top) i j c); [done|..];
      rewrite list_lookup_fmap; [rewrite Hra|rewrite Hrb]; done.
  - intros i row Hi. destruct (Hrow i row Hi) as (r & Hr & _ & ->). simpl.
    split_and!; [done| |done].
    apply Hsame, list_elem_of_fmap. exists r. split; [done|].
    rewrite <-Hp. by eapply list_elem_of_lookup_2.
  - intros i j a b Ha Hb Hij.
    destruct (Hrow i a Ha) as (ra & Hra & _ & ->).
    destruct (Hrow j b Hb) as (rb & Hrb & _ & ->). simpl.
    destruct (Hlatest ra) as [_ <-]; [by eapply list_elem_of_lookup_2|].
    destruct (Hlatest rb) as [_ <-]; [by eapply list_elem_of_lookup_2|].
    apply more_cases_false.
    apply (sorted_by_lookup _ top i j ra rb Hsorted Hra Hrb Hij).
  - intros c row Hc Hout Hin.
    apply list_elem_of_lookup in Hin as [i Hi].
    destruct (Hrow i row Hi) as (ra & Hra & Hin & ->). simpl.
    apply Hsame, list_elem_of_fmap in Hc as (rc & -> & Hrc).
    rewrite <-Hp in Hrc. apply list_elem_of_lookup in Hrc as [j Hj].
    destruct (decide (j < n)%nat) as [Hjn|Hjn].
    { destruct Hout. apply list_elem_of_fmap.
      destruct (lookup_lt_is_Some_2 rows j) as [b Hb]; [lia|].
      destruct (Hrow j b Hb) as (rb & Hrb & _ & ->).
      exists (S j, country rb, total (country rb)). split.
      - simpl. congruence.
      - by eapply list_elem_of_lookup_2. }
    destruct (Hlatest ra) as [_ <-]; [by eapply list_elem_of_lookup_2|].
    destruct (Hlatest rc) as [_ <-]; [by eapply list_elem_of_lookup_2|].
    apply more_cases_false.
    apply (sorted_by_lookup _ top i j ra rc Hsorted Hra Hj). lia.
Qed.

Lemma legacy_rows_Some n recs rows :
  mapM (Legacy.top_row recs) (seq 0 n) = Some rows →
  (n ≤ length recs)%nat ∧
  rows = imap (λ i r, (S i, country r)) (take n recs).
Proof.
  intros Hrows.
  assert (n ≤ length recs)%nat as Hn.
  { destruct (decide (n ≤ length recs)%nat) as [|Hn]; [done|].
    assert (mapM (Legacy.top_row recs) (seq 0 n) = None) as E; [|congruence].
    apply mapM_None, Exists_exists. exists (length recs). split.
    - apply elem_of_seq. lia.
    - unfold Legacy.top_row. by rewrite (lookup_ge_None_2 recs). }
  split; [done|].
  pose proof (length_mapM _ _ _ Hrows) as Hlen. rewrite length_seq in Hlen.
  apply mapM_Some_1 in Hrows. apply list_eq. intros i.
  rewrite list_lookup_imap.
  destruct (decide (i < n)%nat) as [Hi|Hi].
  - destruct (lookup_lt_is_Some_2 rows i) as [row Hrow]; [lia|].
    pose proof (Forall2_lookup_lr _ _ _ i i row Hrows) as Htop.
    rewrite lookup_seq in Htop. specialize (Htop (conj eq_refl Hi) Hrow).
    simpl in Htop. unfold Legacy.top_row in Htop.
    rewrite lookup_take_lt by done.
    destruct (recs !! i) as [r|]; [|done]. simpl in *. congruence.
  - rewrite (lookup_ge_None_2 rows) by lia.
    rewrite (lookup_ge_None_2 (take n recs)); [done|].
    rewrite length_take. lia.
Qed.

(** X13.  The top-N block of [covid.go] ranks the records of the dataset
    as they are, so a country with several provinces can take several
    rows. With at least one day it returns exactly when the dataset has
    [n] records, and its rows are the countries of the first [n] records
    in non-increasing order of the last day. *)
Theorem legacy_top_spec n d h L :
  equal_length h L (records d) → (0 < L)%nat →
  (is_Some (Legacy.topN n d h) ↔ (n ≤ length (records d))%nat) ∧
  ∀ rows, Legacy.topN n d h = Some rows →
    ∃ recs, recs ≡ₚ records d ∧ descending h recs ∧
            rows = imap (λ i r, (S i, country r)) (take n recs).
Proof.
  intros Heq HL.
  destruct (sort_spec d h L Heq HL) as (top & Hsort & Hp & Hsorted).
  unfold Legacy.topN. rewrite Hsort. simpl. split.
  - rewrite <-(Permutation_length Hp). split.
    + intros [rows [Hn _]%legacy_rows_Some]. done.
    + intros Hn. apply mapM_is_Some_2, Forall_forall.
      intros i [_ Hi]%elem_of_seq. simpl. unfold Legacy.top_row.
      destruct (lookup_lt_is_Some_2 top i) as [r ->]; [lia|]. by eexists.
  - intros rows [_ ->]%legacy_rows_Some. exists top.
    split_and!; [done| |done].
    apply (sorted_descending h L); [|done..].
    unfold equal_length. by rewrite Hp.
Qed.
End top_properties.

(** ** On the sample data *)

Lemma country_report_agrees_witness :
  ∃ recs r b h',
    Data.filter (srt := insertion_sort) (fld := ascii_folding)
      sample sample_heap "country a" = Some (recs, (r, b), h') ∧
    (Legacy.filter (fld := ascii_folding) sample "country a").2 = b ∧
    (b = true →
     country <$> records (Legacy.filter (fld := ascii_folding)
                            sample "country a").1 !! 0%nat
     = Some (country r) ∧
     Record.printCases r h'
     = Data.printCases (Legacy.filter (fld := ascii_folding)
                          sample "country a").1 sample_heap).
Proof.
  apply (@country_report_agrees insertion_sort insertion_sort_ok ascii_folding
           sample sample_heap 3 "country a").
  - apply sample_wf.
  - apply sample_named.
  - intros x y Hx Hy. apply list_elem_of_In in Hx, Hy. simpl in Hx, Hy.
    destruct Hx as [<-|[<-|[<-|[]]]], Hy as [<-|[<-|[<-|[]]]];
      vm_compute; congruence.
Defined.

Lemma top_countries_witness :
  (is_Some (topN (srt := insertion_sort) 2 sample sample_heap)
   ↔ (2 ≤ length (remove_dups (country <$> records sample)))%nat) ∧
  ∀ rows, topN (srt := insertion_sort) 2 sample sample_heap = Some rows →
    length rows = 2%nat ∧
    NoDup ((λ row, row.1.2) <$> rows) ∧
    (∀ i row, rows !! i = Some row →
       row.1.1 = S i ∧ row.1.2 ∈ country <$> records sample ∧
       row.2 = wrap (zsum (day_of sample_heap (Z.of_nat 3 - 1)
                             <$> group row.1.2 (records sample)))) ∧
    (∀ i j a b, rows !! i = Some a → rows !! j = Some b → (i < j)%nat →
       b.2 ≤ a.2) ∧
    (∀ c row, c ∈ country <$> records sample →
       c ∉ (λ row, row.1.2) <$> rows → row ∈ rows →
       wrap (zsum (day_of sample_heap (Z.of_nat 3 - 1)
                     <$> group c (records sample))) ≤ row.2).
Proof.
  apply (@top_countries insertion_sort insertion_sort_ok 2 sample
           sample_heap 3).
  - apply sample_wf.
  - apply sample_named.
  - lia.
Defined.

Lemma legacy_top_spec_witness :
  (is_Some (Legacy.topN (srt := insertion_sort) 2 sample sample_heap)
   ↔ (2 ≤ length (records sample))%nat) ∧
  ∀ rows, Legacy.topN (srt := insertion_sort) 2 sample sample_heap
          = Some rows →
    ∃ recs, recs ≡ₚ records sample ∧ descending sample_heap recs ∧
            rows = imap (λ i r, (S i, country r)) (take 2 recs).
Proof.
  apply (@legacy_top_spec insertion_sort insertion_sort_ok 2 sample
           sample_heap 3).
  - apply wf_equal_length, sample_wf.
  - lia.
Defined.

(** On the sample data [covid.go] shows Country A twice and the later
    version shows each country once, with its total. *)
Example top_two_versions :
  Legacy.topN (srt := insertion_sort) 2 sample sample_heap
  = Some [(1%nat, "Country A"); (2%nat, "Country A")] ∧
  topN (srt := insertion_sort) 2 sample sample_heap
  = Some [(1%nat, "Country A", 9); (2%nat, "Country B", 1)].
Proof. split; by vm_compute. Qed.

(** * [reduce] on a source that has been reduced before

    [main] does this when a country and a top-10 list are asked for in
    one run: [conf.filter(c)] reduces [conf] in place and
    [conf.reduce()] reduces it again. *)

Lemma zsum_fmap_perm {A} (f : A → Z) l k :
  l ≡ₚ k → zsum (f <$> l) = zsum (f <$> k).
Proof.
  intros Hp. unfold zsum.
  apply foldr_permutation; [apply _|apply _|intros; lia|by rewrite Hp].
Qed.

Lemma zsum_fmap_ext {A} (f g : A → Z) l :
  (∀ x, x ∈ l → f x = g x) → zsum (f <$> l) = zsum (g <$> l).
Proof.
  intros Hfg. f_equal. apply list_fmap_ext. intros i x Hx.
  apply Hfg. by eapply list_elem_of_lookup_2.
Qed.

Lemma zsum_cons x l : zsum (x :: l) = x + zsum l.
Proof. done. Qed.

(** A sum over records of which one has changed. *)
Lemma zsum_one_changed (f f' : record → Z) g r1 :
  NoDup (cases <$> g) → r1 ∈ g →
  (∀ x, x ∈ g → cases x ≠ cases r1 → f' x = f x) →
  zsum (f' <$> g) = zsum (f <$> g) - f r1 + f' r1.
Proof.
  induction g as [|x g IH]; intros Hnd Hr1 Hsame.
  { by apply elem_of_nil in Hr1. }
  rewrite fmap_cons in Hnd. apply NoDup_cons in Hnd as [Hx Hnd].
  rewrite !fmap_cons, !zsum_cons.
  apply elem_of_cons in Hr1 as [->|Hr1].
  - rewrite (zsum_fmap_ext f' f g); [lia|].
    intros y Hy. apply Hsame; [by right|].
    intros E. apply Hx. rewrite <-E. by apply list_elem_of_fmap_2.
  - rewrite IH; [|done..|].
    + rewrite (Hsame x); [lia|by left|].
      intros E. apply Hx. rewrite E. by apply list_elem_of_fmap_2.
    + intros y Hy. apply Hsame. by right.
Qed.

Lemma has_cases_Arr h L r :
  has_cases h L r → (0 < L)%nat → ∃ l, cases r = Arr l.
Proof.
  intros (v & Hv & Hlen & _)%has_cases_load HL.
  destruct (cases r) as [|l]; [|by eauto].
  simpl in Hv. injection Hv as <-. simpl in Hlen. lia.
Qed.

Lemma wf_NoDup_cases h L recs :
  wf h L recs → (0 < L)%nat → NoDup (cases <$> recs).
Proof.
  intros [Hall Hnd] HL.
  assert (cases <$> recs = Arr <$> locs recs) as ->.
  { unfold locs. induction Hall as [|r recs Hr _ IH]; [done|].
    destruct (has_cases_Arr h L r Hr HL) as [l Hl].
    csimpl. unfold arr_loc at 1. rewrite Hl. csimpl. f_equal.
    apply IH. unfold locs in Hnd. simpl in Hnd. unfold arr_loc at 1 in Hnd.
    rewrite Hl in Hnd. by apply NoDup_cons in Hnd as [_ ?]. }
  apply NoDup_fmap_2; [|done]. by intros ?? [= ->].
Qed.

Lemma day_of_load h h' k r x :
  load h' (cases r) = load h (cases x) → day_of h' k r = day_of h k x.
Proof. unfold day_of, read. by intros ->. Qed.

Section reduce_twice.
Context {srt : SliceSort} {ok : SliceSortOk srt}.

(** X14.  A second [reduce] of the same source counts the records that
    the first one has summed once more: the total that it returns for a
    country is twice the country's total less the counts of the record
    that the first call returned for it.  Countries with a single record
    keep their counts. *)
Theorem reduce_twice d h L :
  wf h L (records d) → Forall (λ r, country r ≠ "") (records d) →
  ∃ recs R h' recs2 R2 h'',
    Data.reduce d h = Some (recs, R, h') ∧
    Data.reduce {| header := header d; records := recs |} h'
    = Some (recs2, R2, h'') ∧
    (∀ c, c ∈ country <$> records R2 ↔ c ∈ country <$> records d) ∧
    ∀ r2, r2 ∈ records R2 →
      ∃ r1, r1 ∈ records R ∧ country r1 = country r2 ∧
        ∀ k, 0 ≤ k < Z.of_nat L →
          read h'' (cases r2) k
          = Some (wrap (2 * zsum (day_of h k <$> group (country r2) (records d))
                        - day_of h k r1)).
Proof.
  intros Hwf Hnamed.
  destruct (reduce_spec d h L Hwf Hnamed)
    as (recs & R & h' & Hred & Hp & Hs & Hhd & HR & HI & Hlen & Htot & Hfr).
  destruct HI as [_ _ _ Hincr _ Hsub Hcover _].
  assert (wf h L recs) as Hwfr by (by apply (wf_perm h L (records d))).
  assert (Forall (λ r, country r ≠ "") recs) as Hnamedr by (by rewrite Hp).
  assert (∀ x, x ∈ recs → cases x ∉ cases <$> records R ∨
                           ∃ y, y ∈ records R ∧ cases y = cases x) as Hcase.
  { intros x Hx.
    destruct (decide (cases x ∈ cases <$> records R)) as [Hin|Hout];
      [right|by left].
    apply list_elem_of_fmap in Hin as (y & Hy & HyR). by exists y. }
  assert (wf h' L recs) as Hwf'.
  { destruct Hwfr as [Hall Hnd]. split; [|done].
    apply Forall_forall. intros x Hx. rewrite Forall_forall in Hall.
    destruct (Hcase x Hx) as [Hout|(y & Hy & Hyx)].
    - unfold has_cases. rewrite (Hfr _ Hout). by apply Hall.
    - apply has_cases_load. exists (country_total h L (country y) (records d)).
      split_and!.
      + rewrite <-Hyx. by apply Htot.
      + by apply length_country_total.
      + unfold country_total. apply Forall_fmap, Forall_forall.
        intros z _. apply wrap_is_int. }
  destruct (reduce_spec {| header := header d; records := recs |} h' L Hwf' Hnamedr)
    as (recs2 & R2 & h'' & Hred2 & Hp2 & _ & _ & _ & HI2 & _ & Htot2 & _).
  destruct HI2 as [_ _ _ _ _ Hsub2 Hcover2 _]. simpl in *.
  exists recs, R, h', recs2, R2, h''. split_and!; [done..| |].
  - intros c. rewrite !list_elem_of_fmap. split.
    + intros (y & -> & Hy). exists y. split; [done|].
      rewrite <-Hp, <-Hp2. by eapply elem_of_sublist.
    + intros (x & -> & Hx). rewrite <-Hp, <-Hp2 in Hx.
      destruct (Hcover2 x Hx) as (y & Hy & Hc); [|by eauto].
      rewrite Forall_forall in Hnamedr. apply Hnamedr. by rewrite <-Hp2.
  - intros r2 Hr2.
    assert (r2 ∈ recs) as Hr2in.
    { rewrite <-Hp2. by eapply elem_of_sublist. }
    destruct (Hcover r2 Hr2in) as (r1 & Hr1 & Hc1).
    { rewrite Forall_forall in Hnamedr. by apply Hnamedr. }
    exists r1. split_and!; [done..|]. intros k Hk.
    assert (0 < L)%nat as HL by lia.
    rewrite (read_country_total h' h'' L (country r2) recs);
      [|done..|by apply Htot2].
    f_equal.
    assert (r1 ∈ recs) as Hr1in by (by eapply elem_of_sublist).
    assert (r1 ∈ group (country r2) recs) as Hr1g.
    { unfold group. by apply list_elem_of_filter. }
    assert (NoDup (cases <$> group (country r2) recs)) as Hndg.
    { apply (sublist_NoDup _ (cases <$> recs));
        [exact (wf_NoDup_cases h L recs Hwfr HL)|].
      apply fmap_sublist. unfold group. apply sublist_filter. }
    rewrite (zsum_one_changed (day_of h k) (day_of h' k) _ r1 Hndg Hr1g).
    + assert (day_of h' k r1
              = wrap (zsum (day_of h k <$> group (country r2) (records d))))
        as ->.
      { unfold day_of.
        rewrite (read_country_total h h' L (country r2) (records d));
          [done..|]. rewrite <-Hc1. by apply Htot. }
      rewrite (zsum_fmap_perm (day_of h k) _ _
                (group_perm (country r2) recs (records d) Hp)).
      rewrite wrap_add_r. f_equal. lia.
    + intros x Hx Hne. unfold group in Hx.
      apply list_elem_of_filter in Hx as [Hxc Hx].
      apply day_of_load. apply Hfr. rewrite list_elem_of_fmap.
      intros (y & Hyx & Hy). apply Hne.
      assert (y ∈ recs) as Hyin by (by eapply elem_of_sublist).
      destruct (locs_inj recs x y) as [Hnil| ->]; try done.
      * by destruct Hwfr.
      * destruct Hwfr as [Hall _]. rewrite Forall_forall in Hall.
        destruct (has_cases_Arr h L x (Hall x Hx) HL) as [l Hl]. congruence.
      * f_equal. apply (increasing_inj (records R)); [done..|congruence].
Qed.
End reduce_twice.

Lemma reduce_twice_witness :
  ∃ recs R h' recs2 R2 h'',
    Data.reduce (srt := insertion_sort) sample sample_heap
    = Some (recs, R, h') ∧
    Data.reduce (srt := insertion_sort)
      {| header := header sample; records := recs |} h'
    = Some (recs2, R2, h'') ∧
    (∀ c, c ∈ country <$> records R2 ↔ c ∈ country <$> records sample) ∧
    ∀ r2, r2 ∈ records R2 →
      ∃ r1, r1 ∈ records R ∧ country r1 = country r2 ∧
        ∀ k, 0 ≤ k < Z.of_nat 3 →
          read h'' (cases r2) k
          = Some (wrap (2 * zsum (day_of sample_heap k
                                    <$> group (country r2) (records sample))
                        - day_of sample_heap k r1)).
Proof.
  apply (@reduce_twice insertion_sort insertion_sort_ok sample sample_heap 3).
  - apply sample_wf.
  - apply sample_named.
Defined.

(** * [reduce] on a table without day columns *)

Lemma loop_no_days h P :
  Forall (λ r, load h (cases r) = Some []) P →
  foldlM Data.reduce_step ([], "", h) P
  = Some ((heads P).1, (heads P).2, h).
Proof.
  induction P as [|r P IH] using rev_ind; intros Hall; [done|].
  apply Forall_app in Hall as [HP [Hr _]%Forall_cons].
  rewrite foldlM_snoc, (IH HP), heads_snoc. simpl.
  unfold heads_step. destruct (decide (country r ≠ (heads P).2)); [done|].
  rewrite Hr. done.
Qed.

Section no_days.
Context {srt : SliceSort} {ok : SliceSortOk srt}.

(** X15.  On a table without day columns the inner loop of [reduce] has
    nothing to add, so [reduce] returns whatever the country names are,
    leaves the store as it is, and returns one record per country name
    other than the empty one: records without a country name are
    dropped. *)
Theorem reduce_no_days d h :
  Forall (has_cases h 0) (records d) →
  ∃ recs R,
    Data.reduce d h = Some (recs, R, h) ∧ recs ≡ₚ records d ∧
    NoDup (country <$> records R) ∧
    ∀ c, c ∈ country <$> records R ↔ c ∈ country <$> records d ∧ c ≠ "".
Proof.
  intros Hall. unfold Data.reduce.
  pose proof (sortCountry_perm d) as Hp.
  pose proof (heads_sorted _ (sortCountry_sorted d))
    as [_ _ _ Hincr Hnamed Hsub Hcover _].
  rewrite loop_no_days.
  2:{ apply Forall_forall. intros r Hr. rewrite Hp in Hr.
      rewrite Forall_forall in Hall.
      destruct (proj1 (has_cases_load h 0 r) (Hall r Hr)) as (v & -> & Hlen & _).
      by destruct v. }
  simpl. eexists _, _. split_and!; [done..|by apply increasing_NoDup|].
  simpl. intros c. rewrite !list_elem_of_fmap. split.
  - intros (y & -> & Hy). split.
    + exists y. split; [done|]. rewrite <-Hp. by eapply elem_of_sublist.
    + rewrite Forall_forall in Hnamed. by apply Hnamed.
  - intros [(x & -> & Hx) Hne]. rewrite <-Hp in Hx.
    destruct (Hcover x Hx Hne) as (y & Hy & Hc). by eauto.
Qed.
End no_days.

Lemma reduce_no_days_witness :
  ∃ recs R,
    Data.reduce (srt := insertion_sort)
      {| header := take 4 sample_header;
         records := [{| province := ""; country := ""; lat := 0; long := 0;
                        cases := Nil |};
                     {| province := ""; country := "US"; lat := 0; long := 0;
                        cases := Nil |}] |} []
    = Some (recs, R, []) ∧
    recs ≡ₚ [{| province := ""; country := ""; lat := 0; long := 0;
                cases := Nil |};
             {| province := ""; country := "US"; lat := 0; long := 0;
                cases := Nil |}] ∧
    NoDup (country <$> records R) ∧
    ∀ c, c ∈ country <$> records R ↔
         c ∈ country <$> [{| province := ""; country := ""; lat := 0;
                             long := 0; cases := Nil |};
                          {| province := ""; country := "US"; lat := 0;
                             long := 0; cases := Nil |}] ∧ c ≠ "".
Proof.
  apply (@reduce_no_days insertion_sort insertion_sort_ok
           {| header := take 4 sample_header;
              records := [{| province := ""; country := ""; lat := 0;
                             long := 0; cases := Nil |};
                          {| province := ""; country := "US"; lat := 0;
                             long := 0; cases := Nil |}] |} []).
  repeat constructor.
Defined.

(** * The report of [main] *)

Lemma run_bind_Done {A B} (m : run A) (f : A → run B) w a w' :
  m w = (Done a, w') → (m ≫= f) w = f a w'.
Proof. unfold mbind, run_bind. by intros ->. Qed.

Lemma run_bind_Fatal {A B} (m : run A) (f : A → run B) w msg w' :
  m w = (Fatal msg, w') → (m ≫= f) w = (Fatal msg, w').
Proof. unfold mbind, run_bind. by intros ->. Qed.

Lemma run_bind_Panicked {A B} (m : run A) (f : A → run B) w w' :
  m w = (Panicked, w') → (m ≫= f) w = (Panicked, w').
Proof. unfold mbind, run_bind. by intros ->. Qed.

Lemma printCases_totals d h L :
  Forall (has_cases h L) (records d) → records d ≠ [] → (2 ≤ L)%nat →
  Data.printCases d h = Some (totals h L (records d)).
Proof. apply printCases_value. Qed.

Section report_properties.
Context {srt : SliceSort} {ok : SliceSortOk srt} {fld : Folding}.

Lemma data_printCases_run t d L w :
  ready (store w) L d →
  data_printCases t d w
  = (Done tt, {| stdout := stdout w;
                 pending := pending w ++ [cases_line t (totals (store w) L (records d))];
                 store := store w |}).
Proof.
  intros ([Hall _] & _ & Hne & HL). unfold data_printCases.
  rewrite (run_bind_Done _ _ w (totals (store w) L (records d)) w).
  - done.
  - unfold peek. by rewrite (printCases_totals d _ L).
Qed.

Lemma globe_block_run conf dead recov Lc Ld Lr w :
  ready (store w) Lc conf → ready (store w) Ld dead →
  ready (store w) Lr recov →
  globe_block conf dead recov w
  = (Done tt, {| stdout := stdout w
                           ++ globe_lines (store w) Lc Ld Lr conf dead recov;
                 pending := []; store := store w |}).
Proof.
  intros Hc Hd Hr. unfold globe_block.
  erewrite run_bind_Done by reflexivity.
  erewrite run_bind_Done by reflexivity.
  erewrite run_bind_Done by (by apply (data_printCases_run _ conf Lc)).
  erewrite run_bind_Done by (by apply (data_printCases_run _ dead Ld)).
  erewrite run_bind_Done by (by apply (data_printCases_run _ recov Lr)).
  unfold w_Flush, globe_lines. simpl. by rewrite <-app_assoc.
Qed.

(** [filter] on a dataset with country names, with what it leaves of the
    rest of the store. *)
Lemma filter_run d h L c :
  wf h L (records d) → Forall (λ r, country r ≠ "") (records d) →
  ∃ recs r b h',
    Data.filter d h c = Some (recs, (r, b), h') ∧
    recs ≡ₚ records d ∧
    (b = true ↔ has_match d c) ∧
    (b = true →
     EqualFold (country r) c = true ∧ r ∈ records d ∧
     load h' (cases r) = Some (country_total h L (country r) (records d))) ∧
    (∀ s, (∀ l, s = Arr l → l ∉ locs (records d)) → load h' s = load h s).
Proof.
  intros Hwf Hnamed.
  destruct (reduce_spec d h L Hwf Hnamed)
    as (recs & R & h' & Hred & Hp & Hs & Hhd & HR & HI & Hlen & Htot & Hfr).
  assert (∀ s, (∀ l, s = Arr l → l ∉ locs (records d)) →
               load h' s = load h s) as Hframe.
  { intros s Hs'. destruct s as [|l]; [done|]. apply Hfr.
    rewrite list_elem_of_fmap. intros (y & Hy & HyR).
    apply (Hs' l eq_refl), elem_of_locs. exists y. split; [|done].
    rewrite <-Hp. eapply elem_of_sublist; [exact HyR|]. by destruct HI. }
  unfold Data.filter, has_match. rewrite Hred. simpl.
  destruct (find (λ r, EqualFold (country r) c) recs) as [r|] eqn:Hfind.
  - exists recs, r, true, h'.
    destruct (find_first _ _ _ Hfind) as (l1 & l2 & Hrecs & Hr & _).
    assert (r ∈ records d) as Hin.
    { rewrite <-Hp, Hrecs. apply elem_of_app. right. by left. }
    split_and!; [done..| | |done].
    + split; [|done]. intros _. by exists r.
    + intros _. split_and!; [done..|]. apply Htot.
      apply (first_match_is_head recs _ _ c r HI); [|done]. by rewrite Hp.
  - exists recs, zero_record, false, h'. split_and!; [done..| |done|done].
    split; [done|]. intros (x & Hx & Hxf).
    rewrite <-Hp in Hx. by rewrite (find_None _ _ Hfind x Hx) in Hxf.
Qed.

Lemma locs_perm recs recs' : recs ≡ₚ recs' → locs recs ≡ₚ locs recs'.
Proof. unfold locs. by intros ->. Qed.

Lemma frame_dataset h h' recs1 recs2 :
  (∀ s, (∀ l, s = Arr l → l ∉ locs recs1) → load h' s = load h s) →
  (∀ l, l ∈ locs recs1 → l ∉ locs recs2) →
  ∀ r, r ∈ recs2 → load h' (cases r) = load h (cases r).
Proof.
  intros Hframe Hsep r Hr. apply Hframe. intros l Hl Hin.
  apply (Hsep l Hin), elem_of_locs. by exists r.
Qed.

Lemma has_cases_frame h h' L r :
  load h' (cases r) = load h (cases r) → has_cases h L r → has_cases h' L r.
Proof. unfold has_cases. by intros ->. Qed.

Lemma wf_frame h h' L recs :
  (∀ r, r ∈ recs → load h' (cases r) = load h (cases r)) →
  wf h L recs → wf h' L recs.
Proof.
  intros Hsame [Hall Hnd]. split; [|done].
  apply Forall_forall. intros r Hr. rewrite Forall_forall in Hall.
  apply (has_cases_frame h); [by apply Hsame|by apply Hall].
Qed.

Lemma country_total_frame h h' L c recs :
  (∀ r, r ∈ recs → load h' (cases r) = load h (cases r)) →
  country_total h' L c recs = country_total h L c recs.
Proof.
  intros Hsame. unfold country_total. do 2 f_equal.
  apply list_fmap_ext. intros i r Hr. unfold cases_of.
  rewrite Hsame; [done|]. apply list_elem_of_lookup_2 in Hr.
  unfold group in Hr. by apply list_elem_of_filter in Hr as [_ ?].
Qed.

(** The numbers that [record.printCases] writes for the record that
    [filter] has returned. *)
Lemma record_printCases_totals r h h' L recs :
  wf h L recs → (2 ≤ L)%nat → r ∈ recs →
  load h' (cases r) = Some (country_total h L (country r) recs) →
  Record.printCases r h' = Some (totals h L (group (country r) recs)).
Proof.
  intros Hwf HL Hr Hload.
  assert (r ∈ group (country r) recs) as Hg.
  { unfold group. by apply list_elem_of_filter. }
  destruct (record_printCases_total r h h' L (country r) recs Hwf Hload)
    as [-> |Hnil].
  - apply (printCases_totals
             {| header := []; records := group (country r) recs |} h L);
      simpl; [|by intros E; rewrite E in Hg; apply elem_of_nil in Hg|done].
    apply has_cases_group, Hwf.
  - rewrite Hnil in Hg. by apply elem_of_nil in Hg.
Qed.

Lemma filter_or_exit_run d c w recs r b h' :
  Data.filter d (store w) c = Some (recs, (r, b), h') →
  filter_or_exit d c w
  = (if b then Done ({| header := header d; records := recs |}, r)
     else Fatal ("Country " ++ c ++ " is not in the list"),
     {| stdout := stdout w; pending := pending w; store := h' |}).
Proof.
  intros Hf. unfold filter_or_exit.
  erewrite run_bind_Done; [|unfold poke; rewrite Hf; reflexivity].
  by destruct b.
Qed.

Lemma record_printCases_run t r p w :
  Record.printCases r (store w) = Some p →
  record_printCases t r w
  = (Done tt, {| stdout := stdout w; pending := pending w ++ [cases_line t p];
                 store := store w |}).
Proof.
  intros Hp. unfold record_printCases.
  erewrite run_bind_Done; [|unfold peek; rewrite Hp; reflexivity].
  by destruct p.
Qed.

Lemma separate_sym d1 d2 : separate d1 d2 → separate d2 d1.
Proof. intros Hsep l Hl2 Hl1. by apply (Hsep l). Qed.

(** The three calls of [filter] in the country block, one after the
    other in one store: each dataset is searched as it was at the start,
    and the records that are returned hold their totals at the end. *)
Lemma three_filters conf dead recov h Lc Ld Lr c :
  ready h Lc conf → ready h Ld dead → ready h Lr recov →
  separate conf dead → separate conf recov → separate dead recov →
  ∃ rs1 r1 b1 h1 rs2 r2 b2 h2 rs3 r3 b3 h3,
    Data.filter conf h c = Some (rs1, (r1, b1), h1) ∧
    Data.filter dead h1 c = Some (rs2, (r2, b2), h2) ∧
    Data.filter recov h2 c = Some (rs3, (r3, b3), h3) ∧
    (b1 = true ↔ has_match conf c) ∧ (b2 = true ↔ has_match dead c) ∧
    (b3 = true ↔ has_match recov c) ∧
    (b1 = true →
     EqualFold (country r1) c = true ∧ r1 ∈ records conf ∧
     load h3 (cases r1)
     = Some (country_total h Lc (country r1) (records conf))) ∧
    (b2 = true →
     EqualFold (country r2) c = true ∧ r2 ∈ records dead ∧
     load h3 (cases r2)
     = Some (country_total h Ld (country r2) (records dead))) ∧
    (b3 = true →
     EqualFold (country r3) c = true ∧ r3 ∈ records recov ∧
     load h3 (cases r3)
     = Some (country_total h Lr (country r3) (records recov))).
Proof.
  intros (Hwfc & Hnc & _) (Hwfd & Hnd & _) (Hwfr & Hnr & _) Hcd Hcr Hdr.
  destruct (filter_run conf h Lc c Hwfc Hnc)
    as (rs1 & r1 & b1 & h1 & Hf1 & _ & Hb1 & Hr1 & F1).
  pose proof (frame_dataset h h1 _ _ F1 Hcd) as Hd1.
  pose proof (frame_dataset h h1 _ _ F1 Hcr) as Hr1'.
  destruct (filter_run dead h1 Ld c (wf_frame h h1 Ld _ Hd1 Hwfd) Hnd)
    as (rs2 & r2 & b2 & h2 & Hf2 & _ & Hb2 & Hr2 & F2).
  pose proof (frame_dataset h1 h2 _ _ F2 Hdr) as Hr2'.
  pose proof (frame_dataset h1 h2 _ _ F2 (separate_sym _ _ Hcd)) as Hc2.
  assert (∀ r, r ∈ records recov → load h2 (cases r) = load h (cases r))
    as Hrecov.
  { intros r Hr. by rewrite Hr2', Hr1'. }
  destruct (filter_run recov h2 Lr c (wf_frame h h2 Lr _ Hrecov Hwfr) Hnr)
    as (rs3 & r3 & b3 & h3 & Hf3 & _ & Hb3 & Hr3 & F3).
  pose proof (frame_dataset h2 h3 _ _ F3 (separate_sym _ _ Hcr)) as Hc3.
  pose proof (frame_dataset h2 h3 _ _ F3 (separate_sym _ _ Hdr)) as Hd3.
  exists rs1, r1, b1, h1, rs2, r2, b2, h2, rs3, r3, b3, h3.
  split_and!; try done.
  - intros Hb. destruct (Hr1 Hb) as (Hm & Hin & Hload).
    split_and!; [done..|]. by rewrite Hc3, Hc2.
  - intros Hb. destruct (Hr2 Hb) as (Hm & Hin & Hload).
    split_and!; [done..|]. rewrite Hd3 by done. rewrite Hload.
    by rewrite (country_total_frame h h1).
  - intros Hb. destruct (Hr3 Hb) as (Hm & Hin & Hload).
    split_and!; [done..|]. rewrite Hload.
    by rewrite (country_total_frame h h2).
Qed.

Lemma country_block_exit f conf dead recov w h rs1 r1 b1 h1 rs2 r2 b2 h2
    rs3 r3 b3 h3 :
  store w = h →
  Data.filter conf h (fcountry f) = Some (rs1, (r1, b1), h1) →
  Data.filter dead h1 (fcountry f) = Some (rs2, (r2, b2), h2) →
  Data.filter recov h2 (fcountry f) = Some (rs3, (r3, b3), h3) →
  b1 && b2 && b3 = false →
  ∃ w',
    country_block f conf dead recov w
    = (Fatal ("Country " ++ fcountry f ++ " is not in the list"), w') ∧
    stdout w' = stdout w.
Proof.
  intros <- Hf1 Hf2 Hf3 Hb. unfold country_block.
  destruct b1.
  2:{ eexists. split.
      - apply run_bind_Fatal. by apply (filter_or_exit_run _ _ _ rs1 r1 false h1).
      - done. }
  erewrite run_bind_Done
    by (by apply (filter_or_exit_run _ _ _ rs1 r1 true h1)).
  cbv beta iota. destruct b2.
  2:{ eexists. split.
      - apply run_bind_Fatal.
        by apply (filter_or_exit_run _ _ _ rs2 r2 false h2).
      - done. }
  erewrite run_bind_Done
    by (by apply (filter_or_exit_run _ _ _ rs2 r2 true h2)).
  cbv beta iota. destruct b3; [done|].
  eexists. split.
  - apply run_bind_Fatal. by apply (filter_or_exit_run _ _ _ rs3 r3 false h3).
  - done.
Qed.

(** X16.  An unknown country: [main] writes the Globe block, then exits
    with status 1 after a message on standard error, whatever the other
    flags are; a country counts as unknown as soon as one of the three
    datasets has no record of it. *)
Theorem report_country_not_found n f conf dead recov h Lc Ld Lr :
  ready h Lc conf → ready h Ld dead → ready h Lr recov →
  separate conf dead → separate conf recov → separate dead recov →
  fcountry f ≠ "" →
  ¬ (has_match conf (fcountry f) ∧ has_match dead (fcountry f) ∧
     has_match recov (fcountry f)) →
  ∃ w',
    report n f conf dead recov (start h)
    = (Fatal ("Country " ++ fcountry f ++ " is not in the list"), w') ∧
    stdout w' = globe_lines h Lc Ld Lr conf dead recov.
Proof.
  intros Hc Hd Hr Hcd Hcr Hdr Hf Hno.
  destruct (three_filters conf dead recov h Lc Ld Lr (fcountry f)
              Hc Hd Hr Hcd Hcr Hdr)
    as (rs1 & r1 & b1 & h1 & rs2 & r2 & b2 & h2 & rs3 & r3 & b3 & h3 &
        Hf1 & Hf2 & Hf3 & Hb1 & Hb2 & Hb3 & _).
  assert (b1 && b2 && b3 = false) as Hb.
  { destruct b1, b2, b3; try done. destruct Hno.
    split_and!; [by apply Hb1|by apply Hb2|by apply Hb3]. }
  unfold report.
  erewrite run_bind_Done by (by apply (globe_block_run _ _ _ Lc Ld Lr)).
  rewrite decide_True by done.
  destruct (country_block_exit f conf dead recov
              {| stdout := stdout (start h)
                           ++ globe_lines h Lc Ld Lr conf dead recov;
                 pending := []; store := h |} h _ _ _ _ _ _ _ _ _ _ _ _
              eq_refl Hf1 Hf2 Hf3 Hb) as (w' & Hrun & Hout).
  exists w'. split.
  - apply run_bind_Fatal. exact Hrun.
  - rewrite Hout. done.
Qed.

Lemma record_printGraph_run t r w :
  record_printGraph t r w
  = (Done tt, {| stdout := stdout w
                           ++ [Graph (country r ++ " - " ++ t)
                                 (cases_of (store w) r)];
                 pending := pending w; store := store w |}).
Proof. done. Qed.

Lemma country_block_done f conf dead recov w h rs1 r1 h1 rs2 r2 h2 rs3 r3 h3
    p1 p2 p3 :
  store w = h →
  Data.filter conf h (fcountry f) = Some (rs1, (r1, true), h1) →
  Data.filter dead h1 (fcountry f) = Some (rs2, (r2, true), h2) →
  Data.filter recov h2 (fcountry f) = Some (rs3, (r3, true), h3) →
  Record.printCases r1 h3 = Some p1 → Record.printCases r2 h3 = Some p2 →
  Record.printCases r3 h3 = Some p3 →
  country_block f conf dead recov w
  = (Done ({| header := header conf; records := rs1 |},
           {| header := header dead; records := rs2 |},
           {| header := header recov; records := rs3 |}),
     {| stdout := stdout w
                  ++ [Title (country r1); cases_line "Confirmed" p1;
                      cases_line "Dead" p2; cases_line "Recovered" p3]
                  ++ (if fgraph f
                      then [Graph (country r1 ++ " - Confirmed") (cases_of h3 r1);
                            Graph (country r2 ++ " - Dead") (cases_of h3 r2);
                            Graph (country r3 ++ " - Recovered")
                              (cases_of h3 r3)]
                      else []);
        pending := []; store := h3 |}).
Proof.
  intros <- Hf1 Hf2 Hf3 Hp1 Hp2 Hp3. unfold country_block.
  erewrite run_bind_Done
    by (by apply (filter_or_exit_run _ _ _ rs1 r1 true h1)).
  cbv beta iota.
  erewrite run_bind_Done
    by (by apply (filter_or_exit_run _ _ _ rs2 r2 true h2)).
  cbv beta iota.
  erewrite run_bind_Done
    by (by apply (filter_or_exit_run _ _ _ rs3 r3 true h3)).
  cbv beta iota.
  erewrite run_bind_Done by reflexivity.
  erewrite run_bind_Done by reflexivity.
  erewrite run_bind_Done by (by apply (record_printCases_run _ r1 p1)).
  erewrite run_bind_Done by (by apply (record_printCases_run _ r2 p2)).
  erewrite run_bind_Done by (by apply (record_printCases_run _ r3 p3)).
  erewrite run_bind_Done by reflexivity.
  destruct (fgraph f).
  - erewrite run_bind_Done.
    2:{ erewrite run_bind_Done by apply record_printGraph_run.
        erewrite run_bind_Done by apply record_printGraph_run.
        apply record_printGraph_run. }
    unfold mret, run_ret. simpl. by rewrite <-!app_assoc.
  - erewrite run_bind_Done by reflexivity.
    unfold mret, run_ret. simpl. by rewrite <-!app_assoc.
Qed.

(** X17.  A known country and no top list: the Globe block, then the
    country block with the title of the confirmed record and, for each
    dataset, the totals of the country of the record that [filter]
    returned, then the three graphs if asked for.  All numbers are those
    of the datasets as they were at the start, although the three calls
    of [filter] have reordered and overwritten them by then. *)
Theorem report_country n f conf dead recov h Lc Ld Lr :
  ready h Lc conf → ready h Ld dead → ready h Lr recov →
  separate conf dead → separate conf recov → separate dead recov →
  fcountry f ≠ "" → ftopc f = false → ftopd f = false → ftopr f = false →
  has_match conf (fcountry f) → has_match dead (fcountry f) →
  has_match recov (fcountry f) →
  ∃ w' rc rd rr,
    report n f conf dead recov (start h) = (Done tt, w') ∧
    pending w' = [] ∧
    (rc ∈ records conf ∧ EqualFold (country rc) (fcountry f) = true) ∧
    (rd ∈ records dead ∧ EqualFold (country rd) (fcountry f) = true) ∧
    (rr ∈ records recov ∧ EqualFold (country rr) (fcountry f) = true) ∧
    stdout w'
    = globe_lines h Lc Ld Lr conf dead recov
      ++ [Title (country rc);
          cases_line "Confirmed"
            (totals h Lc (group (country rc) (records conf)));
          cases_line "Dead"
            (totals h Ld (group (country rd) (records dead)));
          cases_line "Recovered"
            (totals h Lr (group (country rr) (records recov)))]
      ++ (if fgraph f
          then [Graph (country rc ++ " - Confirmed")
                  (country_total h Lc (country rc) (records conf));
                Graph (country rd ++ " - Dead")
                  (country_total h Ld (country rd) (records dead));
                Graph (country rr ++ " - Recovered")
                  (country_total h Lr (country rr) (records recov))]
          else []).
Proof.
  intros Hc Hd Hr Hcd Hcr Hdr Hf Htc Htd Htr Hmc Hmd Hmr.
  destruct (three_filters conf dead recov h Lc Ld Lr (fcountry f)
              Hc Hd Hr Hcd Hcr Hdr)
    as (rs1 & r1 & b1 & h1 & rs2 & r2 & b2 & h2 & rs3 & r3 & b3 & h3 &
        Hf1 & Hf2 & Hf3 & Hb1 & Hb2 & Hb3 & Hr1 & Hr2 & Hr3).
  apply Hb1 in Hmc. apply Hb2 in Hmd. apply Hb3 in Hmr. subst b1 b2 b3.
  destruct (Hr1 eq_refl) as (Hm1 & Hin1 & Hl1).
  destruct (Hr2 eq_refl) as (Hm2 & Hin2 & Hl2).
  destruct (Hr3 eq_refl) as (Hm3 & Hin3 & Hl3).
  pose proof Hc as (Hwfc & _ & _ & HLc).
  pose proof Hd as (Hwfd & _ & _ & HLd).
  pose proof Hr as (Hwfr & _ & _ & HLr).
  pose proof (record_printCases_totals r1 h h3 Lc _ Hwfc HLc Hin1 Hl1) as Hp1.
  pose proof (record_printCases_totals r2 h h3 Ld _ Hwfd HLd Hin2 Hl2) as Hp2.
  pose proof (record_printCases_totals r3 h h3 Lr _ Hwfr HLr Hin3 Hl3) as Hp3.
  eexists _, r1, r2, r3. split_and!; try done.
  - unfold report.
    erewrite run_bind_Done by (by apply (globe_block_run _ _ _ Lc Ld Lr)).
    rewrite decide_True by done.
    erewrite run_bind_Done
      by (by eapply (country_block_done f conf dead recov _ h);
          [done|exact Hf1|exact Hf2|exact Hf3|exact Hp1|exact Hp2|exact Hp3]).
    cbv beta iota. rewrite Htc, Htd, Htr. reflexivity.
  - done.
  - simpl. unfold cases_of. by rewrite Hl1, Hl2, Hl3.
Qed.

Lemma mapM_option_cons {A B} (f : A → option B) a l :
  mapM f (a :: l) = y ← f a; k ← mapM f l; Some (y :: k).
Proof. done. Qed.

(** The loop of a top-10 block fills the tabwriter with the rows of
    [top_rows], or panics and leaves standard output as it is. *)
Lemma rows_loop top h l : ∀ w rows,
  store w = h → mapM (top_row top h) l = Some rows →
  for_each l (λ i, '(rank, c, x) ← peek (λ h, top_row top h i);
                   Fprintf_w (Row rank c x)) w
  = (Done tt, {| stdout := stdout w;
                 pending := pending w ++ (row_line <$> rows);
                 store := store w |}).
Proof.
  induction l as [|i l IH]; intros w rows Hw.
  { intros [= <-]. destruct w. simpl. by rewrite app_nil_r. }
  rewrite mapM_option_cons.
  destruct (top_row top h i) as [[[rank c] x]|] eqn:Hi; [|done].
  destruct (mapM (top_row top h) l) as [rows'|] eqn:Hl; [|done].
  intros [= <-]. simpl.
  erewrite run_bind_Done.
  2:{ erewrite run_bind_Done; [|unfold peek; rewrite Hw, Hi; reflexivity].
      reflexivity. }
  rewrite (IH _ rows') by done. simpl. by rewrite <-app_assoc.
Qed.

Lemma rows_loop_None top h l : ∀ w,
  store w = h → mapM (top_row top h) l = None →
  ∃ w', for_each l (λ i, '(rank, c, x) ← peek (λ h, top_row top h i);
                         Fprintf_w (Row rank c x)) w = (Panicked, w') ∧
        stdout w' = stdout w.
Proof.
  induction l as [|i l IH]; intros w Hw; [done|].
  rewrite mapM_option_cons.
  destruct (top_row top h i) as [[[rank c] x]|] eqn:Hi.
  - destruct (mapM (top_row top h) l) as [rows'|] eqn:Hl; [done|].
    intros _. simpl.
    erewrite run_bind_Done.
    2:{ erewrite run_bind_Done; [|unfold peek; rewrite Hw, Hi; reflexivity].
        reflexivity. }
    destruct (IH {| stdout := stdout w; pending := pending w ++ [Row rank c x];
                    store := store w |}) as (w' & Hrun & Hout); [done..|].
    by exists w'.
  - intros _. exists w. split; [|done]. simpl.
    apply run_bind_Panicked. apply run_bind_Panicked.
    unfold peek. by rewrite Hw, Hi.
Qed.

Lemma top_block_run n title d L w h :
  store w = h → wf h L (records d) →
  Forall (λ r, country r ≠ "") (records d) → (0 < L)%nat →
  (∀ rows, topN n d h = Some rows →
     ∃ d' h', top_block n title d w
              = (Done d', {| stdout := stdout w ++ Title title
                                       :: (row_line <$> rows);
                             pending := []; store := h' |})) ∧
  (topN n d h = None →
     ∃ w', top_block n title d w = (Panicked, w') ∧
           stdout w' = stdout w ++ [Title title]).
Proof.
  intros <- Hwf Hnamed HL.
  destruct (reduce_countries d (store w) L Hwf Hnamed)
    as (recs & R & h' & Hred & _ & _ & _ & Heq & _).
  destruct (sort_spec R h' L Heq HL) as (top & Hsort & _).
  assert (topN n d (store w) = top_rows n top h') as ->.
  { unfold topN. rewrite Hred. simpl. by rewrite Hsort. }
  assert (∀ (k : list record * data → run data),
            (poke (λ h, '(recs, rd, h') ← Data.reduce d h;
                        Some (recs, rd, h')) ≫= k) w
            = k (recs, R) {| stdout := stdout w; pending := pending w;
                             store := h' |}) as Hpoke.
  { intros k. apply run_bind_Done. unfold poke. by rewrite Hred. }
  unfold top_block. rewrite Hpoke. cbv beta iota.
  erewrite run_bind_Done; [|unfold peek; simpl; rewrite Hsort; reflexivity].
  erewrite run_bind_Done by reflexivity.
  erewrite run_bind_Done by reflexivity.
  split.
  - intros rows Hrows. eexists _, h'.
    erewrite run_bind_Done by (by apply (rows_loop top h')).
    erewrite run_bind_Done by reflexivity.
    unfold mret, run_ret. simpl. rewrite <-app_assoc. reflexivity.
  - intros Hnone.
    destruct (rows_loop_None top h' (seq 0 n)
                {| stdout := stdout w ++ [Title title]; pending := [];
                   store := h' |}) as (w' & Hrun & Hout); [done..|].
    exists w'. split; [|done]. apply run_bind_Panicked. exact Hrun.
Qed.

(** The number of distinct countries decides whether a top-N block
    returns. *)
Lemma topN_is_Some n d h L :
  wf h L (records d) → Forall (λ r, country r ≠ "") (records d) →
  (0 < L)%nat →
  is_Some (topN n d h)
  ↔ (n ≤ length (remove_dups (country <$> records d)))%nat.
Proof.
  intros Hwf Hnamed HL.
  destruct (reduce_countries d h L Hwf Hnamed)
    as (recs & R & h' & Hred & _ & _ & Hcount & Heq & _).
  destruct (sort_spec R h' L Heq HL) as (top & Hsort & Hp & _).
  assert (topN n d h = top_rows n top h') as ->.
  { unfold topN. rewrite Hred. simpl. by rewrite Hsort. }
  rewrite <-Hcount, <-(Permutation_length Hp). split.
  - intros [rows (Hn & _)%top_rows_Some]. done.
  - intros Hn. apply top_rows_is_Some; [done|].
    apply Forall_forall. intros r Hr.
    destruct (latest_equal_length h' L top r) as [-> _]; [|done..|by eexists].
    unfold equal_length. by rewrite Hp.
Qed.

End report_properties.

(** ** The report on the sample data *)

Lemma sample_ready :
  ready report_heap 3 sample ∧ ready report_heap 3 sample_dead ∧
  ready report_heap 3 sample_recov.
Proof.
  unfold ready. split_and!; try done; try lia; try compute_done.
Qed.

Lemma sample_separate :
  separate sample sample_dead ∧ separate sample sample_recov ∧
  separate sample_dead sample_recov.
Proof.
  unfold separate. split_and!; intros l Hl%list_elem_of_In Hl'%list_elem_of_In;
    simpl in Hl, Hl'; lia.
Qed.

Lemma sample_has_match (d : data) (c : string) (r : record) :
  r ∈ records d → EqualFold (Folding := ascii_folding) (country r) c = true →
  has_match (fld := ascii_folding) d c.
Proof. intros. by exists r. Qed.

Lemma report_country_not_found_witness :
  ∃ w',
    report (srt := insertion_sort) (fld := ascii_folding) 10
      (sample_flags "Country B" false true) sample sample_dead sample_recov
      (start report_heap)
    = (Fatal ("Country "
              ++ fcountry (sample_flags "Country B" false true)
              ++ " is not in the list"), w') ∧
    stdout w' = globe_lines report_heap 3 3 3 sample sample_dead sample_recov.
Proof.
  apply (@report_country_not_found insertion_sort insertion_sort_ok
           ascii_folding 10 (sample_flags "Country B" false true)
           sample sample_dead sample_recov report_heap 3 3 3);
    try apply sample_ready; try apply sample_separate.
  - done.
  - intros (_ & _ & r & Hr%list_elem_of_In & Hm). simpl in Hr.
    destruct Hr as [<-|[]]. by vm_compute in Hm.
Defined.

Lemma report_country_witness :
  ∃ w' rc rd rr,
    report (srt := insertion_sort) (fld := ascii_folding) 10
      (sample_flags "country a" true false) sample sample_dead sample_recov
      (start report_heap) = (Done tt, w') ∧
    pending w' = [] ∧
    (rc ∈ records sample ∧
     EqualFold (Folding := ascii_folding) (country rc)
       (fcountry (sample_flags "country a" true false)) = true) ∧
    (rd ∈ records sample_dead ∧
     EqualFold (Folding := ascii_folding) (country rd)
       (fcountry (sample_flags "country a" true false)) = true) ∧
    (rr ∈ records sample_recov ∧
     EqualFold (Folding := ascii_folding) (country rr)
       (fcountry (sample_flags "country a" true false)) = true) ∧
    stdout w'
    = globe_lines report_heap 3 3 3 sample sample_dead sample_recov
      ++ [Title (country rc);
          cases_line "Confirmed"
            (totals report_heap 3 (group (country rc) (records sample)));
          cases_line "Dead"
            (totals report_heap 3 (group (country rd) (records sample_dead)));
          cases_line "Recovered"
            (totals report_heap 3
               (group (country rr) (records sample_recov)))]
      ++ (if fgraph (sample_flags "country a" true false)
          then [Graph (country rc ++ " - Confirmed")
                  (country_total report_heap 3 (country rc) (records sample));
                Graph (country rd ++ " - Dead")
                  (country_total report_heap 3 (country rd)
                     (records sample_dead));
                Graph (country rr ++ " - Recovered")
                  (country_total report_heap 3 (country rr)
                     (records sample_recov))]
          else []).
Proof.
  apply (@report_country insertion_sort insertion_sort_ok ascii_folding 10
           (sample_flags "country a" true false)
           sample sample_dead sample_recov report_heap 3 3 3);
    try apply sample_ready; try apply sample_separate; try done.
  - apply (sample_has_match _ _ (region "East" "Country A" 1));
      [by repeat constructor|by vm_compute].
  - apply (sample_has_match _ _ (region "East" "Country A" 4));
      [by repeat constructor|by vm_compute].
  - apply (sample_has_match _ _ (region "East" "Country A" 5));
      [by repeat constructor|by vm_compute].
Defined.


(** A run with a country, the graphs and the list of confirmed cases:
    the country block shows 9 confirmed cases for Country A and the list
    below it shows 15, since the list reduces the records that the
    country block has reduced.  And the program's list of ten on a
    dataset of two countries: the title, then a panic. *)
Example report_sample_run :
  (report (srt := insertion_sort) (fld := ascii_folding) 2
     (sample_flags "country a" true true) sample sample_dead sample_recov
     (start report_heap)).1 = Done tt ∧
  stdout (report (srt := insertion_sort) (fld := ascii_folding) 2
            (sample_flags "country a" true true) sample sample_dead
            sample_recov (start report_heap)).2
  = [Title "Globe"; Cases "Confirmed" 10 3; Cases "Dead" 1 0;
     Cases "Recovered" 2 1;
     Title "Country A"; Cases "Confirmed" 9 2; Cases "Dead" 1 0;
     Cases "Recovered" 2 1;
     Graph "Country A - Confirmed" [5; 7; 9];
     Graph "Country A - Dead" [0; 1; 1];
     Graph "Country A - Recovered" [1; 1; 2];
     Title "Top 10 countries by most confirmed cases";
     Row 1 "Country A" 15; Row 2 "Country B" 1] ∧
  (report (srt := insertion_sort) (fld := ascii_folding) 10
     (sample_flags "" false true) sample sample_dead sample_recov
     (start report_heap)).1 = Panicked ∧
  stdout (report (srt := insertion_sort) (fld := ascii_folding) 10
            (sample_flags "" false true) sample sample_dead sample_recov
            (start report_heap)).2
  = [Title "Globe"; Cases "Confirmed" 10 3; Cases "Dead" 1 0;
     Cases "Recovered" 2 1;
     Title "Top 10 countries by most confirmed cases"].
Proof. split_and!; by vm_compute. Qed.

(** * From the table to the report *)

Section pipeline.
Context {P : Platform} {srt : SliceSort} {ok : SliceSortOk srt}.

(** X19.  A table with a day column and a row whose country field is
    empty: [decode] accepts it, and [reduce] on the decoded dataset
    panics; without such a row [reduce] returns.  [filter] and the
    top-10 blocks call [reduce]. *)
Theorem decoded_reduce_panics path rd save fs h d h' fs' content rr :
  DecodeString rd = Some content → ReadAll content = Some rr →
  decode path rd save fs h = Done (d, h', fs') →
  (5 ≤ length (hd [] rr))%nat →
  Data.reduce d h' = None
  ↔ ∃ row, row ∈ tail rr ∧ row !! 1%nat = Some "".
Proof.
  intros Hcontent Hrr
    (content' & hdr & rows & Hcontent' & _ & Hrr' & Hhdr & Hrows)%decode_Done
    Hcols.
  assert (content' = content) as -> by congruence.
  assert (rr = hdr :: rows) as -> by congruence. simpl in *.
  pose proof Hrows as (rs & Hrs & _ & Hall & _)%decode_rows_content.
  simpl in Hrs. subst rs.
  apply decode_rows_spec in Hrows as (Hwf & _);
    [|by split; constructor|constructor].
  assert ((∃ r, r ∈ records d ∧ country r = "")
          ↔ ∃ row, row ∈ rows ∧ row !! 1%nat = Some "") as <-.
  { split.
    - intros (r & Hr & Hc). apply list_elem_of_lookup in Hr as [i Hi].
      destruct (Forall2_lookup_r _ _ _ i r Hall Hi)
        as (row & Hrow & _ & Hcountry & _).
      exists row. split; [by eapply list_elem_of_lookup_2|congruence].
    - intros (row & Hrow & Hc). apply list_elem_of_lookup in Hrow as [i Hi].
      destruct (Forall2_lookup_l _ _ _ i row Hall Hi)
        as (r & Hr & _ & Hcountry & _).
      exists r. split; [by eapply list_elem_of_lookup_2|congruence]. }
  split.
  - intros Hnone.
    destruct (decide (Forall (λ r, country r ≠ "") (records d)))
      as [Hnamed|Hun].
    + destruct (reduce_spec d h' _ Hwf Hnamed) as (? & ? & ? & Hred & _).
      congruence.
    + apply not_Forall_Exists in Hun; [|apply _].
      apply Exists_exists in Hun as (r & Hr & Hc).
      exists r. split; [done|]. by destruct (decide (country r = "")).
  - intros Hun. apply (reduce_unnamed d h' (length hdr - 4)); [done|lia|done].
Qed.
End pipeline.

Section globe.
Context {srt : SliceSort} {fld : Folding}.

Lemma data_printCases_Some t d w p :
  Data.printCases d (store w) = Some p →
  data_printCases t d w
  = (Done tt, {| stdout := stdout w; pending := pending w ++ [cases_line t p];
                 store := store w |}).
Proof.
  intros Hp. unfold data_printCases.
  erewrite run_bind_Done; [|unfold peek; rewrite Hp; reflexivity].
  by destruct p.
Qed.

Lemma data_printCases_None t d w :
  Data.printCases d (store w) = None → data_printCases t d w = (Panicked, w).
Proof.
  intros Hp. unfold data_printCases. apply run_bind_Panicked.
  unfold peek. by rewrite Hp.
Qed.

(** X20.  A dataset without records, or with fewer than two days: [main]
    writes the title of the Globe block and panics, whatever the flags
    are; the lines of the datasets before it are lost in the tabwriter. *)
Theorem report_globe_panics n f conf dead recov h Lc Ld Lr :
  Forall (has_cases h Lc) (records conf) →
  Forall (has_cases h Ld) (records dead) →
  Forall (has_cases h Lr) (records recov) →
  ¬ ((records conf ≠ [] ∧ (2 ≤ Lc)%nat) ∧ (records dead ≠ [] ∧ (2 ≤ Ld)%nat) ∧
     (records recov ≠ [] ∧ (2 ≤ Lr)%nat)) →
  ∃ w',
    report n f conf dead recov (start h) = (Panicked, w') ∧
    stdout w' = [Title "Globe"].
Proof.
  intros Hc Hd Hr Hno. unfold report, globe_block.
  destruct (Data.printCases conf h) as [pc|] eqn:Hpc.
  2:{ eexists. split.
      - apply run_bind_Panicked.
        erewrite run_bind_Done by reflexivity.
        erewrite run_bind_Done by reflexivity.
        apply run_bind_Panicked. by apply data_printCases_None.
      - done. }
  destruct (Data.printCases dead h) as [pd|] eqn:Hpd.
  2:{ eexists. split.
      - apply run_bind_Panicked.
        erewrite run_bind_Done by reflexivity.
        erewrite run_bind_Done by reflexivity.
        erewrite run_bind_Done by (by apply (data_printCases_Some _ _ _ pc)).
        apply run_bind_Panicked. by apply data_printCases_None.
      - done. }
  destruct (Data.printCases recov h) as [pr|] eqn:Hpr.
  2:{ eexists. split.
      - apply run_bind_Panicked.
        erewrite run_bind_Done by reflexivity.
        erewrite run_bind_Done by reflexivity.
        erewrite run_bind_Done by (by apply (data_printCases_Some _ _ _ pc)).
        erewrite run_bind_Done by (by apply (data_printCases_Some _ _ _ pd)).
        apply run_bind_Panicked. by apply data_printCases_None.
      - done. }
  destruct Hno. split; [|split].
  - apply (printCases_needs conf h Lc Hc). by rewrite Hpc.
  - apply (printCases_needs dead h Ld Hd). by rewrite Hpd.
  - apply (printCases_needs recov h Lr Hr). by rewrite Hpr.
Qed.
End globe.

Lemma decoded_reduce_panics_witness :
  Data.reduce (srt := insertion_sort)
    {| header := ["Province/State"; "Country/Region"; "Lat"; "Long"; "1/22/20"];
       records := [region "Hubei" "China" 0; region "" "" 1] |} [[444]; [1]]
  = None
  ↔ ∃ row, row ∈ tail [["Province/State"; "Country/Region"; "Lat"; "Long";
                        "1/22/20"];
                       ["Hubei"; "China"; "30.97"; "112.27"; "444"];
                       [""; ""; "0"; "0"; "1"]] ∧
           row !! 1%nat = Some "".
Proof.
  apply (@decoded_reduce_panics plain_platform
           insertion_sort insertion_sort_ok "confirmed.csv"
           (String.concat line_feed
              ["Province/State,Country/Region,Lat,Long,1/22/20";
               "Hubei,China,30.97,112.27,444"; ",,0,0,1"])
           false [] []
           {| header := ["Province/State"; "Country/Region"; "Lat"; "Long";
                         "1/22/20"];
              records := [region "Hubei" "China" 0; region "" "" 1] |}
           [[444]; [1]] []
           (String.concat line_feed
              ["Province/State,Country/Region,Lat,Long,1/22/20";
               "Hubei,China,30.97,112.27,444"; ",,0,0,1"])).
  - reflexivity.
  - by vm_compute.
  - by vm_compute.
  - simpl. lia.
Defined.

Lemma report_globe_panics_witness :
  ∃ w',
    report (srt := insertion_sort) (fld := ascii_folding) 10
      (sample_flags "" false false) sample
      {| header := sample_header; records := [] |} sample_recov
      (start report_heap) = (Panicked, w') ∧
    stdout w' = [Title "Globe"].
Proof.
  apply (@report_globe_panics insertion_sort ascii_folding 10
           (sample_flags "" false false) sample
           {| header := sample_header; records := [] |} sample_recov
           report_heap 3 3 3).
  - compute_done.
  - constructor.
  - compute_done.
  - by intros (_ & [? _] & _).
Defined.
